(** * claude-code-manager: background jobs and the loop executor

    A shallow embedding of
      - [src/jobs/types.ts], [src/jobs/store.ts], [src/jobs/job-manager.ts]
      - [src/ralph/prd.ts], [src/ralph/progress.ts], [src/executors/loop.ts]
    and the properties of the job lifecycle and of the loop executor that
    follow from the code.

    Conventions of the embedding.
      - A JavaScript number that holds a count, a priority or a time in
        milliseconds is a [Z]; a [Date] is its [getTime()] value.
      - An optional field ([x?: T]) is an [option]; [a ?? b] is [nullish].
      - [Map<string, V>] is a [gmap string V].
      - Code that can [throw] lives in the monad [Eff]: state passing with an
        outcome that is a value or a thrown error; the state survives a throw,
        as in JavaScript.
      - The clock is an argument: every operation takes the reading [now] that
        [new Date()] / [Date.now()] returns while it runs.
      - The worker ([SingleShotExecutor.execute]) is an external process: its
        result is an input of the step that resumes after it.
      - The disk of the job store is the list of its files, each with its
        path and with the document that [JSON.parse] reads from it; paths
        are POSIX paths and [path.join] resolves the segments of an id. A
        write that fails (no space, no permission, no parent directory) is an
        event of the environment: here [fs.mkdir] and [fs.writeFile]
        succeed. *)

From stdpp Require Import gmap strings list fin_maps pretty.
From Stdlib Require Import ZArith Lia Ascii.

Local Open Scope Z_scope.
Local Open Scope string_scope.
Local Open Scope list_scope.

(** ** Errors and the effect monad *)

Inductive JsError : Type :=
  | JobNotFound (jobId : string)
      (* new Error(`Job not found: ${jobId}`) *)
  | ConcurrencyLimitReached (limit : Z)
      (* new Error(`Maximum concurrent jobs limit reached (${limit}). ...`) *)
  | CannotDeleteRunning
      (* new Error('Cannot delete a running job. Cancel it first.') *)
  | TaskIncompleteError (completedTasks totalTasks : Z)
      (* errors.ts: code 'INCOMPLETE', details { completedTasks, totalTasks } *)
  | FileNotReadable (path : string)
      (* fs.readFile / JSON.parse rejecting *)
  | TypeError (what : string).

Inductive Outcome (A : Type) : Type :=
  | Return (a : A)
  | Throw (e : JsError).
Arguments Return {A} a.
Arguments Throw {A} e.

Definition Eff (S A : Type) : Type := S -> Outcome A * S.

Definition ret {S A} (a : A) : Eff S A := fun s => (Return a, s).
Definition throw {S A} (e : JsError) : Eff S A := fun s => (Throw e, s).
Definition bind {S A B} (c : Eff S A) (k : A -> Eff S B) : Eff S B :=
  fun s => match c s with
           | (Return a, s') => k a s'
           | (Throw e, s') => (Throw e, s')
           end.
Definition get_state {S} : Eff S S := fun s => (Return s, s).
Definition put_state {S} (s : S) : Eff S unit := fun _ => (Return tt, s).
Definition modify {S} (f : S -> S) : Eff S unit := fun s => (Return tt, f s).

(** [try { c } catch (e) { h e }] *)
Definition try_catch {S A} (c : Eff S A) (h : JsError -> Eff S A) : Eff S A :=
  fun s => match c s with
           | (Return a, s') => (Return a, s')
           | (Throw e, s') => h e s'
           end.

(** Run a computation on a component of the state. *)
Definition zoom {S T A} (proj : S -> T) (inj : T -> S -> S) (c : Eff T A) : Eff S A :=
  fun s => match c (proj s) with
           | (o, t') => (o, inj t' s)
           end.

Declare Scope eff_scope.
Delimit Scope eff_scope with eff.
Notation "'let*' x ':=' c 'in' k" := (bind c (fun x => k))
  (at level 10, x name, c at level 100, k at level 200) : eff_scope.
Notation "c ';;;' k" := (bind c (fun _ => k))
  (at level 100, k at level 200, right associativity) : eff_scope.
Local Open Scope eff_scope.

(** [a ?? b] *)
Definition nullish {A} (a : option A) (b : A) : A :=
  match a with Some x => x | None => b end.
Definition nullish_opt {A} (a b : option A) : option A :=
  match a with Some x => Some x | None => b end.

(** ** src/types.ts *)

Inductive ErrorStrategyMode : Type := fail_fast | retry | graceful | custom.

Global Instance ErrorStrategyMode_eq_dec : EqDecision ErrorStrategyMode.
Proof. solve_decision. Defined.

Inductive LoopMode : Type := mode_code | mode_research | mode_auto.

(** Reference to a [CancellationToken] object in the heap of tokens. *)
Definition TokenRef : Type := nat.

Record ExecuteOptions : Type := mkExecuteOptions {
  eo_prompt : string;
  eo_timeout : option Z;
  eo_model : option string;
  eo_permissionMode : option string
}.

Record ExecuteLoopOptions : Type := mkExecuteLoopOptions {
  lo_taskFile : string;
  lo_maxIterations : option Z;
  lo_mode : option LoopMode;
  lo_progressFile : option string;
  lo_errorStrategy : option ErrorStrategyMode;
  lo_cancelToken : option TokenRef;
  lo_model : option string
}.

Record UserStory : Type := mkUserStory {
  us_id : string;
  us_title : string;
  us_description : string;
  us_acceptanceCriteria : list string;
  us_priority : Z;
  us_estimatedComplexity : Z;
  us_passes : bool
}.

Record PRDSpec : Type := mkPRDSpec {
  prd_project : string;
  prd_branchName : string;
  prd_description : string;
  prd_userStories : list UserStory
}.

Record ProgressEntry : Type := mkProgressEntry {
  pe_storyId : string;
  pe_summary : string;
  pe_filesChanged : list string;
  pe_learnings : list string
}.

Record IterationResult : Type := mkIterationResult {
  ir_iteration : Z;
  ir_taskId : string;
  ir_success : bool;
  ir_commits : list string;
  ir_duration : Z
}.

(** [mode] is declared ['code' | 'research'] but is filled by a cast of
    [options.mode], so ['auto'] reaches it unchanged. *)
Record TaskState : Type := mkTaskState {
  ts_mode : LoopMode;
  ts_tasksTotal : Z;
  ts_tasksCompleted : Z;
  ts_tasks : list UserStory
}.

Record LoopResult : Type := mkLoopResult {
  lr_success : bool;
  lr_completed : bool;
  lr_iterations : list IterationResult;
  lr_finalState : TaskState
}.

(** The value of an [error?: Error] field: an [Error] object with its message,
    or the empty object [{}] that is left of an [Error] after
    [JSON.parse(JSON.stringify(...))], which keeps none of its properties. *)
Inductive ErrorValue : Type :=
  | ErrorObject (message : string)
  | EmptyObject.

(** [ExecuteResult<T>]: [D] is [z.infer<T>]. *)
Record ExecuteResult (D : Type) : Type := mkExecuteResult {
  er_success : bool;
  er_outputDir : string;
  er_logs : string;
  er_duration : Z;
  er_error : option ErrorValue;
  er_data : option D
}.
Arguments mkExecuteResult {D}.
Arguments er_success {D}.
Arguments er_outputDir {D}.
Arguments er_logs {D}.
Arguments er_duration {D}.
Arguments er_error {D}.
Arguments er_data {D}.

(** The object the loop's [storySchema] validates. *)
Record StoryData : Type := mkStoryData {
  sd_success : bool;
  sd_summary : string;
  sd_filesChanged : list string;
  sd_learnings : option (list string);
  sd_passes : bool
}.

(** ** src/jobs/types.ts *)

Inductive JobStatus : Type := Pending | Running | Completed | Failed | Cancelled.

Global Instance JobStatus_eq_dec : EqDecision JobStatus.
Proof. solve_decision. Defined.

Inductive JobType : Type := SingleShot | Loop.

Global Instance JobType_eq_dec : EqDecision JobType.
Proof. solve_decision. Defined.

Record JobProgress : Type := mkJobProgress {
  currentIteration : Z;
  totalIterations : option Z;
  currentTaskId : option string;
  tasksCompleted : Z;
  tasksTotal : Z;
  lastUpdate : Z;
  message : option string
}.

(** [Partial<JobProgress>] *)
Record PartialJobProgress : Type := mkPartialJobProgress {
  pp_currentIteration : option Z;
  pp_totalIterations : option Z;
  pp_currentTaskId : option string;
  pp_tasksCompleted : option Z;
  pp_tasksTotal : option Z;
  pp_lastUpdate : option Z;
  pp_message : option string
}.

Definition noProgress : PartialJobProgress :=
  mkPartialJobProgress None None None None None None None.

Inductive JobOptions : Type :=
  | SingleShotOptions (o : ExecuteOptions)
  | LoopOptions (o : ExecuteLoopOptions).

(** A single-shot worker's payload is opaque to the job subsystem: its JSON text. *)
Inductive JobResult : Type :=
  | SingleShotResult (r : ExecuteResult string)
  | LoopJobResult (r : LoopResult).

(** [Job = SingleShotJob | LoopJob]; [job_iterations] is the [iterations] array
    of a [LoopJob] and is [None] on a [SingleShotJob], which has no such field. *)
Record Job : Type := mkJob {
  job_id : string;
  job_type : JobType;
  job_status : JobStatus;
  job_createdAt : Z;
  job_startedAt : option Z;
  job_completedAt : option Z;
  job_error : option string;
  job_progress : option JobProgress;
  job_options : JobOptions;
  job_result : option JobResult;
  job_iterations : option (list IterationResult)
}.

Record JobPollResult : Type := mkJobPollResult {
  poll_id : string;
  poll_status : JobStatus;
  poll_progress : option JobProgress;
  poll_finished : bool;
  poll_result : option JobResult;
  poll_error : option string;
  poll_duration : option Z
}.

(** [SerializedJob]: the JSON document of a persisted job. The ISO-8601 strings
    of the timestamps are represented by the time they denote. *)
Record SerializedJob : Type := mkSerializedJob {
  ser_id : string;
  ser_type : JobType;
  ser_status : JobStatus;
  ser_createdAt : Z;
  ser_startedAt : option Z;
  ser_completedAt : option Z;
  ser_error : option string;
  ser_progress : option JobProgress;
  ser_options : JobOptions;
  ser_result : option JobResult;
  ser_iterations : option (list IterationResult)
}.

(** A location in the file system: the names from the root down to the file
    or directory, as [path.join] and [path.resolve] normalise them (POSIX). *)
Abbreviation Path := (list string).

(** [Required<JobStoreOptions>]; [storeDir] is the directory that the option
    names, resolved against the working directory of the process. *)
Record JobStoreOptions : Type := mkJobStoreOptions {
  persistToFile : bool;
  storeDir : Path;
  maxJobAge : Z;
  cleanupInterval : Z
}.

(** [['completed', 'failed', 'cancelled'].includes(status)] *)
Definition isTerminal (s : JobStatus) : bool :=
  match s with
  | Completed | Failed | Cancelled => true
  | Pending | Running => false
  end.

(** Field updates of a job object ([job.status = ...] and the like). *)
Definition set_status (s : JobStatus) (j : Job) : Job :=
  mkJob (job_id j) (job_type j) s (job_createdAt j) (job_startedAt j)
        (job_completedAt j) (job_error j) (job_progress j) (job_options j)
        (job_result j) (job_iterations j).
Definition set_startedAt (t : option Z) (j : Job) : Job :=
  mkJob (job_id j) (job_type j) (job_status j) (job_createdAt j) t
        (job_completedAt j) (job_error j) (job_progress j) (job_options j)
        (job_result j) (job_iterations j).
Definition set_completedAt (t : option Z) (j : Job) : Job :=
  mkJob (job_id j) (job_type j) (job_status j) (job_createdAt j) (job_startedAt j)
        t (job_error j) (job_progress j) (job_options j)
        (job_result j) (job_iterations j).
Definition set_error (e : option string) (j : Job) : Job :=
  mkJob (job_id j) (job_type j) (job_status j) (job_createdAt j) (job_startedAt j)
        (job_completedAt j) e (job_progress j) (job_options j)
        (job_result j) (job_iterations j).
Definition set_progress (p : option JobProgress) (j : Job) : Job :=
  mkJob (job_id j) (job_type j) (job_status j) (job_createdAt j) (job_startedAt j)
        (job_completedAt j) (job_error j) p (job_options j)
        (job_result j) (job_iterations j).
Definition set_result (r : option JobResult) (j : Job) : Job :=
  mkJob (job_id j) (job_type j) (job_status j) (job_createdAt j) (job_startedAt j)
        (job_completedAt j) (job_error j) (job_progress j) (job_options j)
        r (job_iterations j).
Definition set_iterations (its : option (list IterationResult)) (j : Job) : Job :=
  mkJob (job_id j) (job_type j) (job_status j) (job_createdAt j) (job_startedAt j)
        (job_completedAt j) (job_error j) (job_progress j) (job_options j)
        (job_result j) its.

(** ** src/jobs/store.ts *)

Module JobStore.

(** *** Paths *)

(** The pieces of [s] between its ['/'] characters. *)
Fixpoint splitFrom (cur s : string) : list string :=
  match s with
  | EmptyString => [cur]
  | String c s' =>
      if Ascii.eqb c "/"%char then cur :: splitFrom "" s'
      else splitFrom (cur +:+ String c "") s'
  end.

Definition segments (s : string) : list string := splitFrom "" s.

(** One segment of a path that is being normalised: an empty segment and
    ["."] stay in the directory, [".."] goes to its parent (the root is its
    own parent), a name goes down. *)
Definition step (p : Path) (seg : string) : Path :=
  if decide (seg = "" \/ seg = ".") then p
  else if decide (seg = "..") then removelast p
  else p ++ [seg].

(** [path.join(dir, file)], for a directory [dir] given as its resolved
    path: the segments of [file] are followed from [dir]. *)
Definition join (dir : Path) (file : string) : Path :=
  fold_left step (segments file) dir.

(** A string without ['/'] and without the NUL character. *)
Fixpoint plain (s : string) : bool :=
  match s with
  | EmptyString => true
  | String c s' =>
      negb (Ascii.eqb c "/"%char) && negb (Ascii.eqb c "000"%char) && plain s'
  end.

(** The names that an entry of a directory can have. *)
Definition fileName (n : string) : bool :=
  plain n && negb (String.eqb n "") && negb (String.eqb n ".")
  && negb (String.eqb n "..").

(** The path of [p] relative to the directory [dir], when [p] lies in it or
    below it. *)
Fixpoint below (dir p : Path) : option Path :=
  match dir, p with
  | [], _ => Some p
  | d :: dir', n :: p' => if decide (d = n) then below dir' p' else None
  | _ :: _, [] => None
  end.

(** *** Files *)

(** [JSON.parse(JSON.stringify(result))]: the [Error] of a worker result has
    no enumerable property and is written as [{}]; every other field of a
    result is made of booleans, numbers, strings, arrays and plain objects,
    and is read back as it was written. *)
Definition jsonResult (r : JobResult) : JobResult :=
  match r with
  | SingleShotResult e =>
      SingleShotResult
        (mkExecuteResult (er_success e) (er_outputDir e) (er_logs e) (er_duration e)
           (match er_error e with Some _ => Some EmptyObject | None => None end)
           (er_data e))
  | LoopJobResult l => LoopJobResult l
  end.

(** [JSON.parse(JSON.stringify(serialized))]: the ISO strings stand for the
    same times, a field that is [undefined] is left out and read back as
    [undefined]. *)
Definition jsonCopy (s : SerializedJob) : SerializedJob :=
  mkSerializedJob (ser_id s) (ser_type s) (ser_status s) (ser_createdAt s)
    (ser_startedAt s) (ser_completedAt s) (ser_error s) (ser_progress s)
    (ser_options s) (jsonResult <$> ser_result s) (ser_iterations s).

(** What [JSON.parse] makes of the text of a file, as far as
    [loadPersistedJobs] tells the cases apart:
      - [Malformed]: the text is not JSON, or it is [null]: [JSON.parse]
        throws, or the first field access of [deserializeJob] does;
      - [JobFile s]: a document with the fields of a [SerializedJob];
      - [Undated]: an object whose [status] is completed, failed or cancelled
        and whose completion time ([completedAt], or [createdAt] when that is
        missing) is not a date that [new Date] can read, such as
        [{"status": "completed"}]: nothing throws and the age is [NaN].
    A document of any other shape (no [id], a [status] that is none of the
    five) makes [deserializeJob] return an object that is no [Job], which
    [jobs.set] files under whatever [id] it has, [undefined] included. The
    map [jobs] below holds jobs under strings: such documents have no
    counterpart here. *)
Inductive FileContent : Type :=
  | Malformed
  | JobFile (s : SerializedJob)
  | Undated.

(** The store: the [jobs] map, the options, and the files of the disk with
    their paths, in the order in which [readdir] lists them. A path names one
    file. The disk holds files only: a directory is there as soon as it is
    needed, and [fs.mkdir] and [fs.writeFile] succeed. *)
Record t : Type := mk {
  jobs : gmap string Job;
  options : JobStoreOptions;
  disk : list (Path * FileContent)
}.

Definition set_jobs (m : gmap string Job) (st : t) : t :=
  mk m (options st) (disk st).
Definition set_disk (d : list (Path * FileContent)) (st : t) : t :=
  mk (jobs st) (options st) d.

Definition DEFAULT_MAX_JOB_AGE : Z := 24 * 60 * 60 * 1000.
Definition DEFAULT_CLEANUP_INTERVAL : Z := 60 * 60 * 1000.

(** [constructor(options: JobStoreOptions = {})], in a process whose working
    directory is [cwd]. The constructor touches no file; the store that it
    gives here stands on an empty disk, and [restart] below gives a new store
    on the disk that another one has left. *)
Definition create (cwd : Path) (persist : option bool) (dir : option Path)
    (maxAge interval : option Z) : t :=
  mk ∅
     (mkJobStoreOptions (nullish persist false)
                        (nullish dir (join cwd ".claude-jobs"))
                        (nullish maxAge DEFAULT_MAX_JOB_AGE)
                        (nullish interval DEFAULT_CLEANUP_INTERVAL))
     [].

(** [f.endsWith(suffix)] *)
Definition endsWith (f suffix : string) : bool :=
  String.prefix (String.rev suffix) (String.rev f).

(** [getJobFilePath]: [path.join(this.options.storeDir, `${jobId}.json`)] *)
Definition getJobFilePath (st : t) (jobId : string) : Path :=
  join (storeDir (options st)) (jobId +:+ ".json").

(** [fs.writeFile]: replace the file at that path, or create it. *)
Fixpoint writeFile (path : Path) (c : FileContent)
    (d : list (Path * FileContent)) : list (Path * FileContent) :=
  match d with
  | [] => [(path, c)]
  | (p, c') :: d' =>
      if decide (p = path) then (p, c) :: d' else (p, c') :: writeFile path c d'
  end.

(** [fs.unlink]; where there is no such file it throws, and both callers
    catch that. *)
Definition unlink (path : Path)
    (d : list (Path * FileContent)) : list (Path * FileContent) :=
  filter (fun f => f.1 ≠ path) d.

(** An entry of the directory [dir]: a file one name below it. *)
Definition entry (dir : Path) (f : Path * FileContent)
    : option (string * FileContent) :=
  match below dir f.1 with
  | Some [n] => if fileName n then Some (n, f.2) else None
  | _ => None
  end.

(** [fs.readdir(dir)], each name with what [fs.readFile] and [JSON.parse]
    give for it. A sub-directory is not listed: [readFile] throws on it and
    the loop of [loadPersistedJobs] goes on to the next name. *)
Definition readdir (dir : Path) (d : list (Path * FileContent))
    : list (string * FileContent) :=
  omap (entry dir) d.

(** [serializeOptions]: callbacks and the cancellation token are dropped. *)
Definition serializeOptions (o : JobOptions) : JobOptions :=
  match o with
  | SingleShotOptions e => SingleShotOptions e
  | LoopOptions l =>
      LoopOptions (mkExecuteLoopOptions (lo_taskFile l) (lo_maxIterations l)
                     (lo_mode l) (lo_progressFile l) (lo_errorStrategy l)
                     None (lo_model l))
  end.

Definition serializeJob (job : Job) : SerializedJob :=
  mkSerializedJob (job_id job) (job_type job) (job_status job)
    (job_createdAt job) (job_startedAt job) (job_completedAt job)
    (job_error job) (job_progress job)
    (serializeOptions (job_options job)) (job_result job)
    (match job_type job with Loop => job_iterations job | SingleShot => None end).

Definition deserializeJob (s : SerializedJob) : Job :=
  match ser_type s with
  | Loop =>
      mkJob (ser_id s) Loop (ser_status s) (ser_createdAt s) (ser_startedAt s)
            (ser_completedAt s) (ser_error s) (ser_progress s) (ser_options s)
            (ser_result s) (Some (nullish (ser_iterations s) []))
  | SingleShot =>
      mkJob (ser_id s) SingleShot (ser_status s) (ser_createdAt s) (ser_startedAt s)
            (ser_completedAt s) (ser_error s) (ser_progress s) (ser_options s)
            (ser_result s) None
  end.

(** [persistJob]: the file holds [JSON.stringify(serialized)]; what is
    recorded is the document that [JSON.parse] reads from it. *)
Definition persistJob (job : Job) : Eff t unit :=
  modify (fun st =>
    let serialized := serializeJob job in
    let filePath := getJobFilePath st (job_id job) in
    set_disk (writeFile filePath (JobFile (jsonCopy serialized)) (disk st)) st).

Definition save (job : Job) : Eff t unit :=
  modify (fun st => set_jobs (<[job_id job := job]> (jobs st)) st) ;;;
  let* st := get_state in
  if persistToFile (options st) then persistJob job else ret tt.

Definition get (jobId : string) : Eff t (option Job) :=
  fun st => (Return (jobs st !! jobId), st).

(** [const job = this.jobs.get(jobId); if (!job) throw ...] *)
Definition require (jobId : string) : Eff t Job :=
  let* o := get jobId in
  match o with
  | Some job => ret job
  | None => throw (JobNotFound jobId)
  end.

(** [if (error)]: the empty string is falsy. *)
Definition truthy (s : option string) : bool :=
  match s with
  | Some e => negb (String.eqb e "")
  | None => false
  end.

(** The field assignments of [updateStatus]. *)
Definition withStatus (now : Z) (status : JobStatus) (error : option string)
    (job : Job) : Job :=
  let job := set_status status job in
  let job :=
    if decide (status = Running) then
      match job_startedAt job with
      | None => set_startedAt (Some now) job
      | Some _ => job
      end
    else job in
  let job := if isTerminal status then set_completedAt (Some now) job else job in
  if truthy error then set_error error job else job.

Definition updateStatus (now : Z) (jobId : string) (status : JobStatus)
    (error : option string) : Eff t unit :=
  let* job := require jobId in
  save (withStatus now status error job).

(** The object literal that [updateProgress] assigns to [job.progress]. *)
Definition mergeProgress (now : Z) (old : option JobProgress)
    (p : PartialJobProgress) : JobProgress :=
  mkJobProgress
    (nullish (pp_currentIteration p) (nullish (currentIteration <$> old) 0))
    (nullish_opt (pp_totalIterations p) (old ≫= totalIterations))
    (nullish_opt (pp_currentTaskId p) (old ≫= currentTaskId))
    (nullish (pp_tasksCompleted p) (nullish (tasksCompleted <$> old) 0))
    (nullish (pp_tasksTotal p) (nullish (tasksTotal <$> old) 0))
    now
    (nullish_opt (pp_message p) (old ≫= message)).

Definition updateProgress (now : Z) (jobId : string)
    (progress : PartialJobProgress) : Eff t unit :=
  let* job := require jobId in
  save (set_progress (Some (mergeProgress now (job_progress job) progress)) job).

Definition updateResult (jobId : string) (result : JobResult) : Eff t unit :=
  let* job := require jobId in
  save (set_result (Some result) job).

Definition delete (jobId : string) : Eff t unit :=
  modify (fun st => set_jobs (base.delete jobId (jobs st)) st) ;;;
  let* st := get_state in
  if persistToFile (options st)
  then modify (fun st => set_disk (unlink (getJobFilePath st jobId) (disk st)) st)
  else ret tt.

Definition INTERRUPTED : string := "Job was interrupted by process restart".

(** The body of the [for (const file of jsonFiles)] loop of
    [loadPersistedJobs], with its [try]/[catch]: a file on which [JSON.parse]
    or [deserializeJob] throws is skipped. For an [Undated] file the age is
    [NaN], the test [Date.now() - completedAt < maxJobAge] is false, and the
    file is unlinked. *)
Definition loadJobFile (now : Z) (file : string * FileContent) : Eff t unit :=
  let* st := get_state in
  let filePath := join (storeDir (options st)) file.1 in
  match file.2 with
  | Malformed => ret tt (* catch: console.error, next file *)
  | Undated => modify (fun st => set_disk (unlink filePath (disk st)) st)
  | JobFile serialized =>
      let job := deserializeJob serialized in
      if negb (isTerminal (job_status job)) then
        let job :=
          if decide (job_status job = Running) then
            set_completedAt (Some now)
              (set_error (Some INTERRUPTED) (set_status Failed job))
          else job in
        modify (fun st => set_jobs (<[job_id job := job]> (jobs st)) st)
      else
        let completedAt := nullish (job_completedAt job) (job_createdAt job) in
        if bool_decide (now - completedAt < maxJobAge (options st)) then
          modify (fun st => set_jobs (<[job_id job := job]> (jobs st)) st)
        else
          modify (fun st => set_disk (unlink filePath (disk st)) st)
  end.

Fixpoint forEach {S A} (l : list A) (body : A -> Eff S unit) : Eff S unit :=
  match l with
  | [] => ret tt
  | x :: l' => body x ;;; forEach l' body
  end.

(** [files.filter(f => f.endsWith('.json'))], over [readdir(storeDir)]. The
    names are listed once, before the loop; the loop changes no file but the
    one it has just read, so each file is read as it was listed. *)
Definition jsonFiles (st : t) : list (string * FileContent) :=
  filter (fun f => endsWith f.1 ".json" = true)
         (readdir (storeDir (options st)) (disk st)).

Definition loadPersistedJobs (now : Z) : Eff t unit :=
  let* st := get_state in
  forEach (jsonFiles st) (loadJobFile now).

(** [initialize]: [ensureStoreDir] makes the directory, which adds no file. *)
Definition initialize (now : Z) : Eff t unit :=
  let* st := get_state in
  if persistToFile (options st) then loadPersistedJobs now else ret tt.

(** [has(jobId)] *)
Definition has (jobId : string) (st : t) : bool :=
  bool_decide (is_Some (jobs st !! jobId)).

(** [count(status?)] *)
Definition count (status : option JobStatus) (st : t) : nat :=
  match status with
  | None => size (jobs st)
  | Some s => size (filter (fun kv => job_status kv.2 = s) (jobs st))
  end.

(** The test of [cleanup] on a job: it is terminal and
    [now - (completedAt ?? createdAt) > maxJobAge]. *)
Definition expired (now maxAge : Z) (job : Job) : bool :=
  isTerminal (job_status job)
  && bool_decide (now - nullish (job_completedAt job) (job_createdAt job) > maxAge).

(** [cleanup()]: the ids are collected first and deleted one by one; the
    result does not depend on the order in which the map is walked. *)
Definition cleanup (now : Z) : Eff t Z :=
  let* st := get_state in
  let toDelete :=
    (map_to_list (filter (fun kv => expired now (maxJobAge (options st)) kv.2 = true)
                         (jobs st))).*1 in
  forEach toDelete delete ;;;
  ret (Z.of_nat (length toDelete)).

(** A new process over the same disk: [new JobStore(options)] starts with an
    empty map. *)
Definition restart (st : t) : t := mk ∅ (options st) (disk st).

(** A disk as the store leaves it: a path names one file, and a job file
    lies where [getJobFilePath] puts the id that it holds. *)
Definition storeWritten (st : t) : Prop :=
  NoDup (disk st).*1 /\
  forall path s, (path, JobFile s) ∈ disk st -> path = getJobFilePath st (ser_id s).

(** The three updates of a stored job, for sequences of them. *)
Inductive Update : Type :=
  | SetStatus (now : Z) (status : JobStatus) (error : option string)
  | SetProgress (now : Z) (progress : PartialJobProgress)
  | SetResult (result : JobResult).

Definition applyUpdate (jobId : string) (u : Update) : Eff t unit :=
  match u with
  | SetStatus now status error => updateStatus now jobId status error
  | SetProgress now progress => updateProgress now jobId progress
  | SetResult result => updateResult jobId result
  end.

(** What the three updates keep of a job: its identity, and the fields that
    are written once. *)
Definition evolves (job job' : Job) : Prop :=
  job_id job' = job_id job /\
  job_type job' = job_type job /\
  job_createdAt job' = job_createdAt job /\
  job_options job' = job_options job /\
  job_iterations job' = job_iterations job /\
  (forall t, job_startedAt job = Some t -> job_startedAt job' = Some t) /\
  (is_Some (job_completedAt job) -> is_Some (job_completedAt job')) /\
  (is_Some (job_error job) -> is_Some (job_error job')) /\
  (is_Some (job_result job) -> is_Some (job_result job')) /\
  (is_Some (job_progress job) -> is_Some (job_progress job')).

(** The job id a file of the directory declares, when it parses. *)
Definition fileId (file : string * FileContent) : option string :=
  match file.2 with
  | JobFile s => Some (ser_id s)
  | Malformed | Undated => None
  end.

(** Every entry of [jobs] is filed under its own id: all writes are
    [this.jobs.set(job.id, job)]. *)
Definition keyed (st : t) : Prop :=
  forall k j, jobs st !! k = Some j -> job_id j = k.

End JobStore.


Definition set_lastUpdate (t : Z) (p : JobProgress) : JobProgress :=
  mkJobProgress (currentIteration p) (totalIterations p) (currentTaskId p)
                (tasksCompleted p) (tasksTotal p) t (message p).

(** ** The files of a loop job: the backlog and the progress log *)

Module Fs.

Inductive Data : Type :=
  | PrdFile (spec : PRDSpec)                   (* a JSON document of a PRDSpec *)
  | ProgressLog (entries : list ProgressEntry) (* header and entry blocks *)
  | Garbled.                                   (* anything else *)

(** The file operations performed, oldest first. *)
Inductive Event : Type :=
  | ReadFile (path : string)
  | WriteFile (path : string) (d : Data)
  | AppendFile (path : string) (e : ProgressEntry).

Record t : Type := mk {
  files : gmap string Data;
  trace : list Event
}.

Definition empty : t := mk ∅ [].

Definition readFile (path : string) : Eff t Data :=
  fun st =>
    let st' := mk (files st) (trace st ++ [ReadFile path]) in
    match files st !! path with
    | Some d => (Return d, st')
    | None => (Throw (FileNotReadable path), st')
    end.

Definition writeFile (path : string) (d : Data) : Eff t unit :=
  modify (fun st => mk (<[path := d]> (files st)) (trace st ++ [WriteFile path d])).

(** Appending an entry block to a progress log keeps it a progress log; to a
    file that does not exist it creates one; to any other file it leaves text
    that is neither. *)
Definition appendFile (path : string) (e : ProgressEntry) : Eff t unit :=
  modify (fun st =>
    let d := match files st !! path with
             | None => ProgressLog [e]
             | Some (ProgressLog es) => ProgressLog (es ++ [e])
             | Some _ => Garbled
             end in
    mk (<[path := d]> (files st)) (trace st ++ [AppendFile path e])).

End Fs.

(** ** src/ralph/prd.ts *)

Module PRD.

Definition getUserStories (spec : PRDSpec) : list UserStory := prd_userStories spec.

(** [Array.prototype.sort(compare)]: a stable sort; [compare a b < 0] puts
    [a] first, and elements that compare equal keep their order. *)
Fixpoint sort_insert {A} (compare : A -> A -> Z) (x : A) (l : list A) : list A :=
  match l with
  | [] => [x]
  | y :: l' => if bool_decide (compare x y <= 0) then x :: y :: l'
               else y :: sort_insert compare x l'
  end.
Definition sort {A} (compare : A -> A -> Z) (l : list A) : list A :=
  foldr (sort_insert compare) [] l.

Definition getNextStory (spec : PRDSpec) : option UserStory :=
  let incomplete := filter (fun s => us_passes s = false) (prd_userStories spec) in
  if decide (length incomplete = 0%nat) then None
  else head (sort (fun a b => us_priority a - us_priority b) incomplete).

(** The same selection as a function of the backlog. *)
Definition select (stories : list UserStory) : option UserStory :=
  head (sort (fun a b => us_priority a - us_priority b)
             (filter (fun s => us_passes s = false) stories)).

(** [n] calls of [getNextStory()] in a row on a PRD object, with what each
    returned. A call leaves [this.spec] as it was: [filter] copies the array
    before [sort] reorders the copy. *)
Definition call_getNextStory : Eff PRDSpec (option UserStory) :=
  fun spec => (Return (getNextStory spec), spec).
Fixpoint repeat_getNextStory (n : nat) : Eff PRDSpec (list (option UserStory)) :=
  match n with
  | O => ret []
  | S n' =>
      let* story := call_getNextStory in
      let* rest := repeat_getNextStory n' in
      ret (story :: rest)
  end.

(** [Partial<UserStory>] and [Object.assign(story, updates)] *)
Record PartialUserStory : Type := mkPartialUserStory {
  pu_id : option string;
  pu_title : option string;
  pu_description : option string;
  pu_acceptanceCriteria : option (list string);
  pu_priority : option Z;
  pu_estimatedComplexity : option Z;
  pu_passes : option bool
}.

Definition assign (story : UserStory) (u : PartialUserStory) : UserStory :=
  mkUserStory (nullish (pu_id u) (us_id story))
              (nullish (pu_title u) (us_title story))
              (nullish (pu_description u) (us_description story))
              (nullish (pu_acceptanceCriteria u) (us_acceptanceCriteria story))
              (nullish (pu_priority u) (us_priority story))
              (nullish (pu_estimatedComplexity u) (us_estimatedComplexity story))
              (nullish (pu_passes u) (us_passes story)).

(** [find] takes the first story with that id. *)
Fixpoint updateFirst (id : string) (u : PartialUserStory)
    (l : list UserStory) : list UserStory :=
  match l with
  | [] => []
  | s :: l' => if decide (us_id s = id) then assign s u :: l'
               else s :: updateFirst id u l'
  end.

Definition updateStory (id : string) (u : PartialUserStory) (spec : PRDSpec) : PRDSpec :=
  mkPRDSpec (prd_project spec) (prd_branchName spec) (prd_description spec)
            (updateFirst id u (prd_userStories spec)).

Definition isComplete (spec : PRDSpec) : bool :=
  forallb us_passes (prd_userStories spec).

(** [getUserStories().filter(s => s.passes).length] *)
Definition completedCount (spec : PRDSpec) : Z :=
  Z.of_nat (length (filter (fun s => us_passes s = true) (prd_userStories spec))).
Definition totalCount (spec : PRDSpec) : Z :=
  Z.of_nat (length (prd_userStories spec)).

Definition load (path : string) : Eff Fs.t PRDSpec :=
  let* d := Fs.readFile path in
  match d with
  | Fs.PrdFile spec => ret spec
  | _ => throw (FileNotReadable path)
  end.

Definition save (path : string) (spec : PRDSpec) : Eff Fs.t unit :=
  Fs.writeFile path (Fs.PrdFile spec).

End PRD.

(** ** src/ralph/progress.ts *)

Module ProgressTracker.

Definition initialize (path : string) : Eff Fs.t unit :=
  Fs.writeFile path (Fs.ProgressLog []).

Definition append (path : string) (entry : ProgressEntry) : Eff Fs.t unit :=
  Fs.appendFile path entry.

End ProgressTracker.

(** ** The state shared by the job manager and its background executions *)

Record World : Type := mkWorld {
  fs : Fs.t;                 (* backlog and progress-log files *)
  store : JobStore.t;        (* the JobStore of the manager *)
  tokens : list bool         (* the CancellationToken objects: their [cancelled] flags *)
}.

Definition set_fs (f : Fs.t) (w : World) : World := mkWorld f (store w) (tokens w).
Definition set_store (st : JobStore.t) (w : World) : World := mkWorld (fs w) st (tokens w).
Definition set_tokens (t : list bool) (w : World) : World := mkWorld (fs w) (store w) t.

Definition onFs {A} (c : Eff Fs.t A) : Eff World A := zoom fs set_fs c.
Definition onStore {A} (c : Eff JobStore.t A) : Eff World A := zoom store set_store c.

(** [class CancellationToken] of src/types.ts; no callback is ever registered
    with [onCancel] in the code modelled here. *)
Module CancellationToken.

Definition create : Eff World TokenRef :=
  fun w => (Return (length (tokens w)), set_tokens (tokens w ++ [false]) w).

Definition cancel (r : TokenRef) : Eff World unit :=
  modify (fun w => set_tokens (<[r := true]> (tokens w)) w).

Definition isCancelled (r : TokenRef) (w : World) : bool :=
  default false (tokens w !! r).

End CancellationToken.

(** ** src/executors/loop.ts *)

Module LoopExecutor.

(** The local variables of [execute]. *)
Record Locals : Type := mkLocals {
  prd : PRDSpec;
  progressPath : option string;
  iteration : Z;
  iterations : list IterationResult
}.

Definition set_iteration (i : Z) (l : Locals) : Locals :=
  mkLocals (prd l) (progressPath l) i (iterations l).
Definition push_iteration (r : IterationResult) (l : Locals) : Locals :=
  mkLocals (prd l) (progressPath l) (iteration l) (iterations l ++ [r]).

Definition State : Type := Locals * World.

Definition onLocals (f : Locals -> Locals) : Eff State unit :=
  modify (fun s : State => (f s.1, s.2)).
Definition onWorld {A} (c : Eff World A) : Eff State A :=
  zoom (fun s : State => s.2) (fun w (s : State) => (s.1, w)) c.

(** How the body of the [while] loop ends. *)
Inductive Control : Type := Continue | Break.

(** Where [execute] stands when it gives up control. *)
Inductive Step : Type :=
  | AwaitWorker (story : UserStory)   (* at [await this.singleShotExecutor.execute] *)
  | Done (r : LoopResult).            (* returned *)

Section Execute.

Variable options : ExecuteLoopOptions.
(** [options.onIteration], by its effect; it is not awaited. *)
Variable onIteration : option (IterationResult -> World -> World).

(** [options.maxIterations || 100] *)
Definition maxIterations : Z :=
  match lo_maxIterations options with
  | Some n => if decide (n = 0) then 100 else n
  | None => 100
  end.

Definition finalState (spec : PRDSpec) : TaskState :=
  mkTaskState (nullish (lo_mode options) mode_code)
              (PRD.totalCount spec) (PRD.completedCount spec)
              (PRD.getUserStories spec).

(** [return] of the branch [if (!story)] *)
Definition allCompleted (l : Locals) : LoopResult :=
  mkLoopResult true true (iterations l) (finalState (prd l)).

(** [return] after the loop *)
Definition notCompleted (l : Locals) : LoopResult :=
  mkLoopResult false false (iterations l) (finalState (prd l)).

(** [return] of the [catch] block *)
Definition errored (its : list IterationResult) : LoopResult :=
  mkLoopResult false false its
    (mkTaskState (nullish (lo_mode options) mode_code) 0 0 []).

(** The [while] condition, [iteration++] and [getNextStory], up to the call
    of the worker. *)
Definition loopHead (s : State) : Step * State :=
  if bool_decide (iteration s.1 < maxIterations) then
    let l := set_iteration (iteration s.1 + 1) s.1 in
    match PRD.getNextStory (prd l) with
    | None => (Done (allCompleted l), (l, s.2))
    | Some story => (AwaitWorker story, (l, s.2))
    end
  else (Done (notCompleted s.1), s).

(** [const iterResult: IterationResult = { ... }] *)
Definition iterResult (l : Locals) (story : UserStory)
    (result : ExecuteResult StoryData) : IterationResult :=
  mkIterationResult (iteration l) (us_id story) (er_success result) []
                    (er_duration result).

(** [if (options.onIteration) { options.onIteration(iterResult); }] *)
Definition callHook (it : IterationResult) (w : World) : World :=
  match onIteration with
  | Some hook => hook it w
  | None => w
  end.

(** The rest of the loop body, from "Record iteration" to "Check
    cancellation". [prd.markStoryComplete(story.id)] calls a method that
    [class PRD] does not have: the call throws a [TypeError], inside the [try]
    of [execute]. *)
Definition iterationBody (story : UserStory)
    (result : ExecuteResult StoryData) : Eff State Control :=
  let* s := get_state in
  let iterResult := iterResult s.1 story result in
  onLocals (push_iteration iterResult) ;;;
  onWorld (modify (callHook iterResult)) ;;;
  match (if er_success result then er_data result else None) with
  | Some data =>
      (if sd_passes data
       then throw (TypeError "prd.markStoryComplete is not a function")
       else ret tt) ;;;
      let* s := get_state in
      match progressPath s.1 with
      | Some path =>
          onWorld (onFs (ProgressTracker.append path
             (mkProgressEntry (us_id story) (sd_summary data)
                (sd_filesChanged data) (nullish (sd_learnings data) []))))
      | None => ret tt
      end ;;;
      onWorld (onFs (PRD.save (lo_taskFile options) (prd s.1)))
  | None =>
      if decide (lo_errorStrategy options = Some fail_fast) then
        let* s := get_state in
        throw (TaskIncompleteError (PRD.completedCount (prd s.1))
                                   (PRD.totalCount (prd s.1)))
      else ret tt
  end ;;;
  let* s := get_state in
  match lo_cancelToken options with
  | Some token =>
      if CancellationToken.isCancelled token s.2 then ret Break else ret Continue
  | None => ret Continue
  end.

(** The loop body after the worker returned, inside the [try] of
    [execute]: [Some r] when [execute] returns [r], [None] when the loop
    goes round again. *)
Definition afterWorker (story : UserStory) (result : ExecuteResult StoryData)
    (s : State) : option LoopResult * State :=
  match iterationBody story result s with
  | (Return Continue, s') => (None, s')
  | (Return Break, s') => (Some (notCompleted s'.1), s')
  | (Throw _, s') => (Some (errored (iterations s'.1)), s')
  end.

(** [if (options.progressFile)]: an empty path counts as none. *)
Definition configuredProgressFile : option string :=
  match lo_progressFile options with
  | Some path => if decide (path = "") then None else Some path
  | None => None
  end.

(** The start of [execute]: load the PRD, initialize the progress log. *)
Definition begin (w : World) : option Locals * World :=
  match onFs (PRD.load (lo_taskFile options)) w with
  | (Throw _, w') => (None, w')
  | (Return spec, w') =>
      match configuredProgressFile with
      | Some path =>
          (Some (mkLocals spec (Some path) 0 []),
           (onFs (ProgressTracker.initialize path) w').2)
      | None => (Some (mkLocals spec None 0 []), w')
      end
  end.

(** The worker: what [singleShotExecutor.execute] returns at an iteration
    for a story, and what happened to the world while it ran. *)
Variable worker : Z -> UserStory -> World -> ExecuteResult StoryData * World.

(** The [while] loop; [fuel] is the number of iterations left. *)
Fixpoint loop (fuel : nat) (s : State) : LoopResult * State :=
  match fuel with
  | O => (notCompleted s.1, s)
  | S fuel' =>
      match loopHead s with
      | (Done r, s') => (r, s')
      | (AwaitWorker story, s') =>
          let '(result, w') := worker (iteration s'.1) story s'.2 in
          match afterWorker story result (s'.1, w') with
          | (Some r, s'') => (r, s'')
          | (None, s'') => loop fuel' s''
          end
      end
  end.

Definition execute (w : World) : LoopResult * World :=
  match begin w with
  | (None, w') => (errored [], w')
  | (Some l, w') =>
      let '(r, s) := loop (Z.to_nat maxIterations) (l, w') in (r, s.2)
  end.

End Execute.

(** The iteration history counts from one: entry [i] has number [i + 1]. *)
Definition numbered (its : list IterationResult) : Prop :=
  forall (i : nat) it, its !! i = Some it -> ir_iteration it = Z.of_nat i + 1.

(** The options with another [errorStrategy]. *)
Definition withErrorStrategy (e : option ErrorStrategyMode) (o : ExecuteLoopOptions)
    : ExecuteLoopOptions :=
  mkExecuteLoopOptions (lo_taskFile o) (lo_maxIterations o) (lo_mode o)
    (lo_progressFile o) e (lo_cancelToken o) (lo_model o).

End LoopExecutor.

(** ** src/jobs/job-manager.ts

    The manager's methods are [async]. The embedding runs each call of the
    public API, and each stretch of a background execution between two
    suspensions on the worker or on the first [await], as one step: the caller
    awaits every call, no event handler is installed ([events = {}]) and the
    options carry no callback of the caller. *)

Module JobManager.

(** A background execution ([executeSingleShot] / [executeLoop]) that has
    given up control, by the [await] it is suspended at. *)
Inductive Task : Type :=
  | SingleShotStarted (jobId : string) (o : ExecuteOptions)
      (* at [await this.store.updateStatus(job.id, 'running')] *)
  | SingleShotAwaiting (jobId : string) (o : ExecuteOptions)
      (* at [await this.singleShotExecutor.execute(job.options)] *)
  | LoopStarted (jobId : string) (o : ExecuteLoopOptions)
      (* at [await this.store.updateStatus(job.id, 'running')] *)
  | LoopAwaiting (jobId : string) (o : ExecuteLoopOptions)
      (l : LoopExecutor.Locals) (story : UserStory).
      (* inside [loopExecutor.execute], at the call of the worker *)

(** What wakes a suspended execution up. *)
Inductive Input : Type :=
  | Wake
  | SingleShotDone (r : ExecuteResult string)
  | StoryDone (r : ExecuteResult StoryData).

Record t : Type := mk {
  world : World;
  cancellationTokens : gmap string TokenRef;
  runningJobs : gmap string nat;        (* job id -> execution promise *)
  executions : gmap nat Task;           (* the promises not yet settled *)
  nextExecution : nat;
  maxConcurrentJobs : option Z;         (* [None] is [Infinity] *)
  initialized : bool
}.

Definition set_world (w : World) (m : t) : t :=
  mk w (cancellationTokens m) (runningJobs m) (executions m) (nextExecution m)
     (maxConcurrentJobs m) (initialized m).
Definition set_cancellationTokens (c : gmap string TokenRef) (m : t) : t :=
  mk (world m) c (runningJobs m) (executions m) (nextExecution m)
     (maxConcurrentJobs m) (initialized m).
Definition set_runningJobs (r : gmap string nat) (m : t) : t :=
  mk (world m) (cancellationTokens m) r (executions m) (nextExecution m)
     (maxConcurrentJobs m) (initialized m).
Definition set_executions (e : gmap nat Task) (n : nat) (m : t) : t :=
  mk (world m) (cancellationTokens m) (runningJobs m) e n
     (maxConcurrentJobs m) (initialized m).
Definition set_initialized (b : bool) (m : t) : t :=
  mk (world m) (cancellationTokens m) (runningJobs m) (executions m)
     (nextExecution m) (maxConcurrentJobs m) b.

(** [constructor]: [maxConcurrentJobs ?? Infinity] *)
Definition create (st : JobStore.t) (files : Fs.t) (limit : option Z) : t :=
  mk (mkWorld files st []) ∅ ∅ ∅ 0%nat limit false.

Definition onWorld {A} (c : Eff World A) : Eff t A := zoom world set_world c.
Definition onJobStore {A} (c : Eff JobStore.t A) : Eff t A := onWorld (onStore c).

Definition initialize (now : Z) : Eff t unit :=
  let* m := get_state in
  if initialized m then ret tt
  else onJobStore (JobStore.initialize now) ;;; modify (set_initialized true).

Definition ensureInitialized (now : Z) : Eff t unit :=
  let* m := get_state in
  if negb (initialized m) then initialize now else ret tt.

Definition checkConcurrencyLimit : Eff t unit :=
  let* m := get_state in
  match maxConcurrentJobs m with
  | Some limit =>
      if bool_decide (Z.of_nat (size (runningJobs m)) >= limit)
      then throw (ConcurrencyLimitReached limit)
      else ret tt
  | None => ret tt
  end.

(** [error instanceof Error ? error.message : String(error)] *)
Definition errorMessage (e : JsError) : string :=
  match e with
  | JobNotFound jobId => "Job not found: " +:+ jobId
  | ConcurrencyLimitReached limit =>
      "Maximum concurrent jobs limit reached (" +:+ pretty limit +:+ "). "
      +:+ "Wait for some jobs to complete or increase the limit."
  | CannotDeleteRunning => "Cannot delete a running job. Cancel it first."
  | TaskIncompleteError c n =>
      "Only " +:+ pretty c +:+ "/" +:+ pretty n +:+ " tasks completed"
  | FileNotReadable path => "ENOENT: no such file or directory, open '" +:+ path +:+ "'"
  | TypeError what => what
  end.

(** *** The job objects that [startSingleShot] and [startLoop] create *)

Definition newSingleShotJob (now : Z) (jobId : string) (o : ExecuteOptions) : Job :=
  mkJob jobId SingleShot Pending now None None None
        (Some (mkJobProgress 0 None None 0 1 now (Some "Job created")))
        (SingleShotOptions o) None None.

Definition withCancelToken (o : ExecuteLoopOptions) (token : TokenRef)
    : ExecuteLoopOptions :=
  mkExecuteLoopOptions (lo_taskFile o) (lo_maxIterations o) (lo_mode o)
    (lo_progressFile o) (lo_errorStrategy o) (Some token) (lo_model o).

Definition newLoopJob (now : Z) (jobId : string) (o : ExecuteLoopOptions) : Job :=
  mkJob jobId Loop Pending now None None None
        (Some (mkJobProgress 0 None None 0 0 now (Some "Job created")))
        (LoopOptions o) None (Some []).

(** *** executeSingleShot

    A segment of a background execution is what it does between two
    suspensions. It returns the task the execution is suspended as next, or
    [None] when the function has returned; it throws when the [catch] block
    itself throws, which rejects the promise. *)

Definition guarded (segment : Eff World (option Task))
    (handler : JsError -> Eff World unit) : Eff World (option Task) :=
  try_catch segment (fun e => handler e ;;; ret None).

(** The [catch] block of [executeSingleShot]. *)
Definition singleShotCatch (now : Z) (jobId : string) (e : JsError)
    : Eff JobStore.t unit :=
  let errorMessage := errorMessage e in
  JobStore.updateStatus now jobId Failed (Some errorMessage) ;;;
  JobStore.updateProgress now jobId
    (mkPartialJobProgress None None None None None None
       (Some ("Error: " +:+ errorMessage))).

Definition singleShotStart (now : Z) (jobId : string) (o : ExecuteOptions)
    : Eff World (option Task) :=
  guarded
    (onStore (JobStore.updateStatus now jobId Running None) ;;;
     ret (Some (SingleShotStarted jobId o)))
    (fun e => onStore (singleShotCatch now jobId e)).

Definition singleShotRun (now : Z) (jobId : string) (o : ExecuteOptions)
    : Eff World (option Task) :=
  guarded
    (onStore (JobStore.updateProgress now jobId
       (mkPartialJobProgress None None None None None None
          (Some "Executing task..."))) ;;;
     ret (Some (SingleShotAwaiting jobId o)))
    (fun e => onStore (singleShotCatch now jobId e)).

(** [executeSingleShot] after the worker returned [result]. *)
Definition singleShotFinish (now : Z) (jobId : string)
    (result : ExecuteResult string) : Eff World (option Task) :=
  guarded
    (onStore
       (JobStore.updateResult jobId (SingleShotResult result) ;;;
        JobStore.updateProgress now jobId
          (mkPartialJobProgress None None None (Some 1) None None
             (Some (if er_success result then "Task completed" else "Task failed"))) ;;;
        JobStore.updateStatus now jobId
          (if er_success result then Completed else Failed) None) ;;;
     ret None)
    (fun e => onStore (singleShotCatch now jobId e)).

(** *** executeLoop *)

(** The [onIteration] of [wrappedOptions]. It is an [async] function that the
    loop does not await: an exception inside it ends it and reaches nobody. *)
Definition onIteration (now : Z) (jobId : string) (it : IterationResult)
    : Eff JobStore.t unit :=
  let* currentJob := JobStore.get jobId in
  match currentJob with
  | Some job =>
      match job_iterations job with
      | Some its => JobStore.save (set_iterations (Some (its ++ [it])) job)
      | None => throw (TypeError "Cannot read properties of undefined (reading 'push')")
      end
  | None => ret tt
  end ;;;
  let completed :=
    nullish (tasksCompleted <$> (currentJob ≫= job_progress)) 0 in
  JobStore.updateProgress now jobId
    (mkPartialJobProgress
       (Some (ir_iteration it)) None (Some (ir_taskId it))
       (Some (if ir_success it then completed + 1 else completed))
       None None
       (Some ("Completed iteration " +:+ pretty (ir_iteration it) +:+ ": "
              +:+ ir_taskId it))).

Definition onIterationHook (now : Z) (jobId : string) (it : IterationResult)
    (w : World) : World :=
  (onStore (onIteration now jobId it) w).2.

(** The [catch] block of [executeLoop]. *)
Definition loopCatch (now : Z) (jobId : string) (e : JsError) : Eff JobStore.t unit :=
  let* job := JobStore.get jobId in
  if decide (job_status <$> job = Some Cancelled) then ret tt
  else singleShotCatch now jobId e.

(** [executeLoop] after [loopExecutor.execute] returned [result]. *)
Definition loopFinish (now : Z) (jobId : string) (result : LoopResult)
    : Eff World (option Task) :=
  onStore
    (JobStore.updateResult jobId (LoopJobResult result) ;;;
     JobStore.updateProgress now jobId
       (mkPartialJobProgress None None None
          (Some (ts_tasksCompleted (lr_finalState result)))
          (Some (ts_tasksTotal (lr_finalState result))) None
          (Some (if lr_completed result then "All tasks completed" else "Loop finished"))) ;;;
     let* job := JobStore.get jobId in
     if decide (job_status <$> job = Some Cancelled) then ret tt
     else JobStore.updateStatus now jobId
            (if lr_success result then Completed else Failed) None) ;;;
  ret None.

(** [loopExecutor.execute] from the head of its loop to the next call of the
    worker, or to its end and through the rest of [executeLoop]. *)
Definition loopAdvance (now : Z) (jobId : string) (o : ExecuteLoopOptions)
    (l : LoopExecutor.Locals) : Eff World (option Task) :=
  let* w := get_state in
  match LoopExecutor.loopHead o (l, w) with
  | (LoopExecutor.AwaitWorker story, s) =>
      put_state s.2 ;;; ret (Some (LoopAwaiting jobId o s.1 story))
  | (LoopExecutor.Done r, s) =>
      put_state s.2 ;;; loopFinish now jobId r
  end.

Definition loopStart (now : Z) (jobId : string) (o : ExecuteLoopOptions)
    : Eff World (option Task) :=
  guarded
    (onStore (JobStore.updateStatus now jobId Running None) ;;;
     ret (Some (LoopStarted jobId o)))
    (fun e => onStore (loopCatch now jobId e)).

Definition loopRun (now : Z) (jobId : string) (o : ExecuteLoopOptions)
    : Eff World (option Task) :=
  guarded
    (onStore (JobStore.updateProgress now jobId
       (mkPartialJobProgress None None None None None None
          (Some "Starting loop execution..."))) ;;;
     let* w := get_state in
     match LoopExecutor.begin o w with
     | (None, w') =>
         put_state w' ;;; loopFinish now jobId (LoopExecutor.errored o [])
     | (Some l, w') =>
         put_state w' ;;; loopAdvance now jobId o l
     end)
    (fun e => onStore (loopCatch now jobId e)).

(** [executeLoop] after the worker of an iteration returned [result]. *)
Definition loopResume (now : Z) (jobId : string) (o : ExecuteLoopOptions)
    (l : LoopExecutor.Locals) (story : UserStory)
    (result : ExecuteResult StoryData) : Eff World (option Task) :=
  guarded
    (let* w := get_state in
     match LoopExecutor.afterWorker o (Some (onIterationHook now jobId))
             story result (l, w) with
     | (Some r, s) => put_state s.2 ;;; loopFinish now jobId r
     | (None, s) => put_state s.2 ;;; loopAdvance now jobId o s.1
     end)
    (fun e => onStore (loopCatch now jobId e)).

(** *** Launching and resuming background executions *)

(** [executionPromise.finally(...)] of [startSingleShot] / [startLoop] *)
Definition settle (task : Task) : Eff t unit :=
  match task with
  | SingleShotStarted jobId _ | SingleShotAwaiting jobId _ =>
      modify (fun m => set_runningJobs (delete jobId (runningJobs m)) m)
  | LoopStarted jobId _ | LoopAwaiting jobId _ _ _ =>
      modify (fun m => set_runningJobs (delete jobId (runningJobs m)) m) ;;;
      modify (fun m => set_cancellationTokens (delete jobId (cancellationTokens m)) m)
  end.

(** Record where execution [exec] stands after a segment; a segment that
    throws out of its [catch] block rejects the promise, which settles it. *)
Definition suspend (exec : nat) (task : Task) (segment : Eff World (option Task))
    : Eff t unit :=
  fun m =>
    match onWorld segment m with
    | (Return (Some task'), m') =>
        (Return tt, set_executions (<[exec := task']> (executions m'))
                                   (nextExecution m') m')
    | (_, m') =>
        settle task (set_executions (delete exec (executions m'))
                                    (nextExecution m') m')
    end.

(** Calling the [async] function from [start*]: it runs up to its first
    suspension, then the caller files the promise under the job id. *)
Definition launch (jobId : string) (task : Task) (segment : Eff World (option Task))
    : Eff t unit :=
  fun m =>
    let exec := nextExecution m in
    match onWorld segment m with
    | (o, m1) =>
        let m2 := set_runningJobs (<[jobId := exec]> (runningJobs m1)) m1 in
        match o with
        | Return (Some task') =>
            (Return tt, set_executions (<[exec := task']> (executions m2)) (S exec) m2)
        | _ => settle task (set_executions (executions m2) (S exec) m2)
        end
    end.

Definition startSingleShot (now : Z) (options : ExecuteOptions)
    (startOptions_jobId : option string) (randomUUID : string) : Eff t string :=
  ensureInitialized now ;;;
  checkConcurrencyLimit ;;;
  let jobId := nullish startOptions_jobId randomUUID in
  let job := newSingleShotJob now jobId options in
  onJobStore (JobStore.save job) ;;;
  launch jobId (SingleShotStarted jobId options)
         (singleShotStart now jobId options) ;;;
  ret jobId.

Definition startLoop (now : Z) (options : ExecuteLoopOptions)
    (startOptions_jobId : option string) (randomUUID : string) : Eff t string :=
  ensureInitialized now ;;;
  checkConcurrencyLimit ;;;
  let jobId := nullish startOptions_jobId randomUUID in
  let* cancelToken := onWorld CancellationToken.create in
  modify (fun m => set_cancellationTokens
                     (<[jobId := cancelToken]> (cancellationTokens m)) m) ;;;
  let options := withCancelToken options cancelToken in
  let job := newLoopJob now jobId options in
  onJobStore (JobStore.save job) ;;;
  launch jobId (LoopStarted jobId options) (loopStart now jobId options) ;;;
  ret jobId.

(** A background execution continues: the event loop runs its next segment. *)
Definition resume (now : Z) (exec : nat) (input : Input) : Eff t unit :=
  let* m := get_state in
  match executions m !! exec, input with
  | Some (SingleShotStarted jobId o as task), Wake =>
      suspend exec task (singleShotRun now jobId o)
  | Some (SingleShotAwaiting jobId o as task), SingleShotDone r =>
      suspend exec task (singleShotFinish now jobId r)
  | Some (LoopStarted jobId o as task), Wake =>
      suspend exec task (loopRun now jobId o)
  | Some (LoopAwaiting jobId o l story as task), StoryDone r =>
      suspend exec task (loopResume now jobId o l story r)
  | _, _ => ret tt
  end.

(** *** The polling API *)

Definition poll (now : Z) (jobId : string) : Eff t JobPollResult :=
  ensureInitialized now ;;;
  let* job := onJobStore (JobStore.get jobId) in
  match job with
  | None => throw (JobNotFound jobId)
  | Some job =>
      let finished := isTerminal (job_status job) in
      let duration :=
        if finished then
          match job_completedAt job, job_startedAt job with
          | Some completedAt, Some startedAt => Some (completedAt - startedAt)
          | _, _ => None
          end
        else None in
      ret (mkJobPollResult (job_id job) (job_status job) (job_progress job)
             finished (if finished then job_result job else None)
             (job_error job) duration)
  end.

(** [waitForCompletion]: poll, and sleep while the job is not finished.
    [now k] is the time of poll [k] and [during k] is what the rest of the
    program does to the manager while sleep [k] lasts; [fuel] bounds the
    polls, and [None] says that the call is still waiting. *)
Fixpoint waitForCompletion (fuel : nat) (now : nat -> Z) (during : nat -> t -> t)
    (round : nat) (jobId : string) : Eff t (option JobPollResult) :=
  match fuel with
  | O => ret None
  | S fuel' =>
      let* result := poll (now round) jobId in
      if poll_finished result then ret (Some result)
      else modify (during round) ;;;
           waitForCompletion fuel' now during (S round) jobId
  end.

Definition cancel (now : Z) (jobId : string) : Eff t bool :=
  ensureInitialized now ;;;
  let* job := onJobStore (JobStore.get jobId) in
  match job with
  | None => throw (JobNotFound jobId)
  | Some job =>
      if isTerminal (job_status job) then ret false
      else
        let* m := get_state in
        match cancellationTokens m !! jobId with
        | Some token => onWorld (CancellationToken.cancel token)
        | None => ret tt
        end ;;;
        onJobStore (JobStore.updateStatus now jobId Cancelled None) ;;;
        ret true
  end.

Definition getJob (now : Z) (jobId : string) : Eff t (option Job) :=
  ensureInitialized now ;;;
  onJobStore (JobStore.get jobId).

Definition getRunningCount (m : t) : nat := size (runningJobs m).

(** The manager with another store. *)
Definition withStore (st : JobStore.t) (m : t) : t :=
  set_world (set_store st (world m)) m.

(** The job a background execution belongs to. *)
Definition taskJobId (task : Task) : string :=
  match task with
  | SingleShotStarted jobId _ | SingleShotAwaiting jobId _
  | LoopStarted jobId _ | LoopAwaiting jobId _ _ _ => jobId
  end.

(** Whether [checkConcurrencyLimit] throws. *)
Definition limitReached (m : t) : Prop :=
  exists limit, maxConcurrentJobs m = Some limit /\
                limit <= Z.of_nat (size (runningJobs m)).

(** The fields of the manager that only [start*] and the settling of an
    execution touch. *)
Definition sameBookkeeping (m m' : t) : Prop :=
  runningJobs m' = runningJobs m /\
  cancellationTokens m' = cancellationTokens m /\
  executions m' = executions m /\
  nextExecution m' = nextExecution m /\
  maxConcurrentJobs m' = maxConcurrentJobs m.

(** Computations that leave the manager's own maps alone. *)
Definition keeps {A} (c : Eff t A) : Prop := forall m, sameBookkeeping m (c m).2.

(** The count the spec's admission rule speaks of: the jobs of the store
    whose status is pending or running. *)
Definition nonTerminalJobs (m : t) : nat :=
  size (filter (fun kv => isTerminal (job_status kv.2) = false)
               (JobStore.jobs (store (world m)))).

Definition deleteJob (now : Z) (jobId : string) : Eff t unit :=
  ensureInitialized now ;;;
  let* job := onJobStore (JobStore.get jobId) in
  match job with
  | Some job =>
      if negb (isTerminal (job_status job)) then throw CannotDeleteRunning
      else onJobStore (JobStore.delete jobId)
  | None => onJobStore (JobStore.delete jobId)
  end.

End JobManager.

(** * Concrete jobs, stores and backlogs used by the examples below *)

Module Examples.

(** The working directory of the process and the default store directory. *)
Definition cwd : Path := ["srv"; "app"].
Definition jobsDir : Path := ["srv"; "app"; ".claude-jobs"].

Definition options1 : ExecuteOptions :=
  mkExecuteOptions "Summarise the repository" None None None.

Definition job1 : Job := JobManager.newSingleShotJob 1000 "job-1" options1.

Definition store1 : JobStore.t :=
  (JobStore.save job1 (JobStore.create cwd None None None None)).2.

Definition partial1 : PartialJobProgress :=
  mkPartialJobProgress None None None (Some 1) None None (Some "half way").

(** A manager that admits one job at a time, before and after a start. *)
Definition manager0 : JobManager.t :=
  JobManager.create (JobStore.create cwd None None None None) Fs.empty (Some 1).

Definition manager1 : JobManager.t :=
  (JobManager.startSingleShot 1000 options1 (Some "job-1") "uuid-1" manager0).2.

(** The backlog of the PRD test "should get next story". *)
Definition storyA : UserStory := mkUserStory "US-001" "Story 1" "Test" [] 2 1 false.
Definition storyB : UserStory := mkUserStory "US-002" "Story 2" "Test" [] 1 1 false.
Definition prdAB : PRDSpec := mkPRDSpec "Test" "test" "desc" [storyA; storyB].

(** A disk found at start-up. In the store directory: a job that was
    running, a file that does not parse, a job completed five minutes ago, a
    job completed two days ago, a document that says no more than that it is
    completed, and a text file. In another directory: a copy of a job file. *)
Definition day : Z := 24 * 60 * 60 * 1000.

Definition persisted (jobId : string) (status : JobStatus) (completedAt : option Z)
    : SerializedJob :=
  mkSerializedJob jobId SingleShot status 0 (Some 10) completedAt None None
                  (SingleShotOptions options1) None None.

Definition restartDir : list (Path * JobStore.FileContent) :=
  [ (jobsDir ++ ["job-a.json"], JobStore.JobFile (persisted "job-a" Running None));
    (jobsDir ++ ["broken.json"], JobStore.Malformed);
    (jobsDir ++ ["job-b.json"],
     JobStore.JobFile (persisted "job-b" Completed (Some (3 * day - 300000))));
    (jobsDir ++ ["job-c.json"], JobStore.JobFile (persisted "job-c" Completed (Some day)));
    (jobsDir ++ ["stray.json"], JobStore.Undated);
    (jobsDir ++ ["notes.txt"], JobStore.Malformed);
    (cwd ++ ["backup"; "job-z.json"],
     JobStore.JobFile (persisted "job-z" Running None)) ].

Definition restartStore : JobStore.t :=
  JobStore.mk ∅ (mkJobStoreOptions true jobsDir day 3600000) restartDir.

(** A loop over the backlog [prdAB] with a progress log and the fail-fast
    strategy, standing at the worker call of iteration 1 for story B. *)
Definition loopOptions : ExecuteLoopOptions :=
  mkExecuteLoopOptions "prd.json" None (Some mode_code) (Some "progress.txt")
                       (Some fail_fast) None None.

Definition files0 : Fs.t := Fs.mk {[ "prd.json" := Fs.PrdFile prdAB ]} [].

Definition world0 : World := mkWorld files0 (JobStore.create cwd None None None None) [].

Definition locals1 : LoopExecutor.Locals :=
  LoopExecutor.mkLocals prdAB (Some "progress.txt") 1 [].

(** Worker results: the criteria are met; the work was done but the criteria
    are not met; the worker process failed. *)
Definition passing : ExecuteResult StoryData :=
  mkExecuteResult true "/tmp/task-1" "No logs" 1200 None
    (Some (mkStoryData true "Implemented story 2" ["src/b.ts"] None true)).

Definition notPassing : ExecuteResult StoryData :=
  mkExecuteResult true "/tmp/task-1" "No logs" 1200 None
    (Some (mkStoryData true "Tests still red" ["src/b.ts"] None false)).

Definition failing : ExecuteResult StoryData :=
  mkExecuteResult false "" "" 800
    (Some (ErrorObject "Claude Code exited with code 1")) None.

(** A backlog whose first story is already complete. *)
Definition storyDone : UserStory := mkUserStory "US-000" "Story 0" "Test" [] 1 1 true.
Definition prdHalf : PRDSpec := mkPRDSpec "Test" "test" "desc" [storyDone; storyB].
Definition filesHalf : Fs.t := Fs.mk {[ "prd.json" := Fs.PrdFile prdHalf ]} [].
Definition worldHalf : World := mkWorld filesHalf (JobStore.create cwd None None None None) [].

Definition localsHalf : LoopExecutor.Locals :=
  LoopExecutor.mkLocals prdHalf (Some "progress.txt") 1 [].

(** A worker that fails whenever it is called. *)
Definition alwaysFailing (iteration : Z) (story : UserStory) (w : World)
    : ExecuteResult StoryData * World := (failing, w).

(** Job-1 is started, reaches the worker, and is cancelled while the worker
    is still running. *)
Definition manager1_running : JobManager.t :=
  (JobManager.resume 1001 0%nat JobManager.Wake manager1).2.

Definition manager1_cancelled : JobManager.t :=
  (JobManager.cancel 2000 "job-1" manager1_running).2.

Definition workerOk : ExecuteResult string :=
  mkExecuteResult true "/tmp/task-1" "No logs" 2500 None (Some "{}").

(** The worker of job-1 has returned: its execution has settled. *)
Definition manager1_settled : JobManager.t :=
  (JobManager.resume 3000 0%nat (JobManager.SingleShotDone workerOk)
     manager1_cancelled).2.

Definition options2 : ExecuteOptions :=
  mkExecuteOptions "List the open issues" None None None.

(** A loop job over the backlog [prdAB], started and standing at the worker
    call of its first iteration. *)
Definition loopOptions1 : ExecuteLoopOptions :=
  mkExecuteLoopOptions "prd.json" None (Some mode_code) (Some "progress.txt")
                       None None None.

Definition loopManager0 : JobManager.t :=
  JobManager.create (JobStore.create cwd None None None None) files0 None.

Definition loopManager1 : JobManager.t :=
  (JobManager.resume 1001 0%nat JobManager.Wake
     (JobManager.startLoop 1000 loopOptions1 (Some "loop-1") "uuid-1" loopManager0).2).2.

Definition loopJob1 : Job :=
  set_progress
    (Some (mkJobProgress 0 None None 0 0 1001 (Some "Starting loop execution...")))
    (JobStore.withStatus 1000 Running None
       (JobManager.newLoopJob 1000 "loop-1"
          (JobManager.withCancelToken loopOptions1 0%nat))).

Definition iteration1 : IterationResult :=
  mkIterationResult 1 "US-002" true [] 1200.

(** A store with file persistence on, over an empty directory. *)
Definition persistentStore : JobStore.t :=
  JobStore.create cwd (Some true) None (Some day) None.

Definition runningJob1 : Job := JobStore.withStatus 1050 Running None job1.



(** Jobs whose ids are not plain names. *)
Definition jobOutside : Job := JobManager.newSingleShotJob 1000 "../x" options1.
Definition jobX : Job := JobManager.newSingleShotJob 1000 "x" options1.
Definition jobDotX : Job := JobManager.newSingleShotJob 1500 "./x" options2.

(** Job-1 is cancelled and deleted while its worker is still running. *)
Definition manager1_deleted : JobManager.t :=
  (JobManager.deleteJob 2500 "job-1" manager1_cancelled).2.

(** A backlog with nothing left to do. *)
Definition prdDone : PRDSpec := mkPRDSpec "Test" "test" "desc" [storyDone].
Definition worldDone : World :=
  mkWorld (Fs.mk {[ "prd.json" := Fs.PrdFile prdDone ]} [])
          (JobStore.create cwd None None None None) [].

(** The loop job is cancelled while the worker of its first iteration runs. *)
Definition loopManager1_cancelled : JobManager.t :=
  (JobManager.cancel 1500 "loop-1" loopManager1).2.

(** A loop job started where there is no task file. *)
Definition loopManagerNoFile : JobManager.t :=
  (JobManager.startLoop 1000 loopOptions1 (Some "loop-1") "uuid-1"
     (JobManager.create (JobStore.create cwd None None None None) Fs.empty None)).2.

End Examples.

(** * Properties *)

Ltac eff_unfold :=
  unfold bind, ret, throw, get_state, put_state, modify, try_catch, zoom in *.

(** ** The job store *)

Section StoreFacts.

Import JobStore.

Lemma persistJob_jobs job st : jobs (persistJob job st).2 = jobs st.
Proof. reflexivity. Qed.

Lemma save_returns job st : (save job st).1 = Return tt.
Proof. unfold save. eff_unfold. simpl. by destruct (persistToFile _). Qed.

Lemma save_jobs job st : jobs (save job st).2 = <[job_id job := job]> (jobs st).
Proof. unfold save. eff_unfold. simpl. by destruct (persistToFile _). Qed.

Lemma save_options job st : options (save job st).2 = options st.
Proof. unfold save. eff_unfold. simpl. by destruct (persistToFile _). Qed.

Lemma save_keyed job st : keyed st -> keyed (save job st).2.
Proof.
  intros Hk k j. rewrite save_jobs.
  destruct (decide (job_id job = k)) as [<-|Hne].
  - rewrite lookup_insert_eq. by intros [= <-].
  - rewrite lookup_insert_ne by done. apply Hk.
Qed.

Lemma updateProgress_found now jobId p st job :
  jobs st !! jobId = Some job ->
  updateProgress now jobId p st
  = save (set_progress (Some (mergeProgress now (job_progress job) p)) job) st.
Proof. intros H. unfold updateProgress, require, get. eff_unfold. by rewrite H. Qed.

Lemma updateResult_found jobId r st job :
  jobs st !! jobId = Some job ->
  updateResult jobId r st = save (set_result (Some r) job) st.
Proof. intros H. unfold updateResult, require, get. eff_unfold. by rewrite H. Qed.

Lemma updateStatus_missing now jobId s e st :
  jobs st !! jobId = None ->
  updateStatus now jobId s e st = (Throw (JobNotFound jobId), st).
Proof. intros H. unfold updateStatus, require, get. eff_unfold. by rewrite H. Qed.

Lemma updateProgress_missing now jobId p st :
  jobs st !! jobId = None ->
  updateProgress now jobId p st = (Throw (JobNotFound jobId), st).
Proof. intros H. unfold updateProgress, require, get. eff_unfold. by rewrite H. Qed.

End StoreFacts.

(** C9. Calling [updateProgress(id, p)] twice in a row on a stored job leaves
    the progress that one call leaves, except for [lastUpdate], which is the
    clock reading of each call; a field that [p] does not give keeps the value
    it had, and the numeric fields are 0 when the job had no progress yet. *)
Theorem updateProgress_twice
    (st : JobStore.t) (jobId : string) (job : Job) (p : PartialJobProgress)
    (now1 now2 : Z) :
  JobStore.jobs st !! jobId = Some job ->
  job_id job = jobId ->
  exists st1 st2 once twice,
    JobStore.updateProgress now1 jobId p st = (Return tt, st1) /\
    JobStore.updateProgress now2 jobId p st1 = (Return tt, st2) /\
    JobStore.jobs st1 !! jobId = Some (set_progress (Some once) job) /\
    JobStore.jobs st2 !! jobId = Some (set_progress (Some twice) job) /\
    tasksCompleted twice = tasksCompleted once /\
    tasksTotal twice = tasksTotal once /\
    twice = set_lastUpdate now2 once /\
    lastUpdate once = now1 /\ lastUpdate twice = now2 /\
    (pp_currentIteration p = None ->
       currentIteration once = from_option currentIteration 0 (job_progress job)) /\
    (pp_totalIterations p = None ->
       totalIterations once = job_progress job ≫= totalIterations) /\
    (pp_currentTaskId p = None ->
       currentTaskId once = job_progress job ≫= currentTaskId) /\
    (pp_tasksCompleted p = None ->
       tasksCompleted once = from_option tasksCompleted 0 (job_progress job)) /\
    (pp_tasksTotal p = None ->
       tasksTotal once = from_option tasksTotal 0 (job_progress job)) /\
    (pp_message p = None -> message once = job_progress job ≫= message).
Proof.
  intros Hjob Hid.
  set (once := JobStore.mergeProgress now1 (job_progress job) p).
  set (job1 := set_progress (Some once) job).
  set (twice := JobStore.mergeProgress now2 (Some once) p).
  set (st1 := (JobStore.save job1 st).2).
  assert (H1 : JobStore.jobs st1 !! jobId = Some job1).
  { unfold st1. rewrite save_jobs. subst job1. simpl. rewrite Hid.
    apply lookup_insert_eq. }
  exists st1, (JobStore.save (set_progress (Some twice) job1) st1).2, once, twice.
  split.
  { rewrite (updateProgress_found _ _ _ _ _ Hjob). fold once. fold job1.
    rewrite (surjective_pairing (JobStore.save job1 st)).
    by rewrite save_returns. }
  split.
  { rewrite (updateProgress_found _ _ _ _ _ H1). simpl. fold twice.
    rewrite (surjective_pairing (JobStore.save _ st1)). by rewrite save_returns. }
  split; [exact H1|].
  split.
  { rewrite save_jobs. simpl. rewrite Hid. by rewrite lookup_insert_eq. }
  assert (Heq : twice = set_lastUpdate now2 once).
  { unfold twice, once, set_lastUpdate, JobStore.mergeProgress. simpl.
    destruct p as [ci ti ct tc tt lu ms]; simpl.
    destruct ci, ti, ct, tc, tt, ms; reflexivity. }
  split; [by rewrite Heq|]. split; [by rewrite Heq|].
  split; [exact Heq|]. split; [reflexivity|]. split; [reflexivity|].
  unfold once, JobStore.mergeProgress; simpl.
  repeat split; intros ->; simpl; by destruct (job_progress job).
Qed.

(** C9 at a concrete store: job-1 as [startSingleShot] creates it. *)
Lemma updateProgress_twice_witness :
  exists st1 st2 once twice,
    JobStore.updateProgress 2000 "job-1" Examples.partial1 Examples.store1
      = (Return tt, st1) /\
    JobStore.updateProgress 3000 "job-1" Examples.partial1 st1 = (Return tt, st2) /\
    JobStore.jobs st1 !! "job-1" = Some (set_progress (Some once) Examples.job1) /\
    JobStore.jobs st2 !! "job-1" = Some (set_progress (Some twice) Examples.job1) /\
    tasksCompleted twice = tasksCompleted once /\
    tasksTotal twice = tasksTotal once /\
    lastUpdate once = 2000 /\ lastUpdate twice = 3000.
Proof.
  destruct (updateProgress_twice Examples.store1 "job-1" Examples.job1
              Examples.partial1 2000 3000 eq_refl eq_refl)
    as (st1 & st2 & once & twice & H1 & H2 & H3 & H4 & H5 & H6 & _ & H8 & H9 & _).
  exists st1, st2, once, twice. repeat split; assumption.
Defined.

(** ** Initialization never throws *)

Lemma forEach_loadJobFile_returns now files st :
  (JobStore.forEach files (JobStore.loadJobFile now) st).1 = Return tt.
Proof.
  revert st. induction files as [|f files IH]; intros st; [reflexivity|].
  cbn [JobStore.forEach]. unfold bind at 1.
  destruct (JobStore.loadJobFile now f st) as [o st1] eqn:E.
  assert (o = Return tt) as ->.
  { unfold JobStore.loadJobFile in E. eff_unfold.
    destruct f.2; repeat case_match; by injection E as <- _. }
  apply IH.
Qed.

Lemma store_initialize_returns now st : (JobStore.initialize now st).1 = Return tt.
Proof.
  unfold JobStore.initialize, JobStore.loadPersistedJobs. eff_unfold.
  destruct (persistToFile _); [|reflexivity].
  apply forEach_loadJobFile_returns.
Qed.

Lemma ensureInitialized_returns now m :
  (JobManager.ensureInitialized now m).1 = Return tt.
Proof.
  unfold JobManager.ensureInitialized, JobManager.initialize,
    JobManager.onJobStore, JobManager.onWorld, onStore.
  eff_unfold. destruct (JobManager.initialized m) eqn:E; simpl; [reflexivity|].
  rewrite E.
  pose proof (store_initialize_returns now (store (JobManager.world m))) as H.
  destruct (JobStore.initialize now _) as [o st'].
  simpl in H. by subst o.
Qed.

Lemma ensureInitialized_initialized now m :
  JobManager.initialized m = true -> JobManager.ensureInitialized now m = (Return tt, m).
Proof.
  intros H. unfold JobManager.ensureInitialized. eff_unfold. by rewrite H.
Qed.

(** ** poll *)

(** C6. For a job in the store, [poll] returns; [finished] is true exactly for
    the statuses completed, failed and cancelled; the result is passed on when
    finished and absent otherwise; and a duration is present exactly when the
    job is finished and has both timestamps, and then it is
    [completedAt - startedAt]. *)
Theorem poll_finished_iff_terminal (now : Z) (m : JobManager.t) (jobId : string) (job : Job) :
  let m' := (JobManager.ensureInitialized now m).2 in
  JobStore.jobs (store (JobManager.world m')) !! jobId = Some job ->
  exists r,
    JobManager.poll now jobId m = (Return r, m') /\
    poll_status r = job_status job /\
    (poll_finished r = true <->
       job_status job = Completed \/ job_status job = Failed \/ job_status job = Cancelled) /\
    (poll_finished r = true -> poll_result r = job_result job) /\
    (poll_finished r = false -> poll_result r = None) /\
    (forall d, poll_duration r = Some d <->
       poll_finished r = true /\
       exists completedAt startedAt,
         job_completedAt job = Some completedAt /\
         job_startedAt job = Some startedAt /\
         d = completedAt - startedAt).
Proof.
  intros m' Hjob.
  pose proof (ensureInitialized_returns now m) as Hret.
  unfold JobManager.poll. unfold bind at 1.
  destruct (JobManager.ensureInitialized now m) as [o m1] eqn:E.
  simpl in Hret. subst o. subst m'. simpl in Hjob.
  unfold JobManager.onJobStore, JobManager.onWorld, onStore, JobStore.get.
  eff_unfold. simpl. rewrite Hjob.
  eexists. split.
  { f_equal. destruct m1 as [[? [] ?] ? ? ? ? ? ?]; reflexivity. }
  simpl. split; [reflexivity|].
  split. { destruct (job_status job); simpl; intuition discriminate. }
  split. { by intros ->. }
  split. { by intros ->. }
  intros d. destruct (isTerminal (job_status job)); simpl.
  - destruct (job_completedAt job) as [c|], (job_startedAt job) as [s|]; split;
      try (intros [= <-]; split; [done|]; by exists c, s);
      try (intros [_ (c' & s' & [= <-] & [= <-] & ->)]; done);
      try (intros [=]);
      try (intros [_ (c' & s' & H1 & H2 & _)]; discriminate).
  - split; [intros [=] | intros [[=] _]].
Qed.

(** C6 at the job that [startSingleShot] has just launched: it is running, so
    the poll is not finished and carries neither result nor duration. *)
Lemma poll_finished_iff_terminal_witness :
  exists r,
    JobManager.poll 1500 "job-1" Examples.manager1 = (Return r, Examples.manager1) /\
    poll_status r = Running /\ poll_finished r = false /\ poll_result r = None.
Proof.
  destruct (poll_finished_iff_terminal 1500 Examples.manager1 "job-1"
              (set_startedAt (Some 1000) (set_status Running Examples.job1)) eq_refl)
    as (r & Hpoll & Hstatus & Hfin & _ & Hres & _).
  exists r. split; [exact Hpoll|]. split; [exact Hstatus|].
  assert (Hf : poll_finished r = false).
  { destruct (poll_finished r); [|reflexivity].
    destruct Hfin as [Hfin _]. by destruct (Hfin eq_refl) as [?|[?|?]]. }
  split; [exact Hf|]. exact (Hres Hf).
Defined.

(** ** Selection of the next story *)

Section NextStory.

Import PRD.

Let compare (a b : UserStory) : Z := us_priority a - us_priority b.

Lemma head_sort_insert x l :
  head (sort_insert compare x l)
  = match head l with
    | None => Some x
    | Some y => if bool_decide (compare x y <= 0) then Some x else Some y
    end.
Proof. destruct l as [|y l]; simpl; [done|]. by case_bool_decide. Qed.

Lemma getNextStory_select spec : getNextStory spec = select (prd_userStories spec).
Proof.
  unfold getNextStory, select. fold compare. case_decide as H; [|done].
  apply length_zero_iff_nil in H. by rewrite H.
Qed.

Lemma select_cons x l :
  select (x :: l)
  = if us_passes x then select l
    else match select l with
         | None => Some x
         | Some y => if bool_decide (us_priority x <= us_priority y)
                     then Some x else Some y
         end.
Proof.
  unfold select. rewrite filter_cons. destruct (us_passes x) eqn:E.
  - rewrite decide_False by done. done.
  - rewrite decide_True by done. cbn [sort foldr].
    rewrite head_sort_insert. fold (sort compare).
    destruct (head _) as [y|]; [|done].
    unfold compare. repeat case_bool_decide; (done || lia).
Qed.

Lemma select_least stories :
  match select stories with
  | None => forall s, s ∈ stories -> us_passes s = true
  | Some s =>
      exists i, stories !! i = Some s /\ us_passes s = false /\
        forall j s', stories !! j = Some s' -> us_passes s' = false ->
          us_priority s < us_priority s'
          \/ (us_priority s = us_priority s' /\ (i <= j)%nat)
  end.
Proof.
  induction stories as [|x l IH]; [by intros s Hs; inversion Hs|].
  rewrite select_cons. destruct (us_passes x) eqn:Ex.
  - destruct (select l) as [s|].
    + destruct IH as (i & Hi & Hs & Hmin). exists (S i). split; [done|].
      split; [done|]. intros [|j] s' Hj Hp; simpl in Hj.
      * injection Hj as <-. congruence.
      * destruct (Hmin j s' Hj Hp) as [?|[? ?]]; [by left|right; split; [done|lia]].
    + intros s Hs. apply elem_of_cons in Hs as [->|Hs]; [done|by apply IH].
  - destruct (select l) as [y|].
    + destruct IH as (i & Hi & Hy & Hmin). case_bool_decide as Hle.
      * exists 0%nat. split; [done|]. split; [done|].
        intros [|j] s' Hj Hp; simpl in Hj.
        -- injection Hj as <-. right. split; [done|lia].
        -- destruct (Hmin j s' Hj Hp) as [?|[? ?]].
           ++ left. lia.
           ++ destruct (decide (us_priority x = us_priority s')) as [?|?];
                [right; split; [done|lia] | left; lia].
      * exists (S i). split; [done|]. split; [done|].
        intros [|j] s' Hj Hp; simpl in Hj.
        -- injection Hj as <-. left. lia.
        -- destruct (Hmin j s' Hj Hp) as [?|[? ?]]; [by left|right; split; [done|lia]].
    + exists 0%nat. split; [done|]. split; [done|].
      intros [|j] s' Hj Hp; simpl in Hj.
      * injection Hj as <-. right. split; [done|lia].
      * apply list_elem_of_lookup_2 in Hj. specialize (IH s' Hj). congruence.
Qed.

Lemma repeat_getNextStory_constant n spec :
  repeat_getNextStory n spec = (Return (replicate n (getNextStory spec)), spec).
Proof.
  induction n as [|n IH]; [done|].
  cbn [repeat_getNextStory replicate]. unfold call_getNextStory. eff_unfold.
  by rewrite IH.
Qed.

End NextStory.

(** C7. [getNextStory] returns the incomplete story that is least for
    (priority, position in the backlog), or nothing when every story passes;
    asking again returns the same story and leaves the PRD as it was. On a
    backlog of two incomplete stories A (priority 2) and B (priority 1), every
    call returns B until B is marked complete ([updateStory] with
    [passes: true]), and A from then on. *)
Theorem getNextStory_priority_then_index :
  (forall spec,
     match PRD.getNextStory spec with
     | None => forall s, s ∈ prd_userStories spec -> us_passes s = true
     | Some s =>
         exists i, prd_userStories spec !! i = Some s /\ us_passes s = false /\
           forall j s', prd_userStories spec !! j = Some s' -> us_passes s' = false ->
             us_priority s < us_priority s'
             \/ (us_priority s = us_priority s' /\ (i <= j)%nat)
     end) /\
  (forall n spec,
     PRD.repeat_getNextStory n spec = (Return (replicate n (PRD.getNextStory spec)), spec)) /\
  (forall project branch description a b,
     us_priority a = 2 -> us_priority b = 1 ->
     us_passes a = false -> us_passes b = false ->
     us_id a <> us_id b ->
     let spec := mkPRDSpec project branch description [a; b] in
     PRD.getNextStory spec = Some b /\
     (forall n, PRD.repeat_getNextStory n spec = (Return (replicate n (Some b)), spec)) /\
     let done := PRD.mkPartialUserStory None None None None None None (Some true) in
     forall n, PRD.repeat_getNextStory n (PRD.updateStory (us_id b) done spec)
               = (Return (replicate n (Some a)), PRD.updateStory (us_id b) done spec)).
Proof.
  split; [|split].
  - intros spec. rewrite getNextStory_select. apply select_least.
  - apply repeat_getNextStory_constant.
  - intros project branch description a b Ha Hb Hpa Hpb Hne spec.
    assert (H1 : PRD.getNextStory spec = Some b).
    { rewrite getNextStory_select. simpl. rewrite !select_cons, Hpa, Hpb. simpl.
      rewrite bool_decide_false by lia. done. }
    split; [exact H1|]. split.
    + intros n. by rewrite repeat_getNextStory_constant, H1.
    + intros done n. rewrite repeat_getNextStory_constant. do 3 f_equal.
      rewrite getNextStory_select. unfold spec. simpl.
      rewrite decide_False by done. rewrite decide_True by done.
      rewrite !select_cons. simpl. by rewrite Hpa.
Qed.

(** C7 on the backlog of the PRD test: US-001 has priority 2, US-002 priority 1. *)
Lemma getNextStory_priority_then_index_witness :
  PRD.getNextStory Examples.prdAB = Some Examples.storyB /\
  (forall n, PRD.repeat_getNextStory n Examples.prdAB
             = (Return (replicate n (Some Examples.storyB)), Examples.prdAB)) /\
  let done := PRD.mkPartialUserStory None None None None None None (Some true) in
  forall n, PRD.repeat_getNextStory n (PRD.updateStory "US-002" done Examples.prdAB)
            = (Return (replicate n (Some Examples.storyA)),
               PRD.updateStory "US-002" done Examples.prdAB).
Proof.
  destruct getNextStory_priority_then_index as (_ & _ & H).
  apply (H "Test" "test" "desc" Examples.storyA Examples.storyB);
    [reflexivity | reflexivity | reflexivity | reflexivity | discriminate].
Defined.

(** ** Paths in the store directory *)

Section Paths.

Import JobStore.

Lemma append_empty_r (s : string) : s +:+ "" = s.
Proof.
  induction s as [|c s IH]; [done|].
  change (String c (s +:+ "") = String c s). by rewrite IH.
Qed.

Lemma append_char_assoc cur c s : (cur +:+ String c "") +:+ s = cur +:+ String c s.
Proof.
  induction cur as [|a cur IH]; [done|].
  change (String a ((cur +:+ String c "") +:+ s) = String a (cur +:+ String c s)).
  by rewrite IH.
Qed.

Lemma append_length (s1 s2 : string) :
  String.length (s1 +:+ s2) = (String.length s1 + String.length s2)%nat.
Proof.
  induction s1 as [|c s1 IH]; [done|].
  change (S (String.length (s1 +:+ s2)) = S (String.length s1 + String.length s2)).
  by rewrite IH.
Qed.

(** A string without ['/'] is one segment. *)
Lemma splitFrom_plain cur s : plain s = true -> splitFrom cur s = [cur +:+ s].
Proof.
  revert cur. induction s as [|c s IH]; intros cur Hp; simpl.
  - by rewrite append_empty_r.
  - simpl in Hp. apply andb_true_iff in Hp as [Hc Hs].
    apply andb_true_iff in Hc as [Hslash _].
    destruct (Ascii.eqb c "/"); [done|].
    rewrite IH by done. by rewrite append_char_assoc.
Qed.

Lemma plain_append s1 s2 : plain (s1 +:+ s2) = plain s1 && plain s2.
Proof.
  induction s1 as [|c s1 IH]; [done|].
  change (String c s1 +:+ s2) with (String c (s1 +:+ s2)). simpl.
  by rewrite IH, !andb_assoc.
Qed.

Lemma fileName_plain n : fileName n = true -> plain n = true.
Proof.
  unfold fileName. intros H. by repeat (apply andb_true_iff in H as [H _]).
Qed.

(** The file name of a job whose id is plain. *)
Lemma fileName_json jobId : plain jobId = true -> fileName (jobId +:+ ".json") = true.
Proof.
  intros Hp. unfold fileName. rewrite plain_append, Hp.
  change (plain ".json") with true. cbn [andb].
  assert (Hne : forall s, (String.length s < 5)%nat -> (jobId +:+ ".json" =? s)%string = false).
  { intros s Hlen. apply String.eqb_neq. intros Heq.
    apply (f_equal String.length) in Heq. rewrite append_length in Heq.
    change (String.length ".json") with 5%nat in Heq. lia. }
  rewrite !Hne by (simpl; lia). done.
Qed.

(** Joining a directory and a file name goes one step down. *)
Lemma join_fileName dir n : fileName n = true -> join dir n = dir ++ [n].
Proof.
  intros Hn. unfold join, segments.
  rewrite splitFrom_plain by by apply fileName_plain.
  change ("" +:+ n) with n. cbn [fold_left]. unfold fileName in Hn.
  apply andb_true_iff in Hn as [Hn Hdd]. apply andb_true_iff in Hn as [Hn Hd].
  apply andb_true_iff in Hn as [_ He].
  apply negb_true_iff, String.eqb_neq in Hdd, Hd, He.
  unfold step. rewrite decide_False by (intros [?|?]; done).
  by rewrite decide_False.
Qed.

Lemma getJobFilePath_plain st jobId :
  plain jobId = true ->
  getJobFilePath st jobId = storeDir (options st) ++ [jobId +:+ ".json"].
Proof. intros Hp. apply join_fileName. by apply fileName_json. Qed.

Lemma below_Some dir p q : below dir p = Some q <-> p = dir ++ q.
Proof.
  revert p. induction dir as [|d dir IH]; intros p; simpl.
  - split; [by intros [= ->]|by intros ->].
  - destruct p as [|n p]; [done|].
    destruct (decide (d = n)) as [->|Hne].
    + rewrite IH. split; [by intros ->|by intros [= ->]].
    + split; [done|]. intros [= ? ?]. done.
Qed.

Lemma entry_Some dir f n c :
  entry dir f = Some (n, c) <-> f = (dir ++ [n], c) /\ fileName n = true.
Proof.
  unfold entry. destruct f as [p c']. simpl.
  destruct (below dir p) as [q|] eqn:E.
  - apply below_Some in E as ->.
    destruct q as [|n' [|? ?]].
    + split; [done|]. intros [[= H _] _].
      by apply app_inv_head in H.
    + destruct (fileName n') eqn:Hn'.
      * split; [by intros [= -> ->]|].
        intros [[= H ->] _]. by apply app_inv_head in H as [= ->].
      * split; [done|]. intros [[= H ->] Hn].
        apply app_inv_head in H as [= ->]. congruence.
    + split; [done|]. intros [[= H _] _]. by apply app_inv_head in H.
  - split; [done|]. intros [[= -> ->] _].
    assert (below dir (dir ++ [n]) = Some [n]) as H by by apply below_Some.
    congruence.
Qed.

(** The [.json] files that [loadPersistedJobs] goes through are the files one
    step below the store directory whose name ends in [.json]. *)
Lemma jsonFiles_elem st n c :
  (n, c) ∈ jsonFiles st <->
  (storeDir (options st) ++ [n], c) ∈ disk st /\
  fileName n = true /\ endsWith n ".json" = true.
Proof.
  unfold jsonFiles, readdir. rewrite list_elem_of_filter, list_elem_of_omap. simpl.
  split.
  - intros (Hjson & f & Hf & He). apply entry_Some in He as (-> & Hn). done.
  - intros (Hin & Hn & Hjson). split; [done|].
    exists (storeDir (options st) ++ [n], c). split; [done|]. by apply entry_Some.
Qed.

Lemma jsonFiles_path st f :
  f ∈ jsonFiles st -> join (storeDir (options st)) f.1 = storeDir (options st) ++ [f.1].
Proof.
  destruct f as [n c]. intros (_ & Hn & _)%jsonFiles_elem. by apply join_fileName.
Qed.

End Paths.

(** ** Loading the persisted jobs *)

Section Recovery.

Import JobStore.

Lemma deserializeJob_fields s :
  job_id (deserializeJob s) = ser_id s /\
  job_status (deserializeJob s) = ser_status s /\
  job_createdAt (deserializeJob s) = ser_createdAt s /\
  job_completedAt (deserializeJob s) = ser_completedAt s.
Proof. unfold deserializeJob. by destruct (ser_type s). Qed.

(** [deserializeJob] copies every field; [iterations] is kept for a loop job
    only, and is the empty array when the document has none. *)
Lemma deserializeJob_explicit s :
  deserializeJob s
  = mkJob (ser_id s) (ser_type s) (ser_status s) (ser_createdAt s) (ser_startedAt s)
          (ser_completedAt s) (ser_error s) (ser_progress s) (ser_options s)
          (ser_result s)
          (match ser_type s with
           | Loop => Some (nullish (ser_iterations s) [])
           | SingleShot => None
           end).
Proof. unfold deserializeJob. by destruct (ser_type s). Qed.


(** What one round of the loop of [loadPersistedJobs] does. *)
Lemma loadJobFile_eval now f st :
  loadJobFile now f st
  = (Return tt,
     match f.2 with
     | Malformed => st
     | Undated => set_disk (unlink (join (storeDir (options st)) f.1) (disk st)) st
     | JobFile s =>
         if isTerminal (ser_status s) then
           if bool_decide (now - nullish (ser_completedAt s) (ser_createdAt s)
                           < maxJobAge (options st))
           then set_jobs (<[ser_id s := deserializeJob s]> (jobs st)) st
           else set_disk (unlink (join (storeDir (options st)) f.1) (disk st)) st
         else
           set_jobs
             (<[ser_id s :=
                  if decide (ser_status s = Running)
                  then set_completedAt (Some now)
                         (set_error (Some INTERRUPTED) (set_status Failed (deserializeJob s)))
                  else deserializeJob s]> (jobs st)) st
     end).
Proof.
  unfold loadJobFile. eff_unfold. destruct f.2 as [|s|]; [done| |done].
  destruct (deserializeJob_fields s) as (Hid & Hstatus & Hcreated & Hcompleted).
  rewrite Hstatus, Hcreated, Hcompleted.
  destruct (isTerminal (ser_status s)); cbn [negb].
  - destruct (bool_decide _); [|done]. by rewrite Hid.
  - destruct (decide (ser_status s = Running)).
    + change (job_id (set_completedAt (Some now)
                (set_error (Some INTERRUPTED) (set_status Failed (deserializeJob s)))))
        with (job_id (deserializeJob s)).
      by rewrite Hid.
    + by rewrite Hid.
Qed.

Lemma loadJobFile_options now f st : options (loadJobFile now f st).2 = options st.
Proof. rewrite loadJobFile_eval. cbn [snd]. by repeat case_match. Qed.

Lemma loadJobFile_other now f st k :
  fileId f <> Some k -> jobs (loadJobFile now f st).2 !! k = jobs st !! k.
Proof.
  rewrite loadJobFile_eval. unfold fileId. cbn [snd].
  destruct f.2 as [|s|]; [done| |done]. intros Hk.
  assert (ser_id s <> k) as Hne by congruence.
  repeat case_match; cbn [jobs set_jobs set_disk]; try done;
    by rewrite lookup_insert_ne.
Qed.

Lemma loadJobFile_origin now f st k j :
  jobs (loadJobFile now f st).2 !! k = Some j ->
  jobs st !! k = Some j \/
  exists s, f.2 = JobFile s /\ ser_id s = k /\
            (isTerminal (ser_status s) = true ->
             now - nullish (ser_completedAt s) (ser_createdAt s) < maxJobAge (options st)).
Proof.
  destruct (decide (fileId f = Some k)) as [Hid|Hne].
  - unfold fileId in Hid. rewrite loadJobFile_eval. cbn [snd].
    destruct f.2 as [|s|]; [done| |done]. injection Hid as Hid.
    destruct (isTerminal (ser_status s)) eqn:Hterm.
    + destruct (bool_decide _) eqn:Hage; cbn [jobs set_jobs set_disk].
      * intros _. right. exists s. split; [done|]. split; [done|].
        intros _. by apply bool_decide_eq_true in Hage.
      * intros H. by left.
    + intros _. right. exists s. split; [done|]. split; [done|]. congruence.
  - rewrite loadJobFile_other by done. by left.
Qed.

(** A step of the loop always returns, so the loop goes through every file. *)
Lemma loadJobFile_returns now f st : (loadJobFile now f st).1 = Return tt.
Proof. by rewrite loadJobFile_eval. Qed.

Lemma forEach_cons now f files st :
  forEach (f :: files) (loadJobFile now) st
  = forEach files (loadJobFile now) (loadJobFile now f st).2.
Proof. cbn [forEach]. unfold bind. by rewrite loadJobFile_eval. Qed.

Lemma forEach_app now files1 files2 st :
  forEach (files1 ++ files2) (loadJobFile now) st
  = forEach files2 (loadJobFile now) (forEach files1 (loadJobFile now) st).2.
Proof.
  revert st. induction files1 as [|f files1 IH]; intros st; [done|].
  change ((f :: files1) ++ files2) with (f :: (files1 ++ files2)).
  by rewrite !forEach_cons, IH.
Qed.

Lemma forEach_options now files st :
  options (forEach files (loadJobFile now) st).2 = options st.
Proof.
  revert st. induction files as [|f files IH]; intros st; [done|].
  by rewrite forEach_cons, IH, loadJobFile_options.
Qed.

Lemma forEach_other now files st k :
  (forall f, f ∈ files -> fileId f <> Some k) ->
  jobs (forEach files (loadJobFile now) st).2 !! k = jobs st !! k.
Proof.
  revert st. induction files as [|f files IH]; intros st Hk; [done|].
  rewrite forEach_cons, IH.
  - apply loadJobFile_other, Hk. by left.
  - intros f' Hf'. apply Hk. by right.
Qed.

Lemma forEach_origin now files st k j :
  jobs (forEach files (loadJobFile now) st).2 !! k = Some j ->
  jobs st !! k = Some j \/
  exists name s, (name, JobFile s) ∈ files /\ ser_id s = k /\
    (isTerminal (ser_status s) = true ->
     now - nullish (ser_completedAt s) (ser_createdAt s) < maxJobAge (options st)).
Proof.
  revert st. induction files as [|f files IH]; intros st; [by left|].
  rewrite forEach_cons. intros H.
  destruct (IH _ H) as [H1|(name & s & Hf' & Hid & Hage)].
  - destruct (loadJobFile_origin _ _ _ _ _ H1) as [?|(s & Hf & Hid & Hage)]; [by left|].
    right. exists f.1, s. split; [|done]. rewrite <- Hf. destruct f. left.
  - right. exists name, s. rewrite loadJobFile_options in Hage.
    split; [by right|done].
Qed.

(** What the store holds for the id of a job file after the loop is what the
    round of the last file with that id left. *)
Lemma forEach_last now pre name s post st :
  (forall f, f ∈ post -> fileId f <> Some (ser_id s)) ->
  jobs (forEach (pre ++ (name, JobFile s) :: post) (loadJobFile now) st).2 !! ser_id s
  = jobs (loadJobFile now (name, JobFile s) (forEach pre (loadJobFile now) st).2).2
      !! ser_id s.
Proof. intros Hpost. by rewrite forEach_app, forEach_cons, forEach_other. Qed.

(** The files that a round leaves on the disk. *)
Lemma loadJobFile_disk now f st x :
  x ∈ disk (loadJobFile now f st).2 <->
  x ∈ disk st /\
  (join (storeDir (options st)) f.1 = x.1 ->
   f.2 <> Undated /\
   forall s, f.2 = JobFile s -> isTerminal (ser_status s) = true ->
             now - nullish (ser_completedAt s) (ser_createdAt s) < maxJobAge (options st)).
Proof.
  rewrite loadJobFile_eval. cbn [snd]. destruct f.2 as [|s|].
  - split; [|tauto]. intros H. split; [done|]. by intros _.
  - destruct (isTerminal (ser_status s)) eqn:Hterm.
    + destruct (bool_decide _) eqn:Hage; cbn [disk set_jobs set_disk].
      * apply bool_decide_eq_true in Hage. split; [|tauto].
        intros H. split; [done|]. intros _. split; [done|].
        by intros s' [= <-] _.
      * apply bool_decide_eq_false in Hage.
        unfold unlink. rewrite list_elem_of_filter. split.
        -- intros [Hne Hin]. split; [done|]. intros Heq. by destruct Hne.
        -- intros [Hin Hkept]. split; [|done]. intros Heq. symmetry in Heq.
           destruct (Hkept Heq) as [_ Hs]. by apply Hage, (Hs s).
    + cbn [disk set_jobs]. split; [|tauto].
      intros H. split; [done|]. intros _. split; [done|].
      intros s' [= <-]. congruence.
  - cbn [disk set_disk]. unfold unlink. rewrite list_elem_of_filter.
    split.
    + intros [Hne Hin]. split; [done|]. intros Heq. by destruct Hne.
    + intros [Hin Hkept]. split; [|done]. intros Heq. symmetry in Heq.
      by destruct (Hkept Heq) as [? _].
Qed.

Lemma forEach_disk now files st x :
  x ∈ disk (forEach files (loadJobFile now) st).2 <->
  x ∈ disk st /\
  forall f, f ∈ files -> join (storeDir (options st)) f.1 = x.1 ->
    f.2 <> Undated /\
    forall s, f.2 = JobFile s -> isTerminal (ser_status s) = true ->
              now - nullish (ser_completedAt s) (ser_createdAt s) < maxJobAge (options st).
Proof.
  revert st. induction files as [|f files IH]; intros st.
  - split; [|tauto]. intros H. split; [done|]. intros f Hf. by apply elem_of_nil in Hf.
  - rewrite forEach_cons, IH, loadJobFile_disk, loadJobFile_options. split.
    + intros [[Hin Hf] Hfiles]. split; [done|].
      intros f' [->|Hf']%elem_of_cons; [done|by apply Hfiles].
    + intros [Hin Hall]. split; [split; [done|]|].
      * apply Hall. by left.
      * intros f' Hf'. apply Hall. by right.
Qed.

(** Distinct paths hold distinct files. *)
Lemma NoDup_paths {A B} (d : list (A * B)) p c1 c2 :
  NoDup d.*1 -> (p, c1) ∈ d -> (p, c2) ∈ d -> c1 = c2.
Proof.
  induction d as [|[p' c'] d IH]; intros Hnd H1 H2.
  { by apply elem_of_nil in H1. }
  simpl in Hnd. apply NoDup_cons in Hnd as [Hnotin Hnd].
  apply elem_of_cons in H1 as [E1|H1]; apply elem_of_cons in H2 as [E2|H2].
  - congruence.
  - injection E1 as -> ->. destruct Hnotin. apply list_elem_of_fmap. by exists (p', c2).
  - injection E2 as -> ->. destruct Hnotin. apply list_elem_of_fmap. by exists (p', c1).
  - by apply IH.
Qed.

(** With persistence on, [initialize] is the loop over the [.json] files. *)
Lemma initialize_forEach now st :
  persistToFile (options st) = true ->
  initialize now st = (Return tt, (forEach (jsonFiles st) (loadJobFile now) st).2).
Proof.
  intros Hp. unfold initialize, loadPersistedJobs. eff_unfold. rewrite Hp.
  pose proof (forEach_loadJobFile_returns now (jsonFiles st) st) as Hr.
  destruct (forEach (jsonFiles st) (loadJobFile now) st) as [o st1].
  simpl in *. by subst o.
Qed.

(** The files that [initialize] leaves on the disk. *)
Lemma initialize_disk now st file :
  persistToFile (options st) = true ->
  file ∈ disk (initialize now st).2 <->
  file ∈ disk st /\
  forall name c,
    (name, c) ∈ jsonFiles st -> storeDir (options st) ++ [name] = file.1 ->
    c <> Undated /\
    forall s, c = JobFile s -> isTerminal (ser_status s) = true ->
              now - nullish (ser_completedAt s) (ser_createdAt s) < maxJobAge (options st).
Proof.
  intros Hp. rewrite (initialize_forEach _ _ Hp). cbn [snd]. rewrite forEach_disk.
  split; intros [Hin Hall]; (split; [done|]).
  - intros name c Hf Hpath. apply (Hall (name, c) Hf).
    rewrite <- Hpath. apply (jsonFiles_path st (name, c) Hf).
  - intros [name c] Hf Hpath. apply (Hall name c Hf).
    rewrite <- Hpath. symmetry. apply (jsonFiles_path st (name, c) Hf).
Qed.

(** The file of a document that is discarded is gone. *)
Lemma initialize_unlinks now st name c :
  persistToFile (options st) = true ->
  (name, c) ∈ jsonFiles st ->
  ~ (c <> Undated /\
     forall s, c = JobFile s -> isTerminal (ser_status s) = true ->
               now - nullish (ser_completedAt s) (ser_createdAt s) < maxJobAge (options st)) ->
  (storeDir (options st) ++ [name]) ∉ (disk (initialize now st).2).*1.
Proof.
  intros Hp Hf Hnot Hin.
  apply list_elem_of_fmap in Hin as (file & Hpath & Hfile).
  apply (initialize_disk _ _ _ Hp) in Hfile as [_ Hall]. by apply Hnot, (Hall name c).
Qed.

(** What [initialize] makes of a job file that is the last one with its id. *)
Lemma initialize_loads now st pre name s post :
  persistToFile (options st) = true ->
  jsonFiles st = pre ++ (name, JobFile s) :: post ->
  (forall f, f ∈ post -> fileId f <> Some (ser_id s)) ->
  let st' := (initialize now st).2 in
  let age := now - nullish (ser_completedAt s) (ser_createdAt s) in
  let loaded status completedAt error :=
    mkJob (ser_id s) (ser_type s) status (ser_createdAt s) (ser_startedAt s)
          completedAt error (ser_progress s) (ser_options s) (ser_result s)
          (match ser_type s with
           | Loop => Some (nullish (ser_iterations s) [])
           | SingleShot => None
           end) in
  (ser_status s = Running ->
     jobs st' !! ser_id s = Some (loaded Failed (Some now) (Some INTERRUPTED))) /\
  (ser_status s = Pending ->
     jobs st' !! ser_id s = Some (loaded Pending (ser_completedAt s) (ser_error s))) /\
  (isTerminal (ser_status s) = true -> age < maxJobAge (options st) ->
     jobs st' !! ser_id s
     = Some (loaded (ser_status s) (ser_completedAt s) (ser_error s))) /\
  (isTerminal (ser_status s) = true -> maxJobAge (options st) <= age ->
     ((storeDir (options st) ++ [name]) ∉ (disk st').*1) /\
     ((forall f, f ∈ pre -> fileId f <> Some (ser_id s)) ->
      jobs st' !! ser_id s = jobs st !! ser_id s)).
Proof.
  intros Hp Hfiles Hpost st' age loaded.
  pose proof (forEach_last now pre name s post st Hpost) as Hlast.
  rewrite <- Hfiles in Hlast.
  assert (Hst' : st' = (forEach (jsonFiles st) (loadJobFile now) st).2).
  { unfold st'. by rewrite (initialize_forEach _ _ Hp). }
  rewrite <- Hst', loadJobFile_eval in Hlast. cbn [fst snd] in Hlast.
  rewrite forEach_options, deserializeJob_explicit in Hlast. fold age in Hlast.
  assert (Hf : (name, JobFile s) ∈ jsonFiles st).
  { rewrite Hfiles. apply elem_of_app. right. left. }
  split; [|split; [|split]].
  - intros Hrun. rewrite Hlast, Hrun. cbn [isTerminal].
    rewrite decide_True by done. cbn [jobs set_jobs].
    by rewrite lookup_insert_eq.
  - intros Hpend. rewrite Hlast, Hpend. cbn [isTerminal].
    rewrite decide_False by done. cbn [jobs set_jobs].
    by rewrite lookup_insert_eq.
  - intros Hterm Hage. rewrite Hlast, Hterm, bool_decide_true by done.
    cbn [jobs set_jobs]. by rewrite lookup_insert_eq.
  - intros Hterm Hage. split.
    + apply (initialize_unlinks now st name (JobFile s) Hp Hf). intros [_ Hs].
      specialize (Hs s eq_refl Hterm). fold age in Hs. lia.
    + intros Hpre. rewrite Hlast, Hterm, bool_decide_false by lia.
      cbn [jobs set_disk]. by apply forEach_other.
Qed.

End Recovery.

(** C4. With file persistence on, [initialize] returns normally whatever the
    disk holds. It goes through the files one step below the store directory
    whose name ends in [.json]. For a file that holds a job document, and is
    the last one with that id: a job persisted as running is in the store as
    failed, with the interrupted-by-restart message and [completedAt] set to
    the time of the restart, every other field as in the file; a pending job,
    and a terminal job whose completion time (creation time if it has none) is
    less than [maxJobAge] ago, is in the store with every field as in the
    file; a terminal job that is [maxJobAge] old or older has its file
    removed and adds nothing to the store. Every job of the store afterwards
    was there before or comes from such a file. A file is on the disk
    afterwards exactly when it was there before and lies at the path of no
    [.json] file that was discarded; so a file that does not parse is left
    alone. But a document that only looks like a finished job and has no
    date is not skipped: its file is removed. *)
Theorem initialize_recovers_persisted_jobs (now : Z) (st : JobStore.t) :
  persistToFile (JobStore.options st) = true ->
  let st' := (JobStore.initialize now st).2 in
  let dir := storeDir (JobStore.options st) in
  let maxAge := maxJobAge (JobStore.options st) in
  let age s := now - nullish (ser_completedAt s) (ser_createdAt s) in
  (JobStore.initialize now st).1 = Return tt /\
  (forall name c,
     (name, c) ∈ JobStore.jsonFiles st <->
     (dir ++ [name], c) ∈ JobStore.disk st /\
     JobStore.fileName name = true /\ JobStore.endsWith name ".json" = true) /\
  (forall pre name s post,
     JobStore.jsonFiles st = pre ++ (name, JobStore.JobFile s) :: post ->
     (forall f, f ∈ post -> JobStore.fileId f <> Some (ser_id s)) ->
     let loaded status completedAt error :=
       mkJob (ser_id s) (ser_type s) status (ser_createdAt s) (ser_startedAt s)
             completedAt error (ser_progress s) (ser_options s) (ser_result s)
             (match ser_type s with
              | Loop => Some (nullish (ser_iterations s) [])
              | SingleShot => None
              end) in
     (ser_status s = Running ->
        JobStore.jobs st' !! ser_id s
        = Some (loaded Failed (Some now) (Some JobStore.INTERRUPTED))) /\
     (ser_status s = Pending ->
        JobStore.jobs st' !! ser_id s
        = Some (loaded Pending (ser_completedAt s) (ser_error s))) /\
     (isTerminal (ser_status s) = true -> age s < maxAge ->
        JobStore.jobs st' !! ser_id s
        = Some (loaded (ser_status s) (ser_completedAt s) (ser_error s))) /\
     (isTerminal (ser_status s) = true -> maxAge <= age s ->
        ((dir ++ [name]) ∉ (JobStore.disk st').*1) /\
        ((forall f, f ∈ pre -> JobStore.fileId f <> Some (ser_id s)) ->
         JobStore.jobs st' !! ser_id s = JobStore.jobs st !! ser_id s))) /\
  (forall k j,
     JobStore.jobs st' !! k = Some j ->
     JobStore.jobs st !! k = Some j \/
     exists name s,
       (name, JobStore.JobFile s) ∈ JobStore.jsonFiles st /\ ser_id s = k /\
       (isTerminal (ser_status s) = true -> age s < maxAge)) /\
  (forall file,
     file ∈ JobStore.disk st' <->
     file ∈ JobStore.disk st /\
     forall name c,
       (name, c) ∈ JobStore.jsonFiles st -> dir ++ [name] = file.1 ->
       c <> JobStore.Undated /\
       forall s, c = JobStore.JobFile s -> isTerminal (ser_status s) = true ->
                 age s < maxAge) /\
  (forall name,
     NoDup (JobStore.disk st).*1 ->
     (name, JobStore.Malformed) ∈ JobStore.jsonFiles st ->
     (dir ++ [name], JobStore.Malformed) ∈ JobStore.disk st') /\
  (forall name,
     (name, JobStore.Undated) ∈ JobStore.jsonFiles st ->
     (dir ++ [name]) ∉ (JobStore.disk st').*1).
Proof.
  intros Hpersist st' dir maxAge age.
  split; [apply store_initialize_returns|].
  split; [intros name c; apply jsonFiles_elem|].
  split; [|split; [|split; [|split]]].
  - intros pre name s post Hfiles Hpost.
    apply (initialize_loads now st pre name s post Hpersist Hfiles Hpost).
  - intros k j Hk. unfold st' in Hk.
    rewrite (initialize_forEach _ _ Hpersist) in Hk. cbn [snd] in Hk.
    destruct (forEach_origin _ _ _ _ _ Hk) as [?|(name & s & Hf & Hid & Hage)];
      [by left|].
    right. by exists name, s.
  - intros file. apply (initialize_disk now st file Hpersist).
  - intros name Hnd Hf. apply (initialize_disk now st _ Hpersist).
    pose proof (proj1 (jsonFiles_elem st name _) Hf) as (Hin & _ & _).
    split; [exact Hin|]. intros name' c' Hf' Hpath. simpl in Hpath.
    pose proof (proj1 (jsonFiles_elem st name' _) Hf') as (Hin' & _ & _).
    rewrite Hpath in Hin'.
    rewrite (NoDup_paths _ _ _ _ Hnd Hin' Hin). split; [done|]. by intros s.
  - intros name Hf.
    apply (initialize_unlinks now st name JobStore.Undated Hpersist Hf).
    by intros [? _].
Qed.

Ltac no_such_file :=
  let f := fresh "f" in
  let Hf := fresh "Hf" in
  intros f Hf;
  repeat (apply elem_of_cons in Hf as [->|Hf]);
  [.. | by apply elem_of_nil in Hf];
  vm_compute; congruence.

(** C4 on a disk with a running job, a recent and an old completed job, a
    broken file and a document without an id and without a date in the store
    directory, and a job file in another directory. *)
Lemma initialize_recovers_persisted_jobs_witness :
  let st' := (JobStore.initialize (3 * Examples.day) Examples.restartStore).2 in
  (JobStore.initialize (3 * Examples.day) Examples.restartStore).1 = Return tt /\
  JobStore.jobs st' !! "job-a"
    = Some (mkJob "job-a" SingleShot Failed 0 (Some 10) (Some (3 * Examples.day))
              (Some JobStore.INTERRUPTED) None (SingleShotOptions Examples.options1)
              None None) /\
  JobStore.jobs st' !! "job-b"
    = Some (mkJob "job-b" SingleShot Completed 0 (Some 10)
              (Some (3 * Examples.day - 300000)) None None
              (SingleShotOptions Examples.options1) None None) /\
  JobStore.jobs st' !! "job-c" = None /\
  ((Examples.jobsDir ++ ["job-c.json"]) ∉ (JobStore.disk st').*1) /\
  (Examples.jobsDir ++ ["broken.json"], JobStore.Malformed) ∈ JobStore.disk st' /\
  ((Examples.jobsDir ++ ["stray.json"]) ∉ (JobStore.disk st').*1) /\
  JobStore.jobs st' !! "job-z" = None.
Proof.
  destruct (initialize_recovers_persisted_jobs (3 * Examples.day)
              Examples.restartStore eq_refl)
    as (Hret & _ & Hfiles & Horigin & _ & Hbroken & Hstray).
  destruct (Hfiles [] "job-a.json" (Examples.persisted "job-a" Running None)
              [ ("broken.json", JobStore.Malformed);
                ("job-b.json",
                 JobStore.JobFile
                   (Examples.persisted "job-b" Completed (Some (3 * Examples.day - 300000))));
                ("job-c.json",
                 JobStore.JobFile (Examples.persisted "job-c" Completed (Some Examples.day)));
                ("stray.json", JobStore.Undated) ])
    as (Ha & _); [reflexivity | no_such_file |].
  destruct (Hfiles [ ("job-a.json", JobStore.JobFile (Examples.persisted "job-a" Running None));
                     ("broken.json", JobStore.Malformed) ]
              "job-b.json"
              (Examples.persisted "job-b" Completed (Some (3 * Examples.day - 300000)))
              [ ("job-c.json",
                 JobStore.JobFile (Examples.persisted "job-c" Completed (Some Examples.day)));
                ("stray.json", JobStore.Undated) ])
    as (_ & _ & Hb & _); [reflexivity | no_such_file |].
  destruct (Hfiles [ ("job-a.json", JobStore.JobFile (Examples.persisted "job-a" Running None));
                     ("broken.json", JobStore.Malformed);
                     ("job-b.json",
                      JobStore.JobFile
                        (Examples.persisted "job-b" Completed
                           (Some (3 * Examples.day - 300000)))) ]
              "job-c.json" (Examples.persisted "job-c" Completed (Some Examples.day))
              [ ("stray.json", JobStore.Undated) ])
    as (_ & _ & _ & Hc); [reflexivity | no_such_file |].
  specialize (Ha eq_refl). specialize (Hb eq_refl eq_refl).
  destruct Hc as [Hc1 Hc2]; [reflexivity | vm_compute; discriminate |].
  assert (Hc3 : JobStore.jobs
                  (JobStore.initialize (3 * Examples.day) Examples.restartStore).2
                  !! "job-c" = None).
  { apply Hc2. no_such_file. }
  assert (Hz : JobStore.jobs
                 (JobStore.initialize (3 * Examples.day) Examples.restartStore).2
                 !! "job-z" = None).
  { destruct (JobStore.jobs
                (JobStore.initialize (3 * Examples.day) Examples.restartStore).2
                !! "job-z") as [j|] eqn:E; [exfalso|done].
    destruct (Horigin "job-z" j E) as [H|(name & s & Hin & Hid & _)].
    - change (JobStore.jobs Examples.restartStore) with (∅ : gmap string Job) in H.
      by rewrite lookup_empty in H.
    - change (JobStore.jsonFiles Examples.restartStore)
        with [ ("job-a.json", JobStore.JobFile (Examples.persisted "job-a" Running None));
               ("broken.json", JobStore.Malformed);
               ("job-b.json",
                JobStore.JobFile
                  (Examples.persisted "job-b" Completed (Some (3 * Examples.day - 300000))));
               ("job-c.json",
                JobStore.JobFile (Examples.persisted "job-c" Completed (Some Examples.day)));
               ("stray.json", JobStore.Undated) ] in Hin.
      repeat (apply elem_of_cons in Hin as [Hin|Hin]);
        [.. | by apply elem_of_nil in Hin];
        try discriminate Hin; injection Hin as -> ->; vm_compute in Hid;
        discriminate Hid. }
  split; [exact Hret|]. split; [exact Ha|]. split; [exact Hb|].
  split; [exact Hc3|]. split; [exact Hc1|]. split; [|split; [|exact Hz]].
  - apply (Hbroken "broken.json").
    + apply (bool_decide_unpack _). vm_compute. exact I.
    + apply list_elem_of_In. vm_compute. tauto.
  - apply (Hstray "stray.json"). apply list_elem_of_In. vm_compute. tauto.
Defined.

(** ** One iteration of the loop executor *)

Section Iteration.

Import LoopExecutor.

Variable options : ExecuteLoopOptions.
Variable hook : option (IterationResult -> World -> World).

(** A worker result with [passes: true]: the body throws at the call of
    [markStoryComplete], after the iteration is recorded and the hook has
    run, and before any file is touched. *)
Lemma iterationBody_passes story result data l w :
  er_success result = true -> er_data result = Some data -> sd_passes data = true ->
  iterationBody options hook story result (l, w)
  = (Throw (TypeError "prd.markStoryComplete is not a function"),
     (push_iteration (iterResult l story result) l,
      callHook hook (iterResult l story result) w)).
Proof.
  intros Hs Hd Hp. unfold iterationBody, callHook, iterResult, onLocals, onWorld.
  eff_unfold. simpl. rewrite Hs, Hd. simpl. rewrite Hp. simpl.
  by destruct hook.
Qed.

(** A worker result with data and [passes: false]. *)
Lemma iterationBody_not_passes story result data l w :
  er_success result = true -> er_data result = Some data -> sd_passes data = false ->
  let it := iterResult l story result in
  let entry := mkProgressEntry (us_id story) (sd_summary data)
                 (sd_filesChanged data) (nullish (sd_learnings data) []) in
  let s' := (iterationBody options hook story result (l, w)).2 in
  s'.1 = push_iteration it l /\
  Fs.trace (fs s'.2)
  = Fs.trace (fs (callHook hook it w))
    ++ match progressPath l with
       | Some path => [Fs.AppendFile path entry]
       | None => []
       end
    ++ [Fs.WriteFile (lo_taskFile options) (Fs.PrdFile (prd l))] /\
  Fs.files (fs s'.2) !! lo_taskFile options = Some (Fs.PrdFile (prd l)) /\
  exists c, (iterationBody options hook story result (l, w)).1 = Return c.
Proof.
  intros Hs Hd Hp. destruct l as [spec path i its]. simpl.
  unfold iterationBody, callHook, iterResult.
  unfold onLocals, onWorld, onFs, ProgressTracker.append, Fs.appendFile,
    PRD.save, Fs.writeFile.
  eff_unfold. cbn. rewrite Hs, Hd. cbn. rewrite Hp. cbn.
  destruct path as [path|]; cbn;
    destruct (lo_cancelToken options) as [tok|]; cbn;
    repeat match goal with
           | |- context [CancellationToken.isCancelled ?t ?w] =>
               destruct (CancellationToken.isCancelled t w)
           end; cbn;
    rewrite ?lookup_insert_eq, <- ?app_assoc; eauto.
Qed.

Lemma iterationBody_fail_fast story result l w :
  lo_errorStrategy options = Some fail_fast ->
  (if er_success result then er_data result else None) = None ->
  iterationBody options hook story result (l, w)
  = (Throw (TaskIncompleteError (PRD.completedCount (prd l)) (PRD.totalCount (prd l))),
     (push_iteration (iterResult l story result) l,
      callHook hook (iterResult l story result) w)).
Proof.
  intros Hff Hfail. unfold iterationBody, callHook, iterResult, onLocals, onWorld.
  eff_unfold. simpl. rewrite Hfail, Hff. simpl.
  by destruct hook.
Qed.

End Iteration.

(** C2, where the code departs from it. The worker returns success with
    data. With [passes: true] the loop body calls [prd.markStoryComplete],
    which [class PRD] does not define: the call throws, the story is not
    marked, nothing is appended to the progress log, the backlog is not
    written, and [execute] returns its failure result with the iteration in
    the history and a final state of zero tasks. With [passes: false] the story
    stays unmarked, the progress-log entry is appended when a progress file is
    configured, and the backlog is written to the task file. *)
Theorem successful_iteration_effects
    (options : ExecuteLoopOptions) (hook : option (IterationResult -> World -> World))
    (story : UserStory) (result : ExecuteResult StoryData) (data : StoryData)
    (l : LoopExecutor.Locals) (w : World) :
  er_success result = true -> er_data result = Some data ->
  let it := LoopExecutor.iterResult l story result in
  let entry := mkProgressEntry (us_id story) (sd_summary data)
                 (sd_filesChanged data) (nullish (sd_learnings data) []) in
  let hooked := LoopExecutor.callHook hook it w in
  let out := LoopExecutor.afterWorker options hook story result (l, w) in
  let persisted := Fs.WriteFile (lo_taskFile options) (Fs.PrdFile (LoopExecutor.prd l)) in
  (sd_passes data = true ->
     (LoopExecutor.iterationBody options hook story result (l, w)).1
     = Throw (TypeError "prd.markStoryComplete is not a function") /\
     out.1 = Some (mkLoopResult false false (LoopExecutor.iterations l ++ [it])
                     (mkTaskState (nullish (lo_mode options) mode_code) 0 0 [])) /\
     LoopExecutor.prd out.2.1 = LoopExecutor.prd l /\
     out.2.2 = hooked) /\
  (sd_passes data = false ->
     LoopExecutor.prd out.2.1 = LoopExecutor.prd l /\
     (forall path, LoopExecutor.progressPath l = Some path ->
        Fs.trace (fs out.2.2)
        = Fs.trace (fs hooked) ++ [Fs.AppendFile path entry; persisted]) /\
     (LoopExecutor.progressPath l = None ->
        Fs.trace (fs out.2.2) = Fs.trace (fs hooked) ++ [persisted]) /\
     Fs.files (fs out.2.2) !! lo_taskFile options
     = Some (Fs.PrdFile (LoopExecutor.prd l))).
Proof.
  intros Hs Hd it entry hooked out persisted. split; intros Hp.
  - pose proof (iterationBody_passes options hook story result data l w Hs Hd Hp) as Hb.
    unfold out, LoopExecutor.afterWorker. rewrite Hb. by repeat split.
  - destruct (iterationBody_not_passes options hook story result data l w Hs Hd Hp)
      as (Hl & Htrace & Hfile & c & Hc).
    assert (Hout : out.2 = (LoopExecutor.iterationBody options hook story result (l, w)).2).
    { unfold out, LoopExecutor.afterWorker.
      destruct (LoopExecutor.iterationBody options hook story result (l, w))
        as [[[]|e] s1]; simpl in *; done. }
    rewrite Hout. split; [by rewrite Hl|]. split; [|split].
    + intros path Hpath. rewrite Htrace, Hpath. done.
    + intros Hpath. rewrite Htrace, Hpath. done.
    + done.
Qed.

(** C2 at story B of the test backlog, with the criteria met: the result is
    the failure, the backlog is as before and no file operation took place. *)
Lemma successful_iteration_effects_witness :
  let out := LoopExecutor.afterWorker Examples.loopOptions None Examples.storyB
               Examples.passing (Examples.locals1, Examples.world0) in
  out.1 = Some (mkLoopResult false false [mkIterationResult 1 "US-002" true [] 1200]
                  (mkTaskState mode_code 0 0 [])) /\
  LoopExecutor.prd out.2.1 = Examples.prdAB /\
  Fs.trace (fs out.2.2) = [].
Proof.
  destruct (successful_iteration_effects Examples.loopOptions None Examples.storyB
              Examples.passing
              (mkStoryData true "Implemented story 2" ["src/b.ts"] None true)
              Examples.locals1 Examples.world0 eq_refl eq_refl)
    as (Hpass & _).
  destruct (Hpass eq_refl) as (_ & Hout & Hprd & Hworld).
  split; [exact Hout|]. split; [exact Hprd|]. cbv zeta. by rewrite Hworld.
Defined.

(** C2 as the spec words it fails, second half: the worker succeeds with
    [passes: false], and the engine still appends to the progress log and
    rewrites the backlog file. *)
Lemma passes_false_still_appends_and_persists :
  let s' := (LoopExecutor.afterWorker Examples.loopOptions None Examples.storyB
               Examples.notPassing (Examples.locals1, Examples.world0)).2 in
  er_success Examples.notPassing = true /\
  (sd_passes <$> er_data Examples.notPassing) = Some false /\
  LoopExecutor.prd s'.1 = Examples.prdAB /\
  Fs.trace (fs Examples.world0) = [] /\
  Fs.trace (fs s'.2)
  = [ Fs.AppendFile "progress.txt"
        (mkProgressEntry "US-002" "Tests still red" ["src/b.ts"] []);
      Fs.WriteFile "prd.json" (Fs.PrdFile Examples.prdAB) ] /\
  ~ (Fs.trace (fs s'.2) = Fs.trace (fs Examples.world0)).
Proof. repeat split; try reflexivity. discriminate. Qed.

(** C3. Under fail-fast, a failed worker call makes the loop body throw a
    [TaskIncompleteError] that carries the completed and total counts; the
    [catch] of [execute] then returns a failure whose history ends with this
    iteration and whose final state has both counts 0 and no tasks: the counts
    of the error are not in the result. *)
Theorem fail_fast_result_drops_counts
    (options : ExecuteLoopOptions) (hook : option (IterationResult -> World -> World))
    (story : UserStory) (result : ExecuteResult StoryData)
    (l : LoopExecutor.Locals) (w : World) :
  lo_errorStrategy options = Some fail_fast ->
  er_success result = false ->
  exists r s',
    (LoopExecutor.iterationBody options hook story result (l, w)).1
      = Throw (TaskIncompleteError (PRD.completedCount (LoopExecutor.prd l))
                                   (PRD.totalCount (LoopExecutor.prd l))) /\
    LoopExecutor.afterWorker options hook story result (l, w) = (Some r, s') /\
    lr_success r = false /\ lr_completed r = false /\
    lr_iterations r
      = LoopExecutor.iterations l ++ [LoopExecutor.iterResult l story result] /\
    ts_tasksCompleted (lr_finalState r) = 0 /\
    ts_tasksTotal (lr_finalState r) = 0 /\
    ts_tasks (lr_finalState r) = [].
Proof.
  intros Hff Hfail.
  assert (Hnone : (if er_success result then er_data result else None) = None)
    by by rewrite Hfail.
  pose proof (iterationBody_fail_fast options hook story result l w Hff Hnone) as Hb.
  unfold LoopExecutor.afterWorker. rewrite Hb. simpl.
  eexists _, _. repeat split.
Qed.

(** C3 where one of two stories is complete: the error carries 1 and 2, the
    result carries 0 and 0. *)
Lemma fail_fast_result_drops_counts_witness :
  PRD.completedCount Examples.prdHalf = 1 /\ PRD.totalCount Examples.prdHalf = 2 /\
  exists r s',
    LoopExecutor.afterWorker Examples.loopOptions None Examples.storyB
      Examples.failing (Examples.localsHalf, Examples.worldHalf) = (Some r, s') /\
    length (lr_iterations r) = 1%nat /\
    ts_tasksCompleted (lr_finalState r) = 0 /\
    ts_tasksTotal (lr_finalState r) = 0.
Proof.
  split; [reflexivity|]. split; [reflexivity|].
  destruct (fail_fast_result_drops_counts Examples.loopOptions None Examples.storyB
              Examples.failing Examples.localsHalf Examples.worldHalf eq_refl eq_refl)
    as (r & s' & _ & Hafter & _ & _ & Hits & Hc & Ht & _).
  exists r, s'. split; [exact Hafter|]. split; [by rewrite Hits|]. done.
Defined.

(** The whole of [execute] on that backlog with a worker that fails: one
    iteration, then the failure with empty counts. *)
Example execute_fail_fast_half_done :
  (LoopExecutor.execute Examples.loopOptions None Examples.alwaysFailing
     Examples.worldHalf).1
  = mkLoopResult false false [mkIterationResult 1 "US-002" false [] 800]
                 (mkTaskState mode_code 0 0 []).
Proof. reflexivity. Qed.

(** ** Status updates of the background executions *)

Section StatusFacts.

Import JobStore.

Lemma save_eval job st : save job st = (Return tt, (save job st).2).
Proof.
  rewrite (surjective_pairing (save job st)) at 1. by rewrite save_returns.
Qed.

Lemma updateStatus_found now jobId s e st job :
  jobs st !! jobId = Some job ->
  updateStatus now jobId s e st = save (withStatus now s e job) st.
Proof. intros H. unfold updateStatus, require, get. eff_unfold. by rewrite H. Qed.

Lemma withStatus_fields now s e job :
  job_id (withStatus now s e job) = job_id job /\
  job_status (withStatus now s e job) = s /\
  job_progress (withStatus now s e job) = job_progress job /\
  job_result (withStatus now s e job) = job_result job.
Proof.
  unfold withStatus.
  destruct (decide (s = Running)), (job_startedAt (set_status s job)),
    (isTerminal s), (truthy e); done.
Qed.

(** The three store calls that end [executeSingleShot]'s [try] block. *)
Lemma finish_single_shot_store now jobId (result : ExecuteResult string) p st job :
  jobs st !! jobId = Some job -> job_id job = jobId ->
  let final := if er_success result then Completed else Failed in
  exists st' job',
    (updateResult jobId (SingleShotResult result) ;;;
     updateProgress now jobId p ;;;
     updateStatus now jobId final None)%eff st = (Return tt, st') /\
    jobs st' !! jobId = Some job' /\
    job_status job' = final /\
    job_result job' = Some (SingleShotResult result).
Proof.
  intros Hjob Hid final.
  set (job1 := set_result (Some (SingleShotResult result)) job).
  set (st1 := (save job1 st).2).
  assert (H1 : jobs st1 !! jobId = Some job1).
  { unfold st1. rewrite save_jobs. subst job1. simpl. rewrite Hid.
    apply lookup_insert_eq. }
  set (job2 := set_progress (Some (mergeProgress now (job_progress job1) p)) job1).
  set (st2 := (save job2 st1).2).
  assert (H2 : jobs st2 !! jobId = Some job2).
  { unfold st2. rewrite save_jobs. subst job2 job1. simpl. rewrite Hid.
    apply lookup_insert_eq. }
  set (job3 := withStatus now final None job2).
  destruct (withStatus_fields now final None job2) as (Hid3 & Hst3 & _ & Hres3).
  exists (save job3 st2).2, job3. split; [|split; [|split]].
  - unfold bind.
    rewrite (updateResult_found _ _ _ _ Hjob). fold job1. rewrite save_eval. fold st1.
    rewrite (updateProgress_found _ _ _ _ _ H1). fold job2. rewrite save_eval. fold st2.
    rewrite (updateStatus_found _ _ _ _ _ _ H2). fold job3. apply save_eval.
  - rewrite save_jobs. unfold job3. rewrite Hid3. subst job2 job1. simpl.
    rewrite Hid. apply lookup_insert_eq.
  - exact Hst3.
  - unfold job3. rewrite Hres3. reflexivity.
Qed.

End StatusFacts.

(** C1, where the code departs from it. A single-shot execution that is
    waiting for the worker writes completed or failed when the worker returns,
    whatever the status of the job is by then: a job that [cancel] has marked
    cancelled leaves that terminal status. *)
Theorem single_shot_finish_overwrites_cancelled
    (now : Z) (m : JobManager.t) (exec : nat) (jobId : string) (o : ExecuteOptions)
    (job : Job) (result : ExecuteResult string) :
  JobManager.executions m !! exec = Some (JobManager.SingleShotAwaiting jobId o) ->
  JobStore.jobs (store (JobManager.world m)) !! jobId = Some job ->
  job_id job = jobId ->
  job_status job = Cancelled ->
  exists m' job',
    JobManager.resume now exec (JobManager.SingleShotDone result) m = (Return tt, m') /\
    JobStore.jobs (store (JobManager.world m')) !! jobId = Some job' /\
    job_status job' = (if er_success result then Completed else Failed) /\
    job_status job' <> Cancelled.
Proof.
  intros Hexec Hjob Hid Hcancelled.
  destruct (finish_single_shot_store now jobId result
              (mkPartialJobProgress None None None (Some 1) None None
                 (Some (if er_success result then "Task completed" else "Task failed")))
              _ _ Hjob Hid) as (st' & job' & Hrun & Hjob' & Hstatus & _).
  unfold JobManager.resume. unfold bind at 1, get_state at 1. rewrite Hexec.
  unfold JobManager.suspend, JobManager.onWorld, JobManager.singleShotFinish,
    JobManager.guarded, onStore.
  unfold try_catch, zoom. unfold bind at 1.
  rewrite Hrun. cbn.
  eexists _, job'. split; [reflexivity|]. cbn. split; [exact Hjob'|].
  split; [exact Hstatus|]. rewrite Hstatus. by destruct (er_success result).
Qed.

(** C1 on a run of the manager: job-1 is started, cancelled while its worker
    runs, and is completed once the worker returns. *)
Lemma single_shot_finish_overwrites_cancelled_witness :
  (job_status <$> JobStore.jobs (store (JobManager.world Examples.manager1_cancelled))
                    !! "job-1") = Some Cancelled /\
  exists m' job',
    JobManager.resume 3000 0%nat (JobManager.SingleShotDone Examples.workerOk)
      Examples.manager1_cancelled = (Return tt, m') /\
    JobStore.jobs (store (JobManager.world m')) !! "job-1" = Some job' /\
    job_status job' = Completed.
Proof.
  split; [reflexivity|].
  destruct (single_shot_finish_overwrites_cancelled 3000 Examples.manager1_cancelled
              0%nat "job-1" Examples.options1
              (JobStore.withStatus 2000 Cancelled None
                 (set_progress
                    (Some (mkJobProgress 0 None None 0 1 1001 (Some "Executing task...")))
                    (set_startedAt (Some 1000) (set_status Running Examples.job1))))
              Examples.workerOk eq_refl eq_refl eq_refl eq_refl)
    as (m' & job' & Hres & Hjob & Hstatus & _).
  exists m', job'. split; [exact Hres|]. split; [exact Hjob|]. exact Hstatus.
Defined.

(** ** Admission *)

Section Admission.

Import JobManager.

Lemma onWorld_bookkeeping {A} (c : Eff World A) m :
  sameBookkeeping m (onWorld c m).2.
Proof.
  unfold onWorld, zoom. destruct (c (world m)) as [o w]. by repeat split.
Qed.

Lemma ensureInitialized_eval now m :
  exists m0, ensureInitialized now m = (Return tt, m0) /\ sameBookkeeping m m0.
Proof.
  pose proof (ensureInitialized_returns now m) as Hret.
  exists (ensureInitialized now m).2. split.
  - rewrite (surjective_pairing (ensureInitialized now m)) at 1. by rewrite Hret.
  - unfold ensureInitialized, initialize. eff_unfold.
    destruct (initialized m) eqn:E; simpl; [by repeat split|]. rewrite E.
    pose proof (onWorld_bookkeeping (onStore (JobStore.initialize now)) m) as Hb.
    unfold onJobStore.
    destruct (onWorld _ m) as [[[]|e] m1]; simpl in *; exact Hb.
Qed.

Lemma checkConcurrencyLimit_eval m :
  (limitReached m /\ exists limit,
      checkConcurrencyLimit m = (Throw (ConcurrencyLimitReached limit), m))
  \/ (~ limitReached m /\ checkConcurrencyLimit m = (Return tt, m)).
Proof.
  unfold checkConcurrencyLimit, limitReached. eff_unfold.
  destruct (maxConcurrentJobs m) as [limit|].
  - case_bool_decide.
    + left. split; [exists limit; split; [done|lia] | by exists limit].
    + right. split; [|done]. intros (l' & [= <-] & ?). lia.
  - right. split; [|done]. by intros (? & ? & ?).
Qed.

Lemma limitReached_bookkeeping m m' :
  sameBookkeeping m m' -> limitReached m' <-> limitReached m.
Proof. intros (Hr & _ & _ & _ & Hm). unfold limitReached. by rewrite Hr, Hm. Qed.

(** After the job is saved, the first segment of either execution finds it
    and suspends. *)
Lemma launch_saved jobId task task' seg m :
  onWorld seg m = (Return (Some task'), (onWorld seg m).2) ->
  exists m', launch jobId task seg m = (Return tt, m') /\
             runningJobs m' = <[jobId := nextExecution m]> (runningJobs m) /\
             executions m' = <[nextExecution m := task']> (executions m) /\
             JobStore.jobs (store (world m'))
             = JobStore.jobs (store (world (onWorld seg m).2)).
Proof.
  intros Hseg. unfold launch. rewrite Hseg.
  pose proof (onWorld_bookkeeping seg m) as (Hr & _ & He & _).
  eexists. split; [reflexivity|]. cbn. by rewrite Hr, He.
Qed.

Lemma onStore_store {A} (c : Eff JobStore.t A) w :
  store (onStore c w).2 = (c (store w)).2.
Proof. unfold onStore, zoom. by destruct (c (store w)). Qed.

Lemma first_segment_suspends now job task handler (w : World) :
  let w1 := (onStore (JobStore.save job) w).2 in
  guarded (onStore (JobStore.updateStatus now (job_id job) Running None) ;;;
           ret (Some task)) handler w1
  = (Return (Some task),
     (onStore (JobStore.save (JobStore.withStatus now Running None job)) w1).2).
Proof.
  intros w1. unfold guarded, onStore, try_catch, zoom. unfold bind.
  assert (Hfound : JobStore.jobs (store w1) !! job_id job = Some job).
  { unfold w1. rewrite onStore_store, save_jobs. apply lookup_insert_eq. }
  rewrite (updateStatus_found _ _ _ _ _ _ Hfound), save_eval. reflexivity.
Qed.

(** What a [start*] call does once the job object and the first segment of
    its execution are fixed: [save], launch, file the promise. *)
Lemma start_accepted now job task handler m0 :
  let seg := guarded (onStore (JobStore.updateStatus now (job_id job) Running None) ;;;
                      ret (Some task)) handler in
  exists m',
    (onJobStore (JobStore.save job) ;;; launch (job_id job) task seg ;;;
     ret (job_id job))%eff m0 = (Return (job_id job), m') /\
    runningJobs m' = <[job_id job := nextExecution m0]> (runningJobs m0) /\
    executions m' = <[nextExecution m0 := task]> (executions m0) /\
    JobStore.jobs (store (world m')) !! job_id job
    = Some (JobStore.withStatus now Running None job).
Proof.
  intros seg.
  set (w1 := (onStore (JobStore.save job) (world m0)).2).
  set (m1 := set_world w1 m0).
  assert (Hsave : onJobStore (JobStore.save job) m0 = (Return tt, m1)).
  { unfold onJobStore, onWorld, zoom, m1, w1, onStore, zoom.
    rewrite save_eval. reflexivity. }
  assert (Hseg : onWorld seg m1
                 = (Return (Some task), (onWorld seg m1).2)).
  { unfold onWorld, zoom. change (world m1) with w1.
    unfold seg, w1. rewrite first_segment_suspends. reflexivity. }
  destruct (launch_saved (job_id job) task task seg m1 Hseg)
    as (m' & Hlaunch & Hr & He & Hj).
  exists m'. unfold bind. rewrite Hsave, Hlaunch.
  split; [reflexivity|]. split; [exact Hr|]. split; [exact He|].
  rewrite Hj. unfold onWorld, zoom. change (world m1) with w1.
  unfold seg, w1. rewrite first_segment_suspends. cbn [snd set_world world].
  rewrite onStore_store, save_jobs.
  destruct (withStatus_fields now Running None job) as (-> & _).
  apply lookup_insert_eq.
Qed.

Lemma startSingleShot_eval now opts jid uuid m :
  let jobId := nullish jid uuid in
  (limitReached m /\
   exists limit m0, startSingleShot now opts jid uuid m
                    = (Throw (ConcurrencyLimitReached limit), m0))
  \/
  (~ limitReached m /\
   exists m0 m', ensureInitialized now m = (Return tt, m0) /\
     startSingleShot now opts jid uuid m = (Return jobId, m') /\
     runningJobs m' = <[jobId := nextExecution m]> (runningJobs m) /\
     JobStore.jobs (store (world m')) !! jobId
     = Some (JobStore.withStatus now Running None (newSingleShotJob now jobId opts))).
Proof.
  intros jobId. destruct (ensureInitialized_eval now m) as (m0 & Hinit & Hb).
  destruct (checkConcurrencyLimit_eval m0) as [[Hl (limit & Hc)]|[Hl Hc]].
  - left. split; [by apply (limitReached_bookkeeping m m0)|]. exists limit, m0.
    unfold startSingleShot. unfold bind at 1. rewrite Hinit.
    unfold bind at 1. by rewrite Hc.
  - right. split; [by rewrite <- (limitReached_bookkeeping m m0)|].
    destruct (start_accepted now (newSingleShotJob now jobId opts)
                (SingleShotStarted jobId opts)
                (fun e => onStore (singleShotCatch now jobId e)) m0)
      as (m' & Hrun & Hr & _ & Hj).
    exists m0, m'. split; [done|]. split.
    + unfold startSingleShot. unfold bind at 1. rewrite Hinit.
      unfold bind at 1. rewrite Hc. exact Hrun.
    + destruct Hb as (Hb1 & _ & _ & Hb4 & _). rewrite Hr, Hb1, Hb4. done.
Qed.

Lemma startLoop_eval now opts jid uuid m :
  let jobId := nullish jid uuid in
  (limitReached m /\
   exists limit m0, startLoop now opts jid uuid m
                    = (Throw (ConcurrencyLimitReached limit), m0))
  \/
  (~ limitReached m /\
   exists m0 m', ensureInitialized now m = (Return tt, m0) /\
     startLoop now opts jid uuid m = (Return jobId, m') /\
     runningJobs m' = <[jobId := nextExecution m]> (runningJobs m) /\
     JobStore.jobs (store (world m')) !! jobId
     = Some (JobStore.withStatus now Running None
               (newLoopJob now jobId
                  (withCancelToken opts (length (tokens (world m0))))))).
Proof.
  intros jobId. destruct (ensureInitialized_eval now m) as (m0 & Hinit & Hb).
  destruct (checkConcurrencyLimit_eval m0) as [[Hl (limit & Hc)]|[Hl Hc]].
  - left. split; [by apply (limitReached_bookkeeping m m0)|]. exists limit, m0.
    unfold startLoop. unfold bind at 1. rewrite Hinit.
    unfold bind at 1. by rewrite Hc.
  - right. split; [by rewrite <- (limitReached_bookkeeping m m0)|].
    set (token := length (tokens (world m0))).
    set (m1 := set_cancellationTokens (<[jobId := token]> (cancellationTokens m0))
                 (set_world (set_tokens (tokens (world m0) ++ [false]) (world m0)) m0)).
    destruct (start_accepted now (newLoopJob now jobId (withCancelToken opts token))
                (LoopStarted jobId (withCancelToken opts token))
                (fun e => onStore (loopCatch now jobId e)) m1)
      as (m' & Hrun & Hr & _ & Hj).
    exists m0, m'. split; [done|]. split.
    + unfold startLoop. unfold bind at 1. rewrite Hinit.
      unfold bind at 1. rewrite Hc. exact Hrun.
    + destruct Hb as (Hb1 & _ & _ & Hb4 & _). rewrite Hr. cbn.
      rewrite Hb1, Hb4. done.
Qed.

(** The store after an accepted start: the job is saved, then set running by
    the first step of its execution; no other entry is touched. *)
Lemma start_accepted_store now job task handler m0 :
  let seg := guarded (onStore (JobStore.updateStatus now (job_id job) Running None) ;;;
                      ret (Some task)) handler in
  JobStore.jobs
    (store (world ((onJobStore (JobStore.save job) ;;; launch (job_id job) task seg ;;;
                    ret (job_id job))%eff m0).2))
  = <[job_id job := JobStore.withStatus now Running None job]>
      (JobStore.jobs (store (world m0))).
Proof.
  intros seg.
  set (w1 := (onStore (JobStore.save job) (world m0)).2).
  set (m1 := set_world w1 m0).
  assert (Hsave : onJobStore (JobStore.save job) m0 = (Return tt, m1)).
  { unfold onJobStore, onWorld, zoom, m1, w1, onStore, zoom.
    rewrite save_eval. reflexivity. }
  assert (Hseg : onWorld seg m1
                 = (Return (Some task), (onWorld seg m1).2)).
  { unfold onWorld, zoom. change (world m1) with w1.
    unfold seg, w1. rewrite first_segment_suspends. reflexivity. }
  destruct (launch_saved (job_id job) task task seg m1 Hseg)
    as (m' & Hlaunch & _ & _ & Hj).
  assert (Hcomp : (onJobStore (JobStore.save job) ;;; launch (job_id job) task seg ;;;
                   ret (job_id job))%eff m0 = (Return (job_id job), m')).
  { unfold bind. by rewrite Hsave, Hlaunch. }
  rewrite Hcomp. cbn [snd]. rewrite Hj.
  unfold onWorld, zoom. change (world m1) with w1.
  unfold seg, w1. rewrite first_segment_suspends. cbn [snd set_world world].
  rewrite onStore_store, save_jobs, onStore_store, save_jobs.
  destruct (withStatus_fields now Running None job) as (-> & _).
  apply insert_insert_eq.
Qed.

Lemma checkConcurrencyLimit_rejects m :
  limitReached m ->
  exists limit, maxConcurrentJobs m = Some limit /\
    checkConcurrencyLimit m = (Throw (ConcurrencyLimitReached limit), m).
Proof.
  intros (limit & Hlimit & Hsize). exists limit. split; [exact Hlimit|].
  unfold checkConcurrencyLimit. eff_unfold. rewrite Hlimit.
  rewrite bool_decide_true by lia. reflexivity.
Qed.

(** A rejected start: the check comes before the job is built, so the
    manager is as [ensureInitialized] left it. *)
Lemma start_rejected now m :
  limitReached m ->
  exists limit, maxConcurrentJobs m = Some limit /\
    forall opts lopts jid uuid,
      startSingleShot now opts jid uuid m
      = (Throw (ConcurrencyLimitReached limit), (ensureInitialized now m).2) /\
      startLoop now lopts jid uuid m
      = (Throw (ConcurrencyLimitReached limit), (ensureInitialized now m).2).
Proof.
  intros Hl. destruct (ensureInitialized_eval now m) as (m0 & Hinit & Hb).
  apply (limitReached_bookkeeping m m0 Hb) in Hl.
  destruct (checkConcurrencyLimit_rejects m0 Hl) as (limit & Hlimit & Hc).
  exists limit. split; [by destruct Hb as (_ & _ & _ & _ & <-)|].
  intros opts lopts jid uuid. rewrite Hinit. cbn [snd]. split.
  - unfold startSingleShot. unfold bind at 1. rewrite Hinit.
    unfold bind at 1. by rewrite Hc.
  - unfold startLoop. unfold bind at 1. rewrite Hinit.
    unfold bind at 1. by rewrite Hc.
Qed.

Lemma startSingleShot_store now opts jid uuid m :
  ~ limitReached m ->
  let jobId := nullish jid uuid in
  (startSingleShot now opts jid uuid m).1 = Return jobId /\
  JobStore.jobs (store (world (startSingleShot now opts jid uuid m).2))
  = <[jobId := JobStore.withStatus now Running None (newSingleShotJob now jobId opts)]>
      (JobStore.jobs (store (world (ensureInitialized now m).2))).
Proof.
  intros Hn jobId. destruct (ensureInitialized_eval now m) as (m0 & Hinit & Hb).
  destruct (checkConcurrencyLimit_eval m0) as [[Hl _]|[_ Hc]];
    [by apply (limitReached_bookkeeping m m0 Hb) in Hl|].
  assert (Hstart : startSingleShot now opts jid uuid m
                   = (onJobStore (JobStore.save (newSingleShotJob now jobId opts)) ;;;
                      launch jobId (SingleShotStarted jobId opts)
                        (singleShotStart now jobId opts) ;;;
                      ret jobId)%eff m0).
  { unfold startSingleShot. unfold bind at 1. rewrite Hinit.
    unfold bind at 1. by rewrite Hc. }
  rewrite Hstart, Hinit. cbn [snd]. split.
  - destruct (start_accepted now (newSingleShotJob now jobId opts)
                (SingleShotStarted jobId opts)
                (fun e => onStore (singleShotCatch now jobId e)) m0)
      as (m' & Hrun & _).
    change (job_id (newSingleShotJob now jobId opts)) with jobId in Hrun.
    unfold singleShotStart. by rewrite Hrun.
  - apply (start_accepted_store now (newSingleShotJob now jobId opts)
             (SingleShotStarted jobId opts)
             (fun e => onStore (singleShotCatch now jobId e)) m0).
Qed.

Lemma startLoop_store now opts jid uuid m :
  ~ limitReached m ->
  let jobId := nullish jid uuid in
  let token := length (tokens (world (ensureInitialized now m).2)) in
  (startLoop now opts jid uuid m).1 = Return jobId /\
  JobStore.jobs (store (world (startLoop now opts jid uuid m).2))
  = <[jobId := JobStore.withStatus now Running None
                 (newLoopJob now jobId (withCancelToken opts token))]>
      (JobStore.jobs (store (world (ensureInitialized now m).2))).
Proof.
  intros Hn jobId token.
  destruct (ensureInitialized_eval now m) as (m0 & Hinit & Hb).
  subst token. rewrite Hinit. cbn [snd]. set (token := length (tokens (world m0))).
  destruct (checkConcurrencyLimit_eval m0) as [[Hl _]|[_ Hc]];
    [by apply (limitReached_bookkeeping m m0 Hb) in Hl|].
  set (m1 := set_cancellationTokens (<[jobId := token]> (cancellationTokens m0))
               (set_world (set_tokens (tokens (world m0) ++ [false]) (world m0)) m0)).
  assert (Hstart : startLoop now opts jid uuid m
                   = (onJobStore (JobStore.save
                                    (newLoopJob now jobId (withCancelToken opts token))) ;;;
                      launch jobId (LoopStarted jobId (withCancelToken opts token))
                        (loopStart now jobId (withCancelToken opts token)) ;;;
                      ret jobId)%eff m1).
  { unfold startLoop. unfold bind at 1. rewrite Hinit.
    unfold bind at 1. by rewrite Hc. }
  rewrite Hstart. split.
  - destruct (start_accepted now (newLoopJob now jobId (withCancelToken opts token))
                (LoopStarted jobId (withCancelToken opts token))
                (fun e => onStore (loopCatch now jobId e)) m1)
      as (m' & Hrun & _).
    change (job_id (newLoopJob now jobId (withCancelToken opts token)))
      with jobId in Hrun.
    unfold loopStart. by rewrite Hrun.
  - apply (start_accepted_store now (newLoopJob now jobId (withCancelToken opts token))
             (LoopStarted jobId (withCancelToken opts token))
             (fun e => onStore (loopCatch now jobId e)) m1).
Qed.

Lemma sameBookkeeping_trans m1 m2 m3 :
  sameBookkeeping m1 m2 -> sameBookkeeping m2 m3 -> sameBookkeeping m1 m3.
Proof.
  intros (?&?&?&?&?) (?&?&?&?&?). repeat split; congruence.
Qed.

Lemma keeps_bind {A B} (c : Eff t A) (k : A -> Eff t B) :
  keeps c -> (forall a, keeps (k a)) -> keeps (bind c k).
Proof.
  intros Hc Hk m. unfold bind. specialize (Hc m).
  destruct (c m) as [[a|e] m1]; simpl in *; [|done].
  eapply sameBookkeeping_trans; [exact Hc|apply Hk].
Qed.

Lemma keeps_ret {A} (a : A) : keeps (ret a).
Proof. intros m. by repeat split. Qed.

Lemma keeps_throw {A} e : keeps (@throw t A e).
Proof. intros m. by repeat split. Qed.

Lemma keeps_get_state : keeps (@get_state t).
Proof. intros m. by repeat split. Qed.

Lemma keeps_onWorld {A} (c : Eff World A) : keeps (onWorld c).
Proof. intros m. apply onWorld_bookkeeping. Qed.

Lemma keeps_ensureInitialized now : keeps (ensureInitialized now).
Proof.
  intros m. destruct (ensureInitialized_eval now m) as (m0 & -> & Hb). exact Hb.
Qed.

Lemma keeps_cancel now jobId : keeps (cancel now jobId).
Proof.
  unfold cancel.
  apply keeps_bind; [apply keeps_ensureInitialized|]. intros _.
  apply keeps_bind; [apply keeps_onWorld|]. intros [job|]; [|apply keeps_throw].
  destruct (isTerminal (job_status job)); [apply keeps_ret|].
  apply keeps_bind; [apply keeps_get_state|]. intros m.
  apply keeps_bind.
  { destruct (cancellationTokens m !! jobId); [apply keeps_onWorld|apply keeps_ret]. }
  intros _. apply keeps_bind; [apply keeps_onWorld|]. intros _. apply keeps_ret.
Qed.

(** When the worker of a single-shot job returns, its execution settles,
    whatever the store operations do. *)
Lemma singleShotFinish_settles now jobId result w task :
  (singleShotFinish now jobId result w).1 <> Return (Some task).
Proof.
  unfold singleShotFinish, guarded, try_catch, bind, ret.
  destruct (onStore _ w) as [[a|e] w1]; simpl; [congruence|].
  destruct (onStore _ w1) as [[a|e'] w2]; simpl; congruence.
Qed.

Lemma resume_single_shot_eq now m exec jobId o result :
  executions m !! exec = Some (SingleShotAwaiting jobId o) ->
  resume now exec (SingleShotDone result) m
  = suspend exec (SingleShotAwaiting jobId o) (singleShotFinish now jobId result) m.
Proof. intros Hexec. unfold resume, bind, get_state. by rewrite Hexec. Qed.

Lemma resume_single_shot_settles now m exec jobId o result :
  executions m !! exec = Some (SingleShotAwaiting jobId o) ->
  let m' := (resume now exec (SingleShotDone result) m).2 in
  runningJobs m' = delete jobId (runningJobs m) /\
  executions m' = delete exec (executions m).
Proof.
  intros Hexec m'. subst m'. rewrite (resume_single_shot_eq _ _ _ _ _ _ Hexec).
  unfold suspend.
  pose proof (singleShotFinish_settles now jobId result (world m)) as Hsettle.
  unfold onWorld, zoom in *.
  destruct (singleShotFinish now jobId result (world m)) as [[[task|]|e] w'];
    simpl in *; [by destruct (Hsettle task) | |]; done.
Qed.

(** A step of a background execution either leaves it in flight, and then
    [runningJobs] is as before, or settles it, and then its job id leaves
    [runningJobs]. *)
Lemma suspend_cases exec task seg m :
  let m' := (suspend exec task seg m).2 in
  (is_Some (executions m' !! exec) /\ runningJobs m' = runningJobs m)
  \/ (executions m' !! exec = None /\
      runningJobs m' = delete (taskJobId task) (runningJobs m)).
Proof.
  unfold suspend.
  pose proof (onWorld_bookkeeping seg m) as (Hr & _ & He & _).
  destruct (onWorld seg m) as [[[task'|]|e] m1]; simpl in *.
  - left. rewrite lookup_insert_eq. split; [eauto|done].
  - right. destruct task; simpl; rewrite lookup_delete_eq, Hr; done.
  - right. destruct task; simpl; rewrite lookup_delete_eq, Hr; done.
Qed.

Lemma resume_cases now exec input m task :
  executions m !! exec = Some task ->
  let m' := (resume now exec input m).2 in
  (is_Some (executions m' !! exec) /\ runningJobs m' = runningJobs m)
  \/ (executions m' !! exec = None /\
      runningJobs m' = delete (taskJobId task) (runningJobs m)).
Proof.
  intros Hexec. unfold resume, bind, get_state. rewrite Hexec.
  destruct task, input; simpl;
    try (left; rewrite Hexec; split; [eauto|done]);
    match goal with
    | |- context [suspend ?e ?t ?s ?m] => apply (suspend_cases e t s m)
    end.
Qed.

End Admission.

(** C5, as the code has it. A [start*] call is rejected exactly when the
    number of executions in flight ([runningJobs.size]) has reached the limit;
    an admitted call returns the job id and files its execution under it;
    [cancel] leaves [runningJobs] as it is, so a job cancelled while its
    execution is in flight keeps its slot; the slot is freed when the execution
    settles, which for a single-shot job is when its worker has returned. *)
Theorem admission_counts_executions_in_flight :
  (forall now opts jid uuid m,
     (exists e m', JobManager.startSingleShot now opts jid uuid m = (Throw e, m'))
     <-> JobManager.limitReached m) /\
  (forall now opts jid uuid m,
     (exists e m', JobManager.startLoop now opts jid uuid m = (Throw e, m'))
     <-> JobManager.limitReached m) /\
  (forall now opts jid uuid m,
     ~ JobManager.limitReached m ->
     exists m', JobManager.startSingleShot now opts jid uuid m
                = (Return (nullish jid uuid), m') /\
       JobManager.runningJobs m'
       = <[nullish jid uuid := JobManager.nextExecution m]> (JobManager.runningJobs m)) /\
  (forall now opts jid uuid m,
     ~ JobManager.limitReached m ->
     exists m', JobManager.startLoop now opts jid uuid m
                = (Return (nullish jid uuid), m') /\
       JobManager.runningJobs m'
       = <[nullish jid uuid := JobManager.nextExecution m]> (JobManager.runningJobs m)) /\
  (forall now jobId m,
     JobManager.runningJobs (JobManager.cancel now jobId m).2 = JobManager.runningJobs m /\
     JobManager.maxConcurrentJobs (JobManager.cancel now jobId m).2
     = JobManager.maxConcurrentJobs m) /\
  (forall now m exec jobId o result,
     JobManager.executions m !! exec = Some (JobManager.SingleShotAwaiting jobId o) ->
     JobManager.runningJobs
       (JobManager.resume now exec (JobManager.SingleShotDone result) m).2
     = delete jobId (JobManager.runningJobs m)) /\
  (forall now m exec task input,
     JobManager.executions m !! exec = Some task ->
     let m' := (JobManager.resume now exec input m).2 in
     (is_Some (JobManager.executions m' !! exec) /\
      JobManager.runningJobs m' = JobManager.runningJobs m)
     \/ (JobManager.executions m' !! exec = None /\
         JobManager.runningJobs m'
         = delete (JobManager.taskJobId task) (JobManager.runningJobs m))).
Proof.
  repeat split; [..|intros now m exec task input Hexec; by apply resume_cases].
  - intros (e & m' & Hthrow).
    destruct (startSingleShot_eval now opts jid uuid m)
      as [[Hl _]|[_ (m0 & m1 & _ & Hret & _)]]; [done|congruence].
  - intros Hl.
    destruct (startSingleShot_eval now opts jid uuid m)
      as [[_ (limit & m0 & Hthrow)]|[Hn _]]; [eauto|done].
  - intros (e & m' & Hthrow).
    destruct (startLoop_eval now opts jid uuid m)
      as [[Hl _]|[_ (m0 & m1 & _ & Hret & _)]]; [done|congruence].
  - intros Hl.
    destruct (startLoop_eval now opts jid uuid m)
      as [[_ (limit & m0 & Hthrow)]|[Hn _]]; [eauto|done].
  - intros now opts jid uuid m Hn.
    destruct (startSingleShot_eval now opts jid uuid m)
      as [[Hl _]|[_ (m0 & m1 & _ & Hret & Hr & _)]]; [done|eauto].
  - intros now opts jid uuid m Hn.
    destruct (startLoop_eval now opts jid uuid m)
      as [[Hl _]|[_ (m0 & m1 & _ & Hret & Hr & _)]]; [done|eauto].
  - by destruct (keeps_cancel now jobId m) as (? & _).
  - by destruct (keeps_cancel now jobId m) as (_ & _ & _ & _ & ?).
  - intros now m exec jobId o result Hexec.
    by destruct (resume_single_shot_settles now m exec jobId o result Hexec).
Qed.

(** C5 with a limit of one job: once the execution of the cancelled job-1 has
    settled, a second job is admitted. *)
Lemma admission_counts_executions_in_flight_witness :
  size (JobManager.runningJobs Examples.manager1_settled) = 0%nat /\
  exists m', JobManager.startSingleShot 3100 Examples.options2 (Some "job-2") "uuid-2"
               Examples.manager1_settled = (Return "job-2", m').
Proof.
  destruct admission_counts_executions_in_flight
    as (_ & _ & Haccept & _ & _ & Hsettle & _).
  assert (Hfree : JobManager.runningJobs Examples.manager1_settled
                  = delete "job-1" (JobManager.runningJobs Examples.manager1_cancelled)).
  { apply (Hsettle 3000 Examples.manager1_cancelled 0%nat "job-1" Examples.options1).
    reflexivity. }
  split; [rewrite Hfree; reflexivity|].
  destruct (Haccept 3100 Examples.options2 (Some "job-2") "uuid-2"
              Examples.manager1_settled) as (m' & Hstart & _).
  - intros (limit & Hlimit & Hsize). rewrite Hfree in Hsize.
    injection Hlimit as <-. vm_compute in Hsize. by apply Hsize.
  - by exists m'.
Defined.

(** C5 as the spec words it fails: with a limit of one job, job-1 is
    cancelled while its worker runs. No job of the store is non-terminal any
    more, and the next start is rejected all the same. *)
Lemma start_after_cancel_is_rejected :
  JobManager.maxConcurrentJobs Examples.manager1_cancelled = Some 1 /\
  (job_status <$> JobStore.jobs (store (JobManager.world Examples.manager1_cancelled))
                    !! "job-1") = Some Cancelled /\
  JobManager.nonTerminalJobs Examples.manager1_cancelled = 0%nat /\
  (JobManager.startSingleShot 2100 Examples.options2 (Some "job-2") "uuid-2"
     Examples.manager1_cancelled).1 = Throw (ConcurrencyLimitReached 1).
Proof. repeat split; vm_compute; reflexivity. Qed.

(** ** Starting a job under an id that is taken *)

(** C10, as the code has it. A job of any status is stored under the id
    passed to [startSingleShot] or [startLoop]. When the concurrency limit is
    not reached, the call returns that id and the store is as before except
    for that one entry, which is the new job: saved as pending and, when the
    call returns, already set running by its execution, with a fresh progress
    and no result, error or history of the old record; the number of jobs is
    unchanged. When the limit is reached, the call throws the admission error
    before anything is saved: the manager is as initialization left it and the
    old record is still there. *)
Theorem start_replaces_existing_job
    (now : Z) (jobId uuid : string) (m : JobManager.t) (old : Job) :
  let m0 := (JobManager.ensureInitialized now m).2 in
  JobStore.jobs (store (JobManager.world m0)) !! jobId = Some old ->
  (~ JobManager.limitReached m ->
     (forall opts,
        let started := JobManager.startSingleShot now opts (Some jobId) uuid m in
        let job := mkJob jobId SingleShot Running now (Some now) None None
                     (Some (mkJobProgress 0 None None 0 1 now (Some "Job created")))
                     (SingleShotOptions opts) None None in
        job_status (JobManager.newSingleShotJob now jobId opts) = Pending /\
        started.1 = Return jobId /\
        JobStore.jobs (store (JobManager.world started.2))
        = <[jobId := job]> (JobStore.jobs (store (JobManager.world m0))) /\
        JobStore.jobs (store (JobManager.world started.2)) !! jobId = Some job /\
        size (JobStore.jobs (store (JobManager.world started.2)))
        = size (JobStore.jobs (store (JobManager.world m0)))) /\
     (forall opts,
        let started := JobManager.startLoop now opts (Some jobId) uuid m in
        let token := length (tokens (JobManager.world m0)) in
        let job := mkJob jobId Loop Running now (Some now) None None
                     (Some (mkJobProgress 0 None None 0 0 now (Some "Job created")))
                     (LoopOptions (JobManager.withCancelToken opts token)) None
                     (Some []) in
        job_status (JobManager.newLoopJob now jobId
                      (JobManager.withCancelToken opts token)) = Pending /\
        started.1 = Return jobId /\
        JobStore.jobs (store (JobManager.world started.2))
        = <[jobId := job]> (JobStore.jobs (store (JobManager.world m0))) /\
        JobStore.jobs (store (JobManager.world started.2)) !! jobId = Some job /\
        size (JobStore.jobs (store (JobManager.world started.2)))
        = size (JobStore.jobs (store (JobManager.world m0))))) /\
  (JobManager.limitReached m ->
     exists limit,
       JobManager.maxConcurrentJobs m = Some limit /\
       forall opts lopts,
         JobManager.startSingleShot now opts (Some jobId) uuid m
         = (Throw (ConcurrencyLimitReached limit), m0) /\
         JobManager.startLoop now lopts (Some jobId) uuid m
         = (Throw (ConcurrencyLimitReached limit), m0) /\
         JobStore.jobs (store (JobManager.world m0)) !! jobId = Some old).
Proof.
  intros m0 Hold. split.
  - intros Hn. split.
    + intros opts started job.
      destruct (startSingleShot_store now opts (Some jobId) uuid m Hn) as (Hret & Hjobs).
      fold m0 in Hjobs. cbn [nullish] in Hret, Hjobs.
      change (JobStore.withStatus now Running None
                (JobManager.newSingleShotJob now jobId opts)) with job in Hjobs.
      split; [reflexivity|]. split; [exact Hret|].
      split; [exact Hjobs|]. unfold started. rewrite Hjobs.
      split; [apply lookup_insert_eq|]. by eapply map_size_insert_Some.
    + intros opts started token job.
      destruct (startLoop_store now opts (Some jobId) uuid m Hn) as (Hret & Hjobs).
      fold m0 in Hjobs. cbn [nullish] in Hret, Hjobs. fold token in Hjobs.
      change (JobStore.withStatus now Running None
                (JobManager.newLoopJob now jobId (JobManager.withCancelToken opts token)))
        with job in Hjobs.
      split; [reflexivity|]. split; [exact Hret|].
      split; [exact Hjobs|]. unfold started. rewrite Hjobs.
      split; [apply lookup_insert_eq|]. by eapply map_size_insert_Some.
  - intros Hl. destruct (start_rejected now m Hl) as (limit & Hlimit & Hthrow).
    exists limit. split; [exact Hlimit|]. intros opts lopts.
    destruct (Hthrow opts lopts (Some jobId) uuid) as (Hs & Hloop).
    split; [exact Hs|]. split; [exact Hloop|exact Hold].
Qed.

(** C10 with a limit of one job: job-1 has completed and is started again
    under the same id; while that execution is in flight, a third start under
    the id is rejected and the record stays. *)
Lemma start_replaces_existing_job_witness :
  (JobManager.startSingleShot 5000 Examples.options2 (Some "job-1") "uuid-3"
     Examples.manager1_settled).1 = Return "job-1" /\
  job_status <$>
    JobStore.jobs
      (store (JobManager.world
         (JobManager.startSingleShot 5000 Examples.options2 (Some "job-1") "uuid-3"
            Examples.manager1_settled).2)) !! "job-1" = Some Running /\
  JobManager.startSingleShot 1500 Examples.options2 (Some "job-1") "uuid-3"
    Examples.manager1_running
  = (Throw (ConcurrencyLimitReached 1), Examples.manager1_running).
Proof.
  destruct (start_replaces_existing_job 5000 "job-1" "uuid-3"
              Examples.manager1_settled
              (set_status Completed
                 (set_completedAt (Some 3000)
                    (set_progress
                       (Some (mkJobProgress 0 None None 1 1 3000 (Some "Task completed")))
                       (set_result (Some (SingleShotResult Examples.workerOk))
                          (set_startedAt (Some 1000) Examples.job1))))) eq_refl)
    as (Haccept & _).
  destruct (start_replaces_existing_job 1500 "job-1" "uuid-3"
              Examples.manager1_running
              (set_progress
                 (Some (mkJobProgress 0 None None 0 1 1001 (Some "Executing task...")))
                 (set_startedAt (Some 1000) (set_status Running Examples.job1)))
              eq_refl)
    as (_ & Hreject).
  destruct Haccept as (Hstart & _).
  { intros (limit & Hlimit & Hsize). injection Hlimit as <-.
    vm_compute in Hsize. by apply Hsize. }
  destruct (Hstart Examples.options2) as (_ & Hret & _ & Hjob & _).
  destruct Hreject as (limit & Hlimit & Hthrow).
  { exists 1. split; [reflexivity|]. vm_compute. discriminate. }
  injection Hlimit as <-.
  destruct (Hthrow Examples.options2 Examples.loopOptions1) as (Hs & _).
  split; [exact Hret|]. split; [by rewrite Hjob | exact Hs].
Defined.

(** C10 as worded fails when the limit is reached: with a limit of one job and
    job-1 running, a start under the id job-1 throws, and job-1 stays as it
    was. *)
Lemma start_under_taken_id_can_be_rejected :
  (job_status <$> JobStore.jobs (store (JobManager.world Examples.manager1_running))
                    !! "job-1") = Some Running /\
  (JobManager.startSingleShot 1500 Examples.options2 (Some "job-1") "uuid-3"
     Examples.manager1_running).1 = Throw (ConcurrencyLimitReached 1) /\
  JobStore.jobs (store (JobManager.world
    (JobManager.startSingleShot 1500 Examples.options2 (Some "job-1") "uuid-3"
       Examples.manager1_running).2)) !! "job-1"
  = JobStore.jobs (store (JobManager.world Examples.manager1_running)) !! "job-1".
Proof. repeat split; vm_compute; reflexivity. Qed.

(** ** Progress of a running loop job *)

(** C8, where the code departs from it. [startLoop] creates the progress with
    [tasksTotal: 0] ("Will be updated when PRD is loaded"), and nothing sets
    it before the loop ends; the [onIteration] wrapper of [executeLoop] adds
    one to [tasksCompleted] for every iteration whose worker call succeeded and
    leaves [tasksTotal] alone. So a progress with [tasksCompleted] equal to
    [tasksTotal], as at creation, has [tasksCompleted] above [tasksTotal] after
    the update of a successful iteration; [lastUpdate] is the time of the
    update. *)
Theorem iteration_progress_exceeds_total
    (now : Z) (jobId : string) (it : IterationResult) (st : JobStore.t)
    (job : Job) (its : list IterationResult) (p : JobProgress) :
  JobStore.jobs st !! jobId = Some job ->
  job_id job = jobId ->
  job_iterations job = Some its ->
  job_progress job = Some p ->
  ir_success it = true ->
  exists st' job' p',
    JobManager.onIteration now jobId it st = (Return tt, st') /\
    JobStore.jobs st' !! jobId = Some job' /\
    job_iterations job' = Some (its ++ [it]) /\
    job_progress job' = Some p' /\
    tasksCompleted p' = tasksCompleted p + 1 /\
    tasksTotal p' = tasksTotal p /\
    lastUpdate p' = now /\
    (tasksTotal p <= tasksCompleted p -> tasksTotal p' < tasksCompleted p').
Proof.
  intros Hjob Hid Hits Hp Hsucc.
  set (job1 := set_iterations (Some (its ++ [it])) job).
  set (st1 := (JobStore.save job1 st).2).
  assert (H1 : JobStore.jobs st1 !! jobId = Some job1).
  { unfold st1. rewrite save_jobs. subst job1. simpl. rewrite Hid.
    apply lookup_insert_eq. }
  set (partial := mkPartialJobProgress
         (Some (ir_iteration it)) None (Some (ir_taskId it))
         (Some (tasksCompleted p + 1)) None None
         (Some ("Completed iteration " +:+ pretty (ir_iteration it) +:+ ": "
                +:+ ir_taskId it))).
  set (p' := JobStore.mergeProgress now (job_progress job1) partial).
  set (job2 := set_progress (Some p') job1).
  exists (JobStore.save job2 st1).2, job2, p'.
  split.
  { unfold JobManager.onIteration, JobStore.get. unfold bind, ret.
    rewrite Hjob, Hits. fold job1. rewrite save_eval. fold st1.
    simpl. rewrite Hp, Hsucc. simpl. fold partial.
    rewrite (updateProgress_found _ _ _ _ _ H1). fold p'. fold job2.
    apply save_eval. }
  split.
  { rewrite save_jobs. subst job2 job1. simpl. rewrite Hid. apply lookup_insert_eq. }
  split; [reflexivity|]. split; [reflexivity|].
  split; [reflexivity|].
  assert (Htotal : tasksTotal p' = tasksTotal p).
  { unfold p', JobStore.mergeProgress. subst job1. simpl. by rewrite Hp. }
  split; [exact Htotal|]. split; [reflexivity|].
  intros Hle. rewrite Htotal. unfold p', JobStore.mergeProgress. simpl. lia.
Qed.

(** C8 on a loop job over two stories: after the first iteration the progress
    reads one task completed of zero. *)
Lemma iteration_progress_exceeds_total_witness :
  JobStore.jobs (store (JobManager.world Examples.loopManager1)) !! "loop-1"
    = Some Examples.loopJob1 /\
  exists st' job' p',
    JobManager.onIteration 2000 "loop-1" Examples.iteration1
      (store (JobManager.world Examples.loopManager1)) = (Return tt, st') /\
    JobStore.jobs st' !! "loop-1" = Some job' /\
    job_progress job' = Some p' /\
    tasksCompleted p' = 1 /\ tasksTotal p' = 0.
Proof.
  split; [reflexivity|].
  destruct (iteration_progress_exceeds_total 2000 "loop-1" Examples.iteration1
              (store (JobManager.world Examples.loopManager1)) Examples.loopJob1 []
              (mkJobProgress 0 None None 0 0 1001 (Some "Starting loop execution..."))
              eq_refl eq_refl eq_refl eq_refl eq_refl)
    as (st' & job' & p' & Hrun & Hjob & _ & Hp & Hc & Ht & _).
  exists st', job', p'. repeat split; assumption.
Defined.

(** The same through the manager: the worker succeeds three times on a backlog
    of two stories, each time without meeting the criteria; the polls in
    between read 1, 2 and 3 tasks completed of 0. *)
Example loop_progress_polls :
  let after1 := (JobManager.resume 2000 0%nat (JobManager.StoryDone Examples.notPassing)
                   Examples.loopManager1).2 in
  let after2 := (JobManager.resume 3000 0%nat (JobManager.StoryDone Examples.notPassing)
                   after1).2 in
  let after3 := (JobManager.resume 4000 0%nat (JobManager.StoryDone Examples.notPassing)
                   after2).2 in
  let counts m :=
    match (JobManager.poll 4500 "loop-1" m).1 with
    | Return r => (fun p => (tasksCompleted p, tasksTotal p)) <$> poll_progress r
    | Throw _ => None
    end in
  counts after1 = Some (1, 0) /\ counts after2 = Some (2, 0) /\
  counts after3 = Some (3, 0).
Proof. repeat split; vm_compute; reflexivity. Qed.

(** The sibling path of C1: [executeLoop] looks at the status before it writes
    the final one, and leaves a cancelled job cancelled. *)
Lemma loop_finish_keeps_cancelled now jobId result w job :
  JobStore.jobs (store w) !! jobId = Some job -> job_id job = jobId ->
  job_status job = Cancelled ->
  exists w' job',
    JobManager.loopFinish now jobId result w = (Return None, w') /\
    JobStore.jobs (store w') !! jobId = Some job' /\
    job_status job' = Cancelled.
Proof.
  intros Hjob Hid Hcancelled. set (st := store w) in *.
  set (job1 := set_result (Some (LoopJobResult result)) job).
  set (st1 := (JobStore.save job1 st).2).
  assert (H1 : JobStore.jobs st1 !! jobId = Some job1).
  { unfold st1. rewrite save_jobs. subst job1. simpl. rewrite Hid.
    apply lookup_insert_eq. }
  set (partial := mkPartialJobProgress None None None
         (Some (ts_tasksCompleted (lr_finalState result)))
         (Some (ts_tasksTotal (lr_finalState result))) None
         (Some (if lr_completed result then "All tasks completed" else "Loop finished"))).
  set (job2 := set_progress
                 (Some (JobStore.mergeProgress now (job_progress job1) partial)) job1).
  set (st2 := (JobStore.save job2 st1).2).
  assert (H2 : JobStore.jobs st2 !! jobId = Some job2).
  { unfold st2. rewrite save_jobs. subst job2 job1. simpl. rewrite Hid.
    apply lookup_insert_eq. }
  exists (set_store st2 w), job2.
  split; [|split; [exact H2|exact Hcancelled]].
  unfold JobManager.loopFinish, onStore, zoom. unfold bind at 1. unfold bind at 1.
  fold st.
  rewrite (updateResult_found _ _ _ _ Hjob). fold job1. rewrite save_eval. fold st1.
  unfold bind at 1. rewrite (updateProgress_found _ _ _ _ _ H1). fold partial. fold job2.
  rewrite save_eval. fold st2.
  unfold bind, JobStore.get. rewrite H2. simpl.
  rewrite decide_True by (by rewrite Hcancelled). reflexivity.
Qed.

(** ** The store keeps every job under its own id *)

Section Keyed.

Import JobStore.

Lemma create_keyed cwd persist dir maxAge interval :
  keyed (create cwd persist dir maxAge interval).
Proof. intros k j H. simpl in H. by rewrite lookup_empty in H. Qed.

Lemma updateStatus_keyed now jobId s e st :
  keyed st -> keyed (updateStatus now jobId s e st).2.
Proof.
  intros Hk. destruct (jobs st !! jobId) as [job|] eqn:E.
  - rewrite (updateStatus_found _ _ _ _ _ _ E). by apply save_keyed.
  - by rewrite updateStatus_missing.
Qed.

Lemma updateProgress_keyed now jobId p st :
  keyed st -> keyed (updateProgress now jobId p st).2.
Proof.
  intros Hk. destruct (jobs st !! jobId) as [job|] eqn:E.
  - rewrite (updateProgress_found _ _ _ _ _ E). by apply save_keyed.
  - by rewrite updateProgress_missing.
Qed.

Lemma updateResult_keyed jobId r st :
  keyed st -> keyed (updateResult jobId r st).2.
Proof.
  intros Hk. destruct (jobs st !! jobId) as [job|] eqn:E.
  - rewrite (updateResult_found _ _ _ _ E). by apply save_keyed.
  - unfold updateResult, require, get. eff_unfold. by rewrite E.
Qed.

Lemma loadJobFile_keyed now f st : keyed st -> keyed (loadJobFile now f st).2.
Proof.
  intros Hk k j. rewrite loadJobFile_eval. cbn [snd].
  destruct f.2 as [|s|]; [apply Hk| |apply Hk].
  destruct (isTerminal _);
    [destruct (bool_decide _) | destruct (decide _)];
    cbn [jobs set_jobs set_disk];
    try apply Hk;
    (destruct (decide (ser_id s = k)) as [<-|Hne];
     [ rewrite lookup_insert_eq; intros [= <-]; apply deserializeJob_fields
     | rewrite lookup_insert_ne by done; apply Hk ]).
Qed.

Lemma initialize_keyed now st : keyed st -> keyed (initialize now st).2.
Proof.
  intros Hk. unfold initialize, loadPersistedJobs. eff_unfold.
  destruct (persistToFile _); [|done].
  generalize (jsonFiles st). intros files. revert st Hk.
  induction files as [|f files IH]; intros st Hk; [done|].
  rewrite forEach_cons. by apply IH, loadJobFile_keyed.
Qed.

End Keyed.

(** ** The fuel of the loop is the iteration budget *)

Section Fuel.

Import LoopExecutor.

Variable options : ExecuteLoopOptions.
Variable hook : option (IterationResult -> World -> World).
Variable worker : Z -> UserStory -> World -> ExecuteResult StoryData * World.

Lemma iterationBody_iteration story result l w :
  iteration (iterationBody options hook story result (l, w)).2.1 = iteration l.
Proof.
  destruct l as [spec path i its].
  unfold iterationBody, callHook, iterResult.
  unfold onLocals, onWorld, onFs, ProgressTracker.append, Fs.appendFile,
    PRD.save, Fs.writeFile.
  eff_unfold. cbn.
  destruct (if er_success result then er_data result else None) as [data|]; cbn.
  - destruct (sd_passes data); cbn; [reflexivity|].
    destruct path; cbn;
      destruct (lo_cancelToken options); cbn;
      repeat match goal with
             | |- context [CancellationToken.isCancelled ?t ?w] =>
                 destruct (CancellationToken.isCancelled t w)
             end; reflexivity.
  - destruct (decide _); cbn; [reflexivity|].
    destruct (lo_cancelToken options); cbn;
      repeat match goal with
             | |- context [CancellationToken.isCancelled ?t ?w] =>
                 destruct (CancellationToken.isCancelled t w)
             end; reflexivity.
Qed.

Lemma afterWorker_iteration story result l w :
  iteration (afterWorker options hook story result (l, w)).2.1 = iteration l.
Proof.
  pose proof (iterationBody_iteration story result l w) as H.
  unfold afterWorker.
  destruct (iterationBody options hook story result (l, w)) as [[[]|e] s']; exact H.
Qed.

(** Once the fuel covers the iterations left, more fuel changes nothing: the
    [while] condition ends the loop first. *)
Lemma loop_fuel_enough fuel s :
  maxIterations options - iteration s.1 <= Z.of_nat fuel ->
  loop options hook worker (S fuel) s = loop options hook worker fuel s.
Proof.
  revert s. induction fuel as [|fuel IH]; intros [l w] Hfuel; simpl in Hfuel.
  - cbn [loop]. unfold loopHead. cbn [fst snd].
    rewrite bool_decide_false by lia. reflexivity.
  - change (loop options hook worker (S (S fuel)) (l, w))
      with (match loopHead options (l, w) with
            | (Done r, s') => (r, s')
            | (AwaitWorker story, s') =>
                let '(result, w') := worker (iteration s'.1) story s'.2 in
                match afterWorker options hook story result (s'.1, w') with
                | (Some r, s'') => (r, s'')
                | (None, s'') => loop options hook worker (S fuel) s''
                end
            end).
    change (loop options hook worker (S fuel) (l, w))
      with (match loopHead options (l, w) with
            | (Done r, s') => (r, s')
            | (AwaitWorker story, s') =>
                let '(result, w') := worker (iteration s'.1) story s'.2 in
                match afterWorker options hook story result (s'.1, w') with
                | (Some r, s'') => (r, s'')
                | (None, s'') => loop options hook worker fuel s''
                end
            end).
    destruct (loopHead options (l, w)) as [[story|r] [l1 w1]] eqn:Hhead; [|done].
    assert (Hl1 : iteration l1 = iteration l + 1).
    { unfold loopHead in Hhead. cbn [fst snd] in Hhead.
      case_bool_decide; [|done].
      destruct (PRD.getNextStory _); by injection Hhead as _ <- _. }
    cbn [fst snd].
    destruct (worker (iteration l1) story w1) as [result w2].
    pose proof (afterWorker_iteration story result l1 w2) as Hit.
    destruct (afterWorker options hook story result (l1, w2)) as [[r|] [l3 w3]];
      [done|].
    apply IH. cbn [fst snd] in *. lia.
Qed.

End Fuel.

(** * Further properties of the code *)

(** ** The job store: deletion and cleanup *)

Section StoreRemoval.

Import JobStore.

Lemma delete_eval jobId st :
  delete jobId st
  = (Return tt,
     mk (base.delete jobId (jobs st)) (options st)
        (if persistToFile (options st)
         then unlink (getJobFilePath st jobId) (disk st) else disk st)).
Proof.
  unfold delete. eff_unfold. cbn. destruct st as [j o d]. cbn.
  by destruct (persistToFile o).
Qed.

Lemma unlink_not_elem path d : path ∉ (unlink path d).*1.
Proof.
  intros H. apply list_elem_of_fmap in H as ([n c] & -> & Hin).
  unfold unlink in Hin. apply list_elem_of_filter in Hin as [Hne _]. by apply Hne.
Qed.

Lemma unlink_subset path d x : x ∈ unlink path d -> x ∈ d.
Proof. unfold unlink. rewrite list_elem_of_filter. tauto. Qed.

Lemma unlink_unlink path d : unlink path (unlink path d) = unlink path d.
Proof.
  unfold unlink. rewrite list_filter_filter. apply list_filter_iff. tauto.
Qed.

Lemma forEach_delete_eval keys st :
  exists st',
    forEach keys delete st = (Return tt, st') /\
    options st' = options st /\
    (forall k, jobs st' !! k = if decide (k ∈ keys) then None else jobs st !! k) /\
    (forall x, x ∈ disk st' -> x ∈ disk st) /\
    (persistToFile (options st) = true ->
     forall k, k ∈ keys -> getJobFilePath st k ∉ (disk st').*1).
Proof.
  revert st. induction keys as [|key keys IH]; intros st.
  - exists st. split; [done|]. split; [done|]. split; [|split; [done|]].
    + intros k. destruct (decide (k ∈ [])) as [Hin|]; [|done].
      by apply elem_of_nil in Hin.
    + intros _ k Hin. by apply elem_of_nil in Hin.
  - cbn [forEach]. unfold bind. rewrite delete_eval.
    set (st1 := mk _ _ _).
    destruct (IH st1) as (st' & Hrun & Ho & Hj & Hd & Hf).
    exists st'. rewrite Hrun. split; [done|]. split; [by rewrite Ho|].
    split; [|split].
    + intros k. rewrite Hj. unfold st1. cbn.
      destruct (decide (k = key)) as [->|Hne].
      * rewrite lookup_delete_eq.
        destruct (decide (key ∈ keys)),
          (decide (key ∈ key :: keys)) as [|Hn]; try done; exfalso; apply Hn; left.
      * rewrite lookup_delete_ne by done.
        destruct (decide (k ∈ keys)) as [Hin|Hnin],
          (decide (k ∈ key :: keys)) as [Hin'|Hnin']; try done.
        -- exfalso. apply Hnin'. by right.
        -- exfalso. apply elem_of_cons in Hin' as [?|?]; done.
    + intros x Hx. apply Hd in Hx. unfold st1 in Hx. cbn in Hx.
      destruct (persistToFile (options st)); [by eapply unlink_subset|done].
    + intros Hp k [->|Hin]%elem_of_cons.
      * intros Hname. apply list_elem_of_fmap in Hname as (x & Hx1 & Hx2).
        apply Hd in Hx2. unfold st1 in Hx2. cbn [disk] in Hx2. rewrite Hp in Hx2.
        apply (unlink_not_elem (getJobFilePath st key) (disk st)).
        apply list_elem_of_fmap. eauto.
      * apply (Hf Hp k Hin).
Qed.

End StoreRemoval.

(** X1. [delete] never throws. Afterwards the id is not in the store and every
    other job is as before. With persistence on, no file is left at the path
    that [getJobFilePath] gives for the id, and the files at every other path
    are as before; without persistence the disk is not touched. Deleting
    again changes nothing. *)
Theorem delete_removes_job (jobId : string) (st : JobStore.t) :
  let st' := (JobStore.delete jobId st).2 in
  (JobStore.delete jobId st).1 = Return tt /\
  JobStore.jobs st' !! jobId = None /\
  (forall k, k <> jobId -> JobStore.jobs st' !! k = JobStore.jobs st !! k) /\
  JobStore.options st' = JobStore.options st /\
  (persistToFile (JobStore.options st) = true ->
   JobStore.getJobFilePath st jobId ∉ (JobStore.disk st').*1) /\
  (persistToFile (JobStore.options st) = true ->
   forall file,
     file ∈ JobStore.disk st' <->
     file ∈ JobStore.disk st /\ file.1 <> JobStore.getJobFilePath st jobId) /\
  (persistToFile (JobStore.options st) = false ->
   JobStore.disk st' = JobStore.disk st) /\
  JobStore.delete jobId st' = (Return tt, st').
Proof.
  intros st'. unfold st'. rewrite !delete_eval.
  cbn [fst snd JobStore.jobs JobStore.options JobStore.disk].
  split; [done|]. split; [apply lookup_delete_eq|].
  split; [intros k Hk; by apply lookup_delete_ne|]. split; [done|].
  split; [|split; [|split]].
  - intros ->. apply unlink_not_elem.
  - intros -> file. unfold JobStore.unlink. rewrite list_elem_of_filter. tauto.
  - by intros ->.
  - rewrite delete_delete_eq. unfold JobStore.getJobFilePath.
    cbn [JobStore.options].
    destruct (persistToFile _); [by rewrite unlink_unlink|done].
Qed.

(** X2. [cleanup] never throws and returns the number of jobs it deleted: the
    jobs that are terminal and whose completion time (creation time if they
    have none) lies more than [maxJobAge] back. Those are gone from the store,
    with their files when persistence is on; every other job, a terminal job
    of age exactly [maxJobAge] included, is as before. *)
Theorem cleanup_deletes_expired_jobs (now : Z) (st : JobStore.t) :
  let old := JobStore.expired now (maxJobAge (JobStore.options st)) in
  exists st',
    JobStore.cleanup now st
    = (Return (Z.of_nat (size (filter (fun kv => old kv.2 = true) (JobStore.jobs st)))),
       st') /\
    (forall k job, JobStore.jobs st !! k = Some job -> old job = true ->
       JobStore.jobs st' !! k = None /\
       (persistToFile (JobStore.options st) = true ->
        JobStore.getJobFilePath st k ∉ (JobStore.disk st').*1)) /\
    (forall k job, JobStore.jobs st !! k = Some job -> old job = false ->
       JobStore.jobs st' !! k = Some job) /\
    (forall k, JobStore.jobs st !! k = None -> JobStore.jobs st' !! k = None) /\
    (forall k job, JobStore.jobs st !! k = Some job ->
       isTerminal (job_status job) = true ->
       now - nullish (job_completedAt job) (job_createdAt job)
         = maxJobAge (JobStore.options st) ->
       JobStore.jobs st' !! k = Some job).
Proof.
  intros old. unfold JobStore.cleanup. unfold bind at 1, get_state at 1.
  set (expiredJobs := filter (fun kv => old kv.2 = true) (JobStore.jobs st)).
  set (keys := (map_to_list expiredJobs).*1).
  destruct (forEach_delete_eval keys st) as (st' & Hrun & Ho & Hj & Hd & Hf).
  assert (Hkeys : forall k, k ∈ keys <->
            exists job, JobStore.jobs st !! k = Some job /\ old job = true).
  { intros k. unfold keys. rewrite list_elem_of_fmap. split.
    - intros ([k' job] & -> & Hin). apply elem_of_map_to_list in Hin.
      apply map_lookup_filter_Some in Hin as [? ?]. eauto.
    - intros (job & Hjob & Hold). exists (k, job). split; [done|].
      apply elem_of_map_to_list. by apply map_lookup_filter_Some. }
  exists st'. unfold bind. fold old. fold expiredJobs. fold keys. rewrite Hrun.
  split.
  { unfold ret. do 3 f_equal. unfold keys. by rewrite length_fmap, length_map_to_list. }
  assert (Hkeep : forall k job, JobStore.jobs st !! k = Some job -> old job = false ->
                                JobStore.jobs st' !! k = Some job).
  { intros k job Hjob Hold. rewrite Hj. rewrite decide_False; [done|].
    intros (job' & Hjob' & Hold')%Hkeys. congruence. }
  split; [|split; [exact Hkeep|split]].
  - intros k job Hjob Hold.
    assert (k ∈ keys) as Hin by (apply Hkeys; eauto).
    split; [by rewrite Hj, decide_True|]. intros Hp. by apply Hf.
  - intros k Hnone. rewrite Hj. by destruct (decide _).
  - intros k job Hjob Hterm Hage. apply Hkeep; [done|].
    unfold old, JobStore.expired. rewrite Hterm. cbn.
    apply bool_decide_false. lia.
Qed.

(** ** The job store: updates *)

(** X3. The three updates of a job that is not in the store throw the
    job-not-found error and leave the store, map and files, exactly as it
    was. *)
Theorem updates_of_unknown_job_throw (jobId : string) (st : JobStore.t) :
  JobStore.jobs st !! jobId = None ->
  (forall now status error,
     JobStore.updateStatus now jobId status error st = (Throw (JobNotFound jobId), st)) /\
  (forall now progress,
     JobStore.updateProgress now jobId progress st = (Throw (JobNotFound jobId), st)) /\
  (forall result,
     JobStore.updateResult jobId result st = (Throw (JobNotFound jobId), st)).
Proof.
  intros Hnone. split; [|split].
  - intros. by apply updateStatus_missing.
  - intros. by apply updateProgress_missing.
  - intros. unfold JobStore.updateResult, JobStore.require, JobStore.get.
    eff_unfold. by rewrite Hnone.
Qed.

(** X3 on the store that holds job-1 only. *)
Lemma updates_of_unknown_job_throw_witness :
  JobStore.updateStatus 5 "job-9" Completed None Examples.store1
    = (Throw (JobNotFound "job-9"), Examples.store1) /\
  JobStore.updateProgress 5 "job-9" Examples.partial1 Examples.store1
    = (Throw (JobNotFound "job-9"), Examples.store1).
Proof.
  destruct (updates_of_unknown_job_throw "job-9" Examples.store1 eq_refl)
    as (Hs & Hp & _).
  split; [apply Hs | apply Hp].
Defined.

Section StoreUpdates.

Import JobStore.

Lemma evolves_refl job : evolves job job.
Proof. by repeat split. Qed.

Lemma evolves_trans j1 j2 j3 : evolves j1 j2 -> evolves j2 j3 -> evolves j1 j3.
Proof.
  intros (a1&a2&a3&a4&a5&a6&a7&a8&a9&a10) (b1&b2&b3&b4&b5&b6&b7&b8&b9&b10).
  repeat split; try congruence; auto.
Qed.

Lemma withStatus_evolves now s e job : evolves job (withStatus now s e job).
Proof.
  unfold withStatus.
  destruct (decide (s = Running)), (job_startedAt (set_status s job)) eqn:Es,
    (isTerminal s), (truthy e) eqn:Et; simpl in *;
    repeat split; simpl; try done; try congruence; eauto;
    try (intros _; destruct e; [eauto|discriminate]).
Qed.

Lemma applyUpdate_found jobId u st job :
  jobs st !! jobId = Some job ->
  exists job', applyUpdate jobId u st = save job' st /\ evolves job job'.
Proof.
  intros Hjob. destruct u as [now s e|now p|r]; simpl.
  - rewrite (updateStatus_found _ _ _ _ _ _ Hjob). eexists. split; [done|].
    apply withStatus_evolves.
  - rewrite (updateProgress_found _ _ _ _ _ Hjob). eexists. split; [done|].
    repeat split; simpl; eauto.
  - rewrite (updateResult_found _ _ _ _ Hjob). eexists. split; [done|].
    repeat split; simpl; eauto.
Qed.

Lemma updates_evolve jobId updates st job :
  jobs st !! jobId = Some job -> job_id job = jobId ->
  exists st' job',
    forEach updates (applyUpdate jobId) st = (Return tt, st') /\
    jobs st' !! jobId = Some job' /\ evolves job job' /\
    forall k, k <> jobId -> jobs st' !! k = jobs st !! k.
Proof.
  revert st job. induction updates as [|u updates IH]; intros st job Hjob Hid.
  - exists st, job. split; [done|]. split; [done|]. split; [apply evolves_refl|done].
  - destruct (applyUpdate_found jobId u st job Hjob) as (job1 & Hu & Hev).
    assert (Hid1 : job_id job1 = jobId) by (destruct Hev as (-> & _); done).
    assert (H1 : jobs (save job1 st).2 !! jobId = Some job1).
    { rewrite save_jobs, Hid1. apply lookup_insert_eq. }
    destruct (IH _ _ H1 Hid1) as (st' & job' & Hrun & Hjob' & Hev' & Hother).
    exists st', job'. cbn [forEach]. unfold bind. rewrite Hu, save_eval, Hrun.
    split; [done|]. split; [done|]. split; [by eapply evolves_trans|].
    intros k Hk. rewrite (Hother k Hk), save_jobs, Hid1. by apply lookup_insert_ne.
Qed.

End StoreUpdates.

(** X4. Whatever sequence of [updateStatus], [updateProgress] and
    [updateResult] calls is made for a stored job, none of them throws, the job
    stays in the store under its id with the same type, creation time, options
    and iterations, a [startedAt] that was set keeps its value, and
    [completedAt], [error], [result] and [progress] are never cleared; the
    other jobs are not touched. *)
Theorem updates_keep_identity
    (jobId : string) (updates : list JobStore.Update) (st : JobStore.t) (job : Job) :
  JobStore.jobs st !! jobId = Some job ->
  job_id job = jobId ->
  exists st' job',
    JobStore.forEach updates (JobStore.applyUpdate jobId) st = (Return tt, st') /\
    JobStore.jobs st' !! jobId = Some job' /\
    job_id job' = jobId /\
    job_type job' = job_type job /\
    job_createdAt job' = job_createdAt job /\
    job_options job' = job_options job /\
    job_iterations job' = job_iterations job /\
    (forall t, job_startedAt job = Some t -> job_startedAt job' = Some t) /\
    (is_Some (job_completedAt job) -> is_Some (job_completedAt job')) /\
    (is_Some (job_error job) -> is_Some (job_error job')) /\
    (is_Some (job_result job) -> is_Some (job_result job')) /\
    (is_Some (job_progress job) -> is_Some (job_progress job')) /\
    (forall k, k <> jobId -> JobStore.jobs st' !! k = JobStore.jobs st !! k).
Proof.
  intros Hjob Hid.
  destruct (updates_evolve jobId updates st job Hjob Hid)
    as (st' & job' & Hrun & Hjob' & (e1&e2&e3&e4&e5&e6&e7&e8&e9&e10) & Hother).
  exists st', job'. repeat split; try done. congruence.
Qed.

(** X4 on job-1: set running twice, with a progress update in between. *)
Lemma updates_keep_identity_witness :
  exists st' job',
    JobStore.forEach
      [JobStore.SetStatus 1100 Running None;
       JobStore.SetProgress 1200 Examples.partial1;
       JobStore.SetStatus 1300 Running None;
       JobStore.SetStatus 1400 Completed (Some "")]
      (JobStore.applyUpdate "job-1")
      (JobStore.updateStatus 1050 "job-1" Running None Examples.store1).2
    = (Return tt, st') /\
    JobStore.jobs st' !! "job-1" = Some job' /\
    job_startedAt job' = Some 1050 /\ job_createdAt job' = 1000.
Proof.
  destruct (updates_keep_identity "job-1"
              [JobStore.SetStatus 1100 Running None;
               JobStore.SetProgress 1200 Examples.partial1;
               JobStore.SetStatus 1300 Running None;
               JobStore.SetStatus 1400 Completed (Some "")]
              (JobStore.updateStatus 1050 "job-1" Running None Examples.store1).2
              (JobStore.withStatus 1050 Running None Examples.job1) eq_refl eq_refl)
    as (st' & job' & Hrun & Hjob & _ & _ & Hcreated & _ & _ & Hstarted & _).
  exists st', job'. split; [exact Hrun|]. split; [exact Hjob|].
  split; [exact (Hstarted 1050 eq_refl) | exact Hcreated].
Defined.

(** ** The job store: job files and restarts *)

Section JobFiles.

Import JobStore.







Lemma writeFile_elem_inv path c d x :
  x ∈ writeFile path c d -> x = (path, c) \/ x ∈ d.
Proof.
  induction d as [|[n c'] d IH]; simpl.
  - intros ->%list_elem_of_singleton. by left.
  - destruct (decide (n = path)) as [->|Hne].
    + intros [->|Hin]%elem_of_cons; [by left|]. right. by right.
    + intros [->|Hin]%elem_of_cons; [right; left|].
      destruct (IH Hin) as [->|?]; [by left|]. right. by right.
Qed.

Lemma writeFile_names path c d n :
  n ∈ (writeFile path c d).*1 <-> n = path \/ n ∈ d.*1.
Proof.
  induction d as [|[n' c'] d IH]; simpl.
  - rewrite list_elem_of_singleton, elem_of_nil. tauto.
  - destruct (decide (n' = path)) as [->|Hne]; simpl.
    + rewrite !elem_of_cons. tauto.
    + rewrite !elem_of_cons, IH. tauto.
Qed.

Lemma writeFile_NoDup path c d : NoDup d.*1 -> NoDup (writeFile path c d).*1.
Proof.
  induction d as [|[n' c'] d IH]; simpl; intros Hnd.
  - apply NoDup_singleton.
  - apply NoDup_cons in Hnd as [Hnotin Hnd].
    destruct (decide (n' = path)) as [->|Hne]; simpl.
    + by apply NoDup_cons.
    + apply NoDup_cons. split; [|by apply IH].
      rewrite writeFile_names. intros [?|?]; done.
Qed.

Lemma unlink_NoDup path (d : list (Path * FileContent)) :
  NoDup d.*1 -> NoDup (unlink path d).*1.
Proof.
  unfold unlink. induction d as [|[n c] d IH]; [done|]. intros Hnd.
  simpl in Hnd. apply NoDup_cons in Hnd as [Hnotin Hnd].
  rewrite filter_cons. destruct (decide _); simpl; [|by apply IH].
  apply NoDup_cons. split; [|by apply IH].
  intros Hin. apply Hnotin. apply list_elem_of_fmap in Hin as (x & -> & Hx).
  apply list_elem_of_filter in Hx as [_ Hx]. apply list_elem_of_fmap. eauto.
Qed.

Lemma save_state job st :
  save job st
  = (Return tt,
     mk (<[job_id job := job]> (jobs st)) (options st)
        (if persistToFile (options st)
         then writeFile (getJobFilePath st (job_id job))
                        (JobFile (jsonCopy (serializeJob job))) (disk st)
         else disk st)).
Proof.
  unfold save, persistJob. eff_unfold. destruct st as [j o d]. cbn.
  by destruct (persistToFile o).
Qed.

(** The three ways in which an operation changes the disk keep it as the
    store writes it. *)
Lemma storeWritten_same st st' :
  storeWritten st -> options st' = options st -> disk st' = disk st -> storeWritten st'.
Proof.
  intros [Hnd Hpaths] Ho Hd. unfold storeWritten, getJobFilePath.
  rewrite Ho, Hd. by split.
Qed.

Lemma storeWritten_unlink st st' path :
  storeWritten st -> options st' = options st -> disk st' = unlink path (disk st) ->
  storeWritten st'.
Proof.
  intros [Hnd Hpaths] Ho Hd. unfold storeWritten, getJobFilePath.
  rewrite Ho, Hd. split; [by apply unlink_NoDup|].
  intros p s Hin. apply Hpaths. by eapply unlink_subset.
Qed.

Lemma storeWritten_write st st' job :
  storeWritten st -> options st' = options st ->
  disk st' = writeFile (getJobFilePath st (job_id job))
                       (JobFile (jsonCopy (serializeJob job))) (disk st) ->
  storeWritten st'.
Proof.
  intros [Hnd Hpaths] Ho Hd. unfold storeWritten, getJobFilePath.
  rewrite Ho, Hd. split; [by apply writeFile_NoDup|].
  intros p s [Heq|Hin]%writeFile_elem_inv; [|by apply Hpaths].
  by injection Heq as -> ->.
Qed.

Lemma storeWritten_create cwd persist dir maxAge interval :
  storeWritten (create cwd persist dir maxAge interval).
Proof. split; [apply NoDup_nil_2|]. intros p s H. by apply elem_of_nil in H. Qed.

Lemma omap_fileId_cons f (files : list (string * FileContent)) :
  omap fileId (f :: files)
  = match fileId f with
    | Some k => k :: omap fileId files
    | None => omap fileId files
    end.
Proof. reflexivity. Qed.

(** On a disk that the store wrote, the job files of the store directory
    hold distinct ids. *)
Lemma storeWritten_ids st : storeWritten st -> NoDup (omap fileId (jsonFiles st)).
Proof.
  intros [Hnd Hpaths]. unfold jsonFiles, readdir.
  set (dir := storeDir (options st)).
  induction (disk st) as [|[p c] d IH]; [apply NoDup_nil_2|].
  simpl in Hnd. apply NoDup_cons in Hnd as [Hnotin Hnd].
  assert (Hrest : NoDup (omap fileId
            (filter (fun f => endsWith f.1 ".json" = true) (omap (entry dir) d)))).
  { apply IH; [done|]. intros p' s Hin. apply Hpaths. by right. }
  cbn [omap list_omap]. destruct (entry dir (p, c)) as [[n c0]|] eqn:He; [|done].
  apply entry_Some in He as ([= -> ->] & Hn).
  rewrite filter_cons. destruct (decide _); [|done].
  rewrite omap_fileId_cons. unfold fileId at 1. simpl.
  destruct c0 as [|s|]; [done| |done].
  apply NoDup_cons. split; [|done].
  intros Hin. apply list_elem_of_omap in Hin as ([n' c'] & Hin & Hid).
  apply list_elem_of_filter in Hin as [_ Hin].
  apply list_elem_of_omap in Hin as (f & Hf & He). apply entry_Some in He as (-> & _).
  unfold fileId in Hid. simpl in Hid. destruct c' as [|s'|]; [done| |done].
  injection Hid as Hid.
  apply Hnotin. apply list_elem_of_fmap. exists (dir ++ [n'], JobFile s').
  split; [|done]. simpl.
  rewrite (Hpaths (dir ++ [n]) s) by left.
  rewrite (Hpaths (dir ++ [n']) s') by by right.
  by rewrite Hid.
Qed.



Lemma serialize_fields job :
  ser_id (serializeJob job) = job_id job /\
  ser_status (serializeJob job) = job_status job /\
  ser_createdAt (serializeJob job) = job_createdAt job /\
  ser_completedAt (serializeJob job) = job_completedAt job.
Proof. done. Qed.

End JobFiles.





(** A job whose id climbs out of the store directory is written beside it,
    and a new store over the same disk does not find it. *)
Lemma save_outside_the_directory :
  let saved := (JobStore.save Examples.jobOutside Examples.persistentStore).2 in
  JobStore.getJobFilePath Examples.persistentStore "../x" = Examples.cwd ++ ["x.json"] /\
  (JobStore.disk saved).*1 = [Examples.cwd ++ ["x.json"]] /\
  JobStore.jsonFiles (JobStore.restart saved) = [] /\
  JobStore.jobs (JobStore.initialize 2000 (JobStore.restart saved)).2 !! "../x" = None.
Proof. by vm_compute. Qed.

(** ** The job store: what every operation keeps *)

Section StoreInvariants.

Import JobStore.

Lemma delete_keyed jobId st : keyed st -> keyed (delete jobId st).2.
Proof.
  intros Hk k j. rewrite delete_eval. cbn [snd jobs].
  intros H. apply lookup_delete_Some in H as [_ H]. by apply Hk.
Qed.

Lemma cleanup_keyed now st : keyed st -> keyed (cleanup now st).2.
Proof.
  intros Hk k j. unfold cleanup. unfold bind at 1, get_state at 1.
  match goal with
  | |- context [forEach ?keys delete] =>
      destruct (forEach_delete_eval keys st) as (st' & Hrun & _ & Hj & _)
  end.
  unfold bind. rewrite Hrun. cbn [snd]. rewrite Hj.
  destruct (decide _); [done|apply Hk].
Qed.

Lemma loadJobFile_storeWritten now f st :
  storeWritten st -> storeWritten (loadJobFile now f st).2.
Proof.
  intros Hw. rewrite loadJobFile_eval. cbn [snd].
  destruct f.2 as [|s|]; [done| |by eapply storeWritten_unlink].
  destruct (isTerminal _); [|by eapply storeWritten_same].
  destruct (bool_decide _); [by eapply storeWritten_same|by eapply storeWritten_unlink].
Qed.

Lemma initialize_storeWritten now st :
  storeWritten st -> storeWritten (initialize now st).2.
Proof.
  intros Hw. unfold initialize, loadPersistedJobs. eff_unfold.
  destruct (persistToFile _); [|done].
  generalize (jsonFiles st). intros files. revert st Hw.
  induction files as [|f files IH]; intros st Hw; [done|].
  rewrite forEach_cons. by apply IH, loadJobFile_storeWritten.
Qed.

Lemma save_storeWritten job st : storeWritten st -> storeWritten (save job st).2.
Proof.
  intros Hw. rewrite save_state. cbn [snd].
  destruct (persistToFile _);
    [by eapply storeWritten_write|by eapply storeWritten_same].
Qed.

Lemma delete_storeWritten jobId st : storeWritten st -> storeWritten (delete jobId st).2.
Proof.
  intros Hw. rewrite delete_eval. cbn [snd].
  destruct (persistToFile _);
    [by eapply storeWritten_unlink|by eapply storeWritten_same].
Qed.

Lemma forEach_delete_storeWritten keys st :
  storeWritten st -> storeWritten (forEach keys delete st).2.
Proof.
  revert st. induction keys as [|key keys IH]; intros st Hw; [done|].
  cbn [forEach]. unfold bind.
  pose proof (delete_storeWritten key st Hw) as Hw1.
  rewrite delete_eval in *. cbn [snd] in Hw1. by apply IH.
Qed.

Lemma cleanup_storeWritten now st : storeWritten st -> storeWritten (cleanup now st).2.
Proof.
  intros Hw. unfold cleanup. unfold bind at 1, get_state at 1.
  match goal with
  | |- context [forEach ?keys delete] =>
      pose proof (forEach_delete_storeWritten keys st Hw) as Hw';
      destruct (forEach_delete_eval keys st) as (st' & Hrun & _)
  end.
  unfold bind. rewrite Hrun in *. exact Hw'.
Qed.

Lemma update_storeWritten jobId u st :
  storeWritten st -> storeWritten (applyUpdate jobId u st).2.
Proof.
  intros Hw. destruct (jobs st !! jobId) as [job|] eqn:E.
  - destruct (applyUpdate_found jobId u st job E) as (job' & -> & _).
    by apply save_storeWritten.
  - destruct u; simpl.
    + by rewrite updateStatus_missing.
    + by rewrite updateProgress_missing.
    + unfold updateResult, require, get. eff_unfold. by rewrite E.
Qed.

Lemma update_keyed jobId u st : keyed st -> keyed (applyUpdate jobId u st).2.
Proof.
  intros Hk. destruct u; simpl.
  - by apply updateStatus_keyed.
  - by apply updateProgress_keyed.
  - by apply updateResult_keyed.
Qed.

End StoreInvariants.

(** X7. Every job of the store is filed under its own id: this holds for a new
    store and is kept by [save], by the three updates, by [delete], by
    [cleanup] and by [initialize]. *)
Theorem store_files_jobs_under_their_ids :
  (forall cwd persist dir maxAge interval,
     JobStore.keyed (JobStore.create cwd persist dir maxAge interval)) /\
  (forall st, JobStore.keyed st ->
     (forall job, JobStore.keyed (JobStore.save job st).2) /\
     (forall jobId u, JobStore.keyed (JobStore.applyUpdate jobId u st).2) /\
     (forall jobId, JobStore.keyed (JobStore.delete jobId st).2) /\
     (forall now, JobStore.keyed (JobStore.cleanup now st).2) /\
     (forall now, JobStore.keyed (JobStore.initialize now st).2)).
Proof.
  split; [apply create_keyed|]. intros st Hk. repeat split.
  - intros job. by apply save_keyed.
  - intros jobId u. by apply update_keyed.
  - intros jobId. by apply delete_keyed.
  - intros now. by apply cleanup_keyed.
  - intros now. by apply initialize_keyed.
Qed.

(** X7 on the directory found at a restart: the loaded jobs are filed under
    their ids. *)
Lemma store_files_jobs_under_their_ids_witness :
  JobStore.keyed (JobStore.initialize (3 * Examples.day) Examples.restartStore).2.
Proof.
  destruct store_files_jobs_under_their_ids as (_ & H).
  apply (H Examples.restartStore).
  intros k j Hk. vm_compute in Hk. discriminate.
Defined.

(** X8. The disk stays as the store writes it: a path names one file, and each
    job file lies at the path that [getJobFilePath] computes for the id that
    the file holds. This holds for a new store and is kept by [save], by the
    three updates, by [delete], by [cleanup] and by [initialize]; and on such
    a disk the job files of the store directory hold distinct ids. (It is
    kept as well when the write of [save] fails, after [jobs.set]: the disk is
    then as it was.) The path of an id is [path.join(storeDir, id + ".json")]:
    for an id that is a plain name it is the file [<id>.json] of the store
    directory; an id with path segments is resolved, so that ["./x"] has the
    path of ["x"], ["../x"] a path in the parent directory, and ["a/b"] a path
    in a sub-directory. *)
Theorem store_directory_stays_written :
  (forall cwd persist dir maxAge interval,
     JobStore.storeWritten (JobStore.create cwd persist dir maxAge interval)) /\
  (forall st, JobStore.storeWritten st ->
     (forall job, JobStore.storeWritten (JobStore.save job st).2) /\
     (forall job,
        JobStore.storeWritten
          (JobStore.set_jobs (<[job_id job := job]> (JobStore.jobs st)) st)) /\
     (forall jobId u, JobStore.storeWritten (JobStore.applyUpdate jobId u st).2) /\
     (forall jobId, JobStore.storeWritten (JobStore.delete jobId st).2) /\
     (forall now, JobStore.storeWritten (JobStore.cleanup now st).2) /\
     (forall now, JobStore.storeWritten (JobStore.initialize now st).2) /\
     NoDup (omap JobStore.fileId (JobStore.jsonFiles st))) /\
  (forall st jobId,
     JobStore.plain jobId = true ->
     JobStore.getJobFilePath st jobId
     = storeDir (JobStore.options st) ++ [jobId +:+ ".json"]) /\
  (forall st,
     JobStore.getJobFilePath st "./x" = JobStore.getJobFilePath st "x" /\
     JobStore.getJobFilePath st "../x"
     = removelast (storeDir (JobStore.options st)) ++ ["x.json"] /\
     JobStore.getJobFilePath st "a/b"
     = storeDir (JobStore.options st) ++ ["a"; "b.json"]).
Proof.
  split; [apply storeWritten_create|]. split; [|split].
  - intros st Hw. repeat split.
    + by apply save_storeWritten.
    + by apply save_storeWritten.
    + by eapply storeWritten_same.
    + by eapply storeWritten_same.
    + by apply update_storeWritten.
    + by apply update_storeWritten.
    + by apply delete_storeWritten.
    + by apply delete_storeWritten.
    + by apply cleanup_storeWritten.
    + by apply cleanup_storeWritten.
    + by apply initialize_storeWritten.
    + by apply initialize_storeWritten.
    + by apply storeWritten_ids.
  - apply getJobFilePath_plain.
  - intros st. unfold JobStore.getJobFilePath, JobStore.join.
    generalize (storeDir (JobStore.options st)). intros dir.
    split; [reflexivity|]. split; [reflexivity|].
    change (fold_left JobStore.step (JobStore.segments ("a/b" +:+ ".json")) dir)
      with ((dir ++ ["a"]) ++ ["b.json"]).
    by rewrite <- app_assoc.
Qed.

(** X8 on the persistent store after a save. *)
Lemma store_directory_stays_written_witness :
  JobStore.storeWritten (JobStore.save Examples.runningJob1 Examples.persistentStore).2.
Proof.
  destruct store_directory_stays_written as (Hnew & H & _).
  apply (H Examples.persistentStore). apply Hnew.
Defined.

(** The ids ["x"] and ["./x"] share a file: the second save replaces the file
    of the first job, and a new store over the same disk finds the second job
    only. *)
Lemma ids_with_one_file :
  let saved :=
    (JobStore.save Examples.jobDotX
       (JobStore.save Examples.jobX Examples.persistentStore).2).2 in
  let st' := (JobStore.initialize 2000 (JobStore.restart saved)).2 in
  (is_Some (JobStore.jobs saved !! "x") /\ is_Some (JobStore.jobs saved !! "./x")) /\
  JobStore.disk saved
  = [(Examples.jobsDir ++ ["x.json"],
      JobStore.JobFile (JobStore.jsonCopy (JobStore.serializeJob Examples.jobDotX)))] /\
  JobStore.jobs st' !! "x" = None /\
  JobStore.jobs st' !! "./x" = Some Examples.jobDotX.
Proof.
  cbv zeta. split; [split; by eexists|]. split; [reflexivity|].
  split; by vm_compute.
Qed.

(** ** The job manager: poll, cancel and delete *)

Section ManagerCalls.

Import JobManager.

Lemma onJobStore_eval {A} (c : Eff JobStore.t A) m :
  onJobStore c m = ((c (store (world m))).1, withStore (c (store (world m))).2 m).
Proof.
  unfold onJobStore, onWorld, onStore, zoom, withStore.
  by destruct (c (store (world m))).
Qed.

Lemma store_withStore st m : store (world (withStore st m)) = st.
Proof. reflexivity. Qed.

Lemma tokens_withStore st m : tokens (world (withStore st m)) = tokens (world m).
Proof. reflexivity. Qed.

Lemma bookkeeping_withStore st m : sameBookkeeping m (withStore st m).
Proof. by repeat split. Qed.

Lemma initialized_withStore st m : initialized (withStore st m) = initialized m.
Proof. reflexivity. Qed.

Lemma withStore_same m : withStore (store (world m)) m = m.
Proof. by destruct m as [[? ? ?] ? ? ? ? ? ?]. Qed.

Lemma ensureInitialized_sets now m : initialized (ensureInitialized now m).2 = true.
Proof.
  unfold ensureInitialized, initialize. eff_unfold.
  destruct (initialized m) eqn:E; simpl; [done|]. rewrite E.
  pose proof (store_initialize_returns now (store (world m))) as Hret.
  rewrite onJobStore_eval. rewrite Hret. done.
Qed.

Lemma get_eval jobId m :
  onJobStore (JobStore.get jobId) m
  = (Return (JobStore.jobs (store (world m)) !! jobId), m).
Proof. rewrite onJobStore_eval. unfold JobStore.get. cbn [fst snd]. by rewrite withStore_same. Qed.

Lemma ensureInitialized_pair now m :
  ensureInitialized now m = (Return tt, (ensureInitialized now m).2).
Proof.
  rewrite (surjective_pairing (ensureInitialized now m)) at 1.
  by rewrite ensureInitialized_returns.
Qed.

Lemma cancel_eval now jobId m :
  let m0 := (ensureInitialized now m).2 in
  cancel now jobId m
  = match JobStore.jobs (store (world m0)) !! jobId with
    | None => (Throw (JobNotFound jobId), m0)
    | Some job =>
        if isTerminal (job_status job) then (Return false, m0)
        else
          let m1 := match cancellationTokens m0 !! jobId with
                    | Some token =>
                        set_world (set_tokens (<[token := true]> (tokens (world m0)))
                                              (world m0)) m0
                    | None => m0
                    end in
          (Return true,
           withStore (JobStore.save (JobStore.withStatus now Cancelled None job)
                        (store (world m1))).2 m1)
    end.
Proof.
  intros m0. unfold cancel. unfold bind at 1. rewrite ensureInitialized_pair. fold m0.
  unfold bind at 1. rewrite get_eval.
  destruct (JobStore.jobs (store (world m0)) !! jobId) as [job|] eqn:Hjob; [|done].
  destruct (isTerminal (job_status job)); [done|].
  unfold bind at 1, get_state at 1. unfold bind at 1.
  destruct (cancellationTokens m0 !! jobId) as [token|].
  - unfold onWorld, CancellationToken.cancel, zoom, modify. cbn [fst snd].
    unfold bind at 1. rewrite onJobStore_eval.
    rewrite (updateStatus_found _ _ _ _ _ _ Hjob), save_eval. reflexivity.
  - unfold ret at 1. unfold bind at 1. rewrite onJobStore_eval.
    rewrite (updateStatus_found _ _ _ _ _ _ Hjob), save_eval. reflexivity.
Qed.

Lemma deleteJob_eval now jobId m :
  let m0 := (ensureInitialized now m).2 in
  deleteJob now jobId m
  = match JobStore.jobs (store (world m0)) !! jobId with
    | Some job =>
        if isTerminal (job_status job)
        then (Return tt, withStore (JobStore.delete jobId (store (world m0))).2 m0)
        else (Throw CannotDeleteRunning, m0)
    | None => (Return tt, withStore (JobStore.delete jobId (store (world m0))).2 m0)
    end.
Proof.
  intros m0. unfold deleteJob. unfold bind at 1. rewrite ensureInitialized_pair. fold m0.
  unfold bind at 1. rewrite get_eval.
  destruct (JobStore.jobs (store (world m0)) !! jobId) as [job|] eqn:Hjob.
  - destruct (isTerminal (job_status job)); [|done].
    cbn [negb]. by rewrite onJobStore_eval, delete_eval.
  - by rewrite onJobStore_eval, delete_eval.
Qed.

Lemma poll_eval now jobId m :
  let m0 := (ensureInitialized now m).2 in
  poll now jobId m
  = match JobStore.jobs (store (world m0)) !! jobId with
    | Some job =>
        let finished := isTerminal (job_status job) in
        (Return (mkJobPollResult (job_id job) (job_status job) (job_progress job)
                   finished (if finished then job_result job else None)
                   (job_error job)
                   (if finished then
                      match job_completedAt job, job_startedAt job with
                      | Some completedAt, Some startedAt => Some (completedAt - startedAt)
                      | _, _ => None
                      end
                    else None)), m0)
    | None => (Throw (JobNotFound jobId), m0)
    end.
Proof.
  intros m0. unfold poll. unfold bind at 1. rewrite ensureInitialized_pair. fold m0.
  unfold bind at 1. rewrite get_eval.
  by destruct (JobStore.jobs (store (world m0)) !! jobId).
Qed.

End ManagerCalls.

(** X9. For an id that is not in the store, [poll] and [cancel] throw the
    job-not-found error, [getJob] returns nothing and [deleteJob] returns
    normally; none of them changes the manager beyond its initialization. *)
Theorem calls_on_unknown_job (now : Z) (jobId : string) (m : JobManager.t) :
  let m0 := (JobManager.ensureInitialized now m).2 in
  JobStore.jobs (store (JobManager.world m0)) !! jobId = None ->
  JobManager.poll now jobId m = (Throw (JobNotFound jobId), m0) /\
  JobManager.cancel now jobId m = (Throw (JobNotFound jobId), m0) /\
  JobManager.getJob now jobId m = (Return None, m0) /\
  (JobManager.deleteJob now jobId m).1 = Return tt /\
  JobStore.jobs (store (JobManager.world (JobManager.deleteJob now jobId m).2))
  = JobStore.jobs (store (JobManager.world m0)).
Proof.
  intros m0 Hnone. split; [|split; [|split]].
  - rewrite poll_eval. fold m0. by rewrite Hnone.
  - rewrite cancel_eval. fold m0. by rewrite Hnone.
  - unfold JobManager.getJob. unfold bind. rewrite ensureInitialized_pair. fold m0.
    by rewrite get_eval, Hnone.
  - rewrite deleteJob_eval. fold m0. rewrite Hnone, delete_eval.
    split; [done|]. cbn. by apply delete_id.
Qed.

(** X9 on the manager that holds job-1 only. *)
Lemma calls_on_unknown_job_witness :
  JobManager.poll 1500 "job-9" Examples.manager1
    = (Throw (JobNotFound "job-9"), Examples.manager1) /\
  JobManager.cancel 1500 "job-9" Examples.manager1
    = (Throw (JobNotFound "job-9"), Examples.manager1).
Proof.
  destruct (calls_on_unknown_job 1500 "job-9" Examples.manager1 eq_refl)
    as (Hpoll & Hcancel & _).
  split; [exact Hpoll | exact Hcancel].
Defined.

(** X10. [cancel] of a stored job that is already completed, failed or
    cancelled returns false and changes nothing. Otherwise it returns true: the
    job is cancelled with [completedAt] set to the time of the call, its
    cancellation token, if the manager holds one for it, is set, the executions
    in flight are as before, and a second [cancel] returns false and changes
    nothing. *)
Theorem cancel_marks_cancelled_once
    (now now' : Z) (jobId : string) (m : JobManager.t) (job : Job) :
  let m0 := (JobManager.ensureInitialized now m).2 in
  JobStore.jobs (store (JobManager.world m0)) !! jobId = Some job ->
  job_id job = jobId ->
  (isTerminal (job_status job) = true ->
     JobManager.cancel now jobId m = (Return false, m0)) /\
  (isTerminal (job_status job) = false ->
     exists m' job',
       JobManager.cancel now jobId m = (Return true, m') /\
       JobStore.jobs (store (JobManager.world m')) !! jobId = Some job' /\
       job_status job' = Cancelled /\
       job_completedAt job' = Some now /\
       job_startedAt job' = job_startedAt job /\
       job_result job' = job_result job /\
       (forall token, JobManager.cancellationTokens m !! jobId = Some token ->
          (token < length (tokens (JobManager.world m0)))%nat ->
          CancellationToken.isCancelled token (JobManager.world m') = true) /\
       JobManager.runningJobs m' = JobManager.runningJobs m /\
       JobManager.cancel now' jobId m' = (Return false, m')).
Proof.
  intros m0 Hjob Hid. split.
  - intros Hterm. rewrite cancel_eval. fold m0. by rewrite Hjob, Hterm.
  - intros Hterm.
    destruct (ensureInitialized_eval now m) as (m0' & Hinit & Hb).
    assert (m0' = m0) as -> by (unfold m0; by rewrite Hinit).
    destruct Hb as (Hr & Hc & _).
    set (job' := JobStore.withStatus now Cancelled None job).
    set (m1 := match JobManager.cancellationTokens m0 !! jobId with
               | Some token =>
                   JobManager.set_world
                     (set_tokens (<[token := true]> (tokens (JobManager.world m0)))
                                 (JobManager.world m0)) m0
               | None => m0
               end).
    assert (Hstore1 : store (JobManager.world m1) = store (JobManager.world m0))
      by (unfold m1; by destruct (JobManager.cancellationTokens m0 !! jobId)).
    assert (Hinit1 : JobManager.initialized m1 = true).
    { transitivity (JobManager.initialized m0);
        [unfold m1; by destruct (JobManager.cancellationTokens m0 !! jobId)|].
      apply ensureInitialized_sets. }
    assert (Hrun1 : JobManager.runningJobs m1 = JobManager.runningJobs m0)
      by (unfold m1; by destruct (JobManager.cancellationTokens m0 !! jobId)).
    assert (Hid' : job_id job' = jobId)
      by (unfold job'; by destruct (withStatus_fields now Cancelled None job) as (-> & _)).
    assert (Hdone : job_status job' = Cancelled)
      by apply (withStatus_fields now Cancelled None job).
    set (m' := JobManager.withStore (JobStore.save job' (store (JobManager.world m1))).2 m1).
    assert (Hjob' : JobStore.jobs (store (JobManager.world m')) !! jobId = Some job').
    { unfold m'. rewrite store_withStore, save_jobs, Hid'. apply lookup_insert_eq. }
    exists m', job'. split; [|split; [exact Hjob'|]].
    { rewrite cancel_eval. fold m0. rewrite Hjob, Hterm. reflexivity. }
    split; [exact Hdone|]. split; [reflexivity|]. split; [reflexivity|].
    split; [reflexivity|]. split; [|split].
    + intros token Htok Hlt. rewrite <- Hc in Htok.
      unfold CancellationToken.isCancelled, m'. rewrite tokens_withStore.
      unfold m1.
      destruct (JobManager.cancellationTokens m0 !! jobId) as [tok|] eqn:E;
        [|discriminate Htok].
      injection Htok as ->.
      cbn [JobManager.world JobManager.set_world tokens set_tokens].
      by rewrite list_lookup_insert_eq.
    + rewrite <- Hr. exact Hrun1.
    + rewrite cancel_eval.
      rewrite (ensureInitialized_initialized now' m') by exact Hinit1.
      cbn [snd]. by rewrite Hjob', Hdone.
Qed.

(** X10 on the running job-1. *)
Lemma cancel_marks_cancelled_once_witness :
  exists m' job',
    JobManager.cancel 2000 "job-1" Examples.manager1_running = (Return true, m') /\
    JobStore.jobs (store (JobManager.world m')) !! "job-1" = Some job' /\
    job_status job' = Cancelled /\
    JobManager.cancel 2500 "job-1" m' = (Return false, m').
Proof.
  destruct (cancel_marks_cancelled_once 2000 2500 "job-1" Examples.manager1_running
              (set_progress
                 (Some (mkJobProgress 0 None None 0 1 1001 (Some "Executing task...")))
                 (set_startedAt (Some 1000) (set_status Running Examples.job1)))
              eq_refl eq_refl) as (_ & H).
  destruct (H eq_refl) as (m' & job' & Hc & Hj & Hs & _ & _ & _ & _ & _ & Hagain).
  by exists m', job'.
Defined.

(** X11. [deleteJob] of a stored job that is pending or running throws and
    changes nothing; once the job is cancelled, [deleteJob] returns and the job
    is gone. A job that is completed, failed or cancelled is removed from the
    store at once, and the manager's own maps stay as they are. *)
Theorem deleteJob_refuses_unfinished_job
    (now now' : Z) (jobId : string) (m : JobManager.t) (job : Job) :
  let m0 := (JobManager.ensureInitialized now m).2 in
  JobStore.jobs (store (JobManager.world m0)) !! jobId = Some job ->
  job_id job = jobId ->
  (isTerminal (job_status job) = false ->
     JobManager.deleteJob now jobId m = (Throw CannotDeleteRunning, m0) /\
     let m1 := (JobManager.cancel now jobId m).2 in
     (JobManager.deleteJob now' jobId m1).1 = Return tt /\
     JobStore.jobs (store (JobManager.world (JobManager.deleteJob now' jobId m1).2))
       !! jobId = None) /\
  (isTerminal (job_status job) = true ->
     (JobManager.deleteJob now jobId m).1 = Return tt /\
     JobStore.jobs (store (JobManager.world (JobManager.deleteJob now jobId m).2))
     = delete jobId (JobStore.jobs (store (JobManager.world m0))) /\
     JobManager.sameBookkeeping m (JobManager.deleteJob now jobId m).2).
Proof.
  intros m0 Hjob Hid.
  destruct (ensureInitialized_eval now m) as (m0' & Hinit & Hb).
  assert (m0' = m0) as -> by (unfold m0; by rewrite Hinit).
  split; intros Hterm.
  - split; [rewrite deleteJob_eval; fold m0; by rewrite Hjob, Hterm|].
    rewrite cancel_eval. fold m0. rewrite Hjob, Hterm. cbn [snd].
    set (job' := JobStore.withStatus now Cancelled None job).
    set (m1 := match JobManager.cancellationTokens m0 !! jobId with
               | Some token => _ | None => m0 end).
    set (m' := JobManager.withStore _ m1).
    assert (Hinit1 : JobManager.initialized m' = true).
    { transitivity (JobManager.initialized m0);
        [unfold m', m1; by destruct (JobManager.cancellationTokens m0 !! jobId)|].
      apply ensureInitialized_sets. }
    assert (Hjob' : JobStore.jobs (store (JobManager.world m')) !! jobId = Some job').
    { unfold m'. rewrite store_withStore, save_jobs. unfold job'.
      destruct (withStatus_fields now Cancelled None job) as (-> & _).
      rewrite Hid. apply lookup_insert_eq. }
    assert (Hdone : isTerminal (job_status job') = true).
    { unfold job'. by destruct (withStatus_fields now Cancelled None job) as (_ & -> & _). }
    cbv zeta. rewrite deleteJob_eval.
    rewrite (ensureInitialized_initialized now' m') by exact Hinit1.
    cbn [snd]. rewrite Hjob', Hdone, delete_eval. cbn [fst snd].
    split; [done|]. rewrite store_withStore. cbn [JobStore.jobs].
    apply lookup_delete_eq.
  - rewrite deleteJob_eval. fold m0. rewrite Hjob, Hterm, delete_eval.
    cbn [fst snd]. split; [done|]. split; [by rewrite store_withStore|].
    apply (sameBookkeeping_trans m m0); [exact Hb|apply bookkeeping_withStore].
Qed.

(** X11 on the running job-1. *)
Lemma deleteJob_refuses_unfinished_job_witness :
  JobManager.deleteJob 2000 "job-1" Examples.manager1_running
  = (Throw CannotDeleteRunning, Examples.manager1_running) /\
  (JobManager.deleteJob 2500 "job-1"
     (JobManager.cancel 2000 "job-1" Examples.manager1_running).2).1 = Return tt.
Proof.
  destruct (deleteJob_refuses_unfinished_job 2000 2500 "job-1" Examples.manager1_running
              (set_progress
                 (Some (mkJobProgress 0 None None 0 1 1001 (Some "Executing task...")))
                 (set_startedAt (Some 1000) (set_status Running Examples.job1)))
              eq_refl eq_refl) as (H & _).
  destruct (H eq_refl) as (Hthrow & Hok & _).
  split; [exact Hthrow | exact Hok].
Defined.

(** X12. [poll] only reads: after a first [poll], which may initialize the
    manager, a second [poll] of the same job gives the same answer and leaves
    the manager as it is. *)
Theorem poll_twice (now now' : Z) (jobId : string) (m : JobManager.t) :
  JobManager.poll now' jobId (JobManager.poll now jobId m).2
  = JobManager.poll now jobId m.
Proof.
  rewrite (poll_eval now jobId m).
  set (m0 := (JobManager.ensureInitialized now m).2).
  assert (Hinit : JobManager.ensureInitialized now' m0 = (Return tt, m0))
    by apply ensureInitialized_initialized, ensureInitialized_sets.
  cbv zeta.
  destruct (JobStore.jobs (store (JobManager.world m0)) !! jobId) as [job|] eqn:Hjob;
    cbn [snd]; rewrite poll_eval, Hinit; cbn [snd]; by rewrite Hjob.
Qed.

Section SingleShotLifeCycle.

Import JobManager.

Lemma onStore_eval {A} (c : Eff JobStore.t A) w :
  onStore c w = ((c (store w)).1, set_store (c (store w)).2 w).
Proof. unfold onStore, zoom. by destruct (c (store w)). Qed.

Lemma suspend_returns exec task seg m task' w' :
  seg (world m) = (Return (Some task'), w') ->
  suspend exec task seg m
  = (Return tt, set_executions (<[exec := task']> (executions m)) (nextExecution m)
                  (set_world w' m)).
Proof. intros H. unfold suspend, onWorld, zoom. by rewrite H. Qed.

Lemma suspend_settles exec task seg m w' :
  seg (world m) = (Return None, w') ->
  suspend exec task seg m
  = settle task (set_executions (delete exec (executions m)) (nextExecution m)
                   (set_world w' m)).
Proof. intros H. unfold suspend, onWorld, zoom. by rewrite H. Qed.

Lemma singleShotRun_found now jobId o w job :
  JobStore.jobs (store w) !! jobId = Some job ->
  singleShotRun now jobId o w
  = (Return (Some (SingleShotAwaiting jobId o)),
     set_store
       (JobStore.save
          (set_progress
             (Some (JobStore.mergeProgress now (job_progress job)
                      (mkPartialJobProgress None None None None None None
                         (Some "Executing task..."))))
             job) (store w)).2 w).
Proof.
  intros Hjob. unfold singleShotRun, guarded, try_catch. unfold bind.
  rewrite onStore_eval, (updateProgress_found _ _ _ _ _ Hjob), save_eval.
  reflexivity.
Qed.

Lemma singleShotFinish_found now jobId (result : ExecuteResult string) w job :
  JobStore.jobs (store w) !! jobId = Some job -> job_id job = jobId ->
  exists st',
    singleShotFinish now jobId result w = (Return None, set_store st' w) /\
    JobStore.jobs st' !! jobId
    = Some (JobStore.withStatus now (if er_success result then Completed else Failed) None
              (set_progress
                 (Some (JobStore.mergeProgress now (job_progress job)
                          (mkPartialJobProgress None None None (Some 1) None None
                             (Some (if er_success result
                                    then "Task completed" else "Task failed")))))
                 (set_result (Some (SingleShotResult result)) job))).
Proof.
  intros Hjob Hid.
  set (final := if er_success result then Completed else Failed).
  set (p := mkPartialJobProgress None None None (Some 1) None None _).
  set (job1 := set_result (Some (SingleShotResult result)) job).
  set (st1 := (JobStore.save job1 (store w)).2).
  assert (H1 : JobStore.jobs st1 !! jobId = Some job1).
  { unfold st1. rewrite save_jobs. subst job1. simpl. rewrite Hid.
    apply lookup_insert_eq. }
  set (job2 := set_progress (Some (JobStore.mergeProgress now (job_progress job) p)) job1).
  set (st2 := (JobStore.save job2 st1).2).
  assert (H2 : JobStore.jobs st2 !! jobId = Some job2).
  { unfold st2. rewrite save_jobs. subst job2 job1. simpl. rewrite Hid.
    apply lookup_insert_eq. }
  set (job3 := JobStore.withStatus now final None job2).
  exists (JobStore.save job3 st2).2. split.
  - unfold singleShotFinish, guarded, try_catch. unfold bind at 1.
    rewrite onStore_eval. unfold bind.
    rewrite (updateResult_found _ _ _ _ Hjob). fold job1. rewrite save_eval. fold st1.
    rewrite (updateProgress_found _ _ _ _ _ H1).
    change (job_progress job1) with (job_progress job). fold p. fold job2.
    rewrite save_eval. fold st2.
    rewrite (updateStatus_found _ _ _ _ _ _ H2). fold job3. rewrite save_eval.
    reflexivity.
  - rewrite save_jobs.
    destruct (withStatus_fields now final None job2) as (Hid3 & _).
    unfold job3. rewrite Hid3. subst job2 job1. simpl. rewrite Hid.
    apply lookup_insert_eq.
Qed.

End SingleShotLifeCycle.

(** X13. A single-shot job that is accepted runs to its end in three steps:
    [startSingleShot] returns its id, the execution reaches the worker, and
    when the worker returns [result] the job is completed or failed as
    [result.success] says, carries [result], [startedAt], [completedAt] and
    one task of one done, and has no [error] of its own; its execution has
    left [runningJobs]. *)
Theorem single_shot_job_life_cycle
    (now t1 t2 : Z) (opts : ExecuteOptions) (jid : option string) (uuid : string)
    (result : ExecuteResult string) (m : JobManager.t) :
  ~ JobManager.limitReached m ->
  let jobId := nullish jid uuid in
  let exec := JobManager.nextExecution m in
  let m1 := (JobManager.startSingleShot now opts jid uuid m).2 in
  let m2 := (JobManager.resume t1 exec JobManager.Wake m1).2 in
  let m3 := (JobManager.resume t2 exec (JobManager.SingleShotDone result) m2).2 in
  (JobManager.startSingleShot now opts jid uuid m).1 = Return jobId /\
  JobStore.jobs (store (JobManager.world m2)) !! jobId
  = Some (mkJob jobId SingleShot Running now (Some now) None None
            (Some (mkJobProgress 0 None None 0 1 t1 (Some "Executing task...")))
            (SingleShotOptions opts) None None) /\
  JobStore.jobs (store (JobManager.world m3)) !! jobId
  = Some (mkJob jobId SingleShot (if er_success result then Completed else Failed)
            now (Some now) (Some t2) None
            (Some (mkJobProgress 0 None None 1 1 t2
                     (Some (if er_success result
                            then "Task completed" else "Task failed"))))
            (SingleShotOptions opts) (Some (SingleShotResult result)) None) /\
  JobManager.runningJobs m3 = delete jobId (JobManager.runningJobs m) /\
  JobManager.executions m3 !! exec = None.
Proof.
  intros Hfree jobId exec m1 m2 m3.
  destruct (ensureInitialized_eval now m) as (m0 & Hinit & Hb).
  destruct (checkConcurrencyLimit_eval m0) as [[Hl _]|[_ Hc]];
    [by apply (limitReached_bookkeeping m m0) in Hl|].
  destruct (start_accepted now (JobManager.newSingleShotJob now jobId opts)
              (JobManager.SingleShotStarted jobId opts)
              (fun e => onStore (JobManager.singleShotCatch now jobId e)) m0)
    as (m1' & Hrun & Hr1 & He1 & Hj1).
  assert (Hstart : JobManager.startSingleShot now opts jid uuid m = (Return jobId, m1')).
  { unfold JobManager.startSingleShot. unfold bind at 1. rewrite Hinit.
    unfold bind at 1. rewrite Hc. exact Hrun. }
  assert (m1 = m1') as Hm1 by (unfold m1; by rewrite Hstart).
  destruct Hb as (Hb1 & _ & _ & Hb4 & _).
  change (job_id (JobManager.newSingleShotJob now jobId opts)) with jobId in *.
  rewrite Hb4 in He1, Hr1. fold exec in He1, Hr1. rewrite Hb1 in Hr1.
  (* the execution reaches the worker *)
  set (job1 := JobStore.withStatus now Running None
                 (JobManager.newSingleShotJob now jobId opts)) in *.
  assert (Hexec1 : JobManager.executions m1 !! exec
                   = Some (JobManager.SingleShotStarted jobId opts))
    by (rewrite Hm1, He1; apply lookup_insert_eq).
  assert (Hwake : JobManager.resume t1 exec JobManager.Wake m1
                  = JobManager.suspend exec (JobManager.SingleShotStarted jobId opts)
                      (JobManager.singleShotRun t1 jobId opts) m1).
  { unfold JobManager.resume, bind, get_state. by rewrite Hexec1. }
  assert (Hjob1 : JobStore.jobs (store (JobManager.world m1)) !! jobId = Some job1)
    by (rewrite Hm1; exact Hj1).
  pose proof (singleShotRun_found t1 jobId opts _ _ Hjob1) as Hseg.
  rewrite (suspend_returns _ _ _ _ _ _ Hseg) in Hwake.
  set (job2 := set_progress _ job1) in *.
  assert (Hjob2 : JobStore.jobs (store (JobManager.world m2)) !! jobId = Some job2).
  { unfold m2. rewrite Hwake.
    change (JobStore.jobs (JobStore.save job2 (store (JobManager.world m1))).2 !! jobId
            = Some job2).
    rewrite save_jobs. apply lookup_insert_eq. }
  assert (Hexec2 : JobManager.executions m2 !! exec
                   = Some (JobManager.SingleShotAwaiting jobId opts)).
  { unfold m2. rewrite Hwake. cbn. apply lookup_insert_eq. }
  assert (Hr2 : JobManager.runningJobs m2 = JobManager.runningJobs m1)
    by (unfold m2; rewrite Hwake; reflexivity).
  (* the worker returns *)
  destruct (singleShotFinish_found t2 jobId result _ _ Hjob2 eq_refl)
    as (st3 & Hfinish & Hjob3).
  assert (Hdone : JobManager.resume t2 exec (JobManager.SingleShotDone result) m2
                  = JobManager.suspend exec (JobManager.SingleShotAwaiting jobId opts)
                      (JobManager.singleShotFinish t2 jobId result) m2)
    by (eapply resume_single_shot_eq; exact Hexec2).
  rewrite (suspend_settles _ _ _ _ _ Hfinish) in Hdone.
  split; [by rewrite Hstart|]. split; [exact Hjob2|]. split; [|split].
  - unfold m3. rewrite Hdone.
    match goal with
    | |- _ = ?rhs => change (JobStore.jobs st3 !! jobId = rhs)
    end.
    rewrite Hjob3. by destruct (er_success result).
  - unfold m3. rewrite Hdone. cbn. rewrite Hr2, Hm1, Hr1. apply delete_insert_eq.
  - unfold m3. rewrite Hdone. cbn. apply lookup_delete_eq.
Qed.

(** X13 on the manager with a limit of one job and none running. *)
Lemma single_shot_job_life_cycle_witness :
  job_status <$>
    JobStore.jobs
      (store (JobManager.world
         (JobManager.resume 3000 0%nat (JobManager.SingleShotDone Examples.workerOk)
            (JobManager.resume 1001 0%nat JobManager.Wake
               (JobManager.startSingleShot 1000 Examples.options1 (Some "job-1") "uuid-1"
                  Examples.manager0).2).2).2))
    !! "job-1"
  = Some Completed.
Proof.
  destruct (single_shot_job_life_cycle 1000 1001 3000 Examples.options1 (Some "job-1")
              "uuid-1" Examples.workerOk Examples.manager0) as (_ & _ & Hjob & _).
  - intros (limit & Hlimit & Hsize). injection Hlimit as <-.
    vm_compute in Hsize. by apply Hsize.
  - change (JobManager.nextExecution Examples.manager0) with 0%nat in Hjob.
    change (nullish (Some "job-1") "uuid-1") with "job-1" in Hjob.
    by rewrite Hjob.
Defined.

(** X14. When the worker of a single-shot job returns after the job was
    deleted, [executeSingleShot] throws the job-not-found error out of its own
    [catch] block: the job is not put back, the store and the files stay as
    they are, and the execution leaves [runningJobs]. *)
Theorem finish_of_deleted_job
    (now : Z) (exec : nat) (jobId : string) (o : ExecuteOptions)
    (result : ExecuteResult string) (m : JobManager.t) :
  JobManager.executions m !! exec = Some (JobManager.SingleShotAwaiting jobId o) ->
  JobStore.jobs (store (JobManager.world m)) !! jobId = None ->
  JobManager.singleShotFinish now jobId result (JobManager.world m)
  = (Throw (JobNotFound jobId), JobManager.world m) /\
  let m' := (JobManager.resume now exec (JobManager.SingleShotDone result) m).2 in
  JobManager.world m' = JobManager.world m /\
  JobManager.runningJobs m' = delete jobId (JobManager.runningJobs m) /\
  JobManager.executions m' = delete exec (JobManager.executions m).
Proof.
  intros Hexec Hnone.
  assert (Hresult : forall r, JobStore.updateResult jobId r (store (JobManager.world m))
                              = (Throw (JobNotFound jobId), store (JobManager.world m))).
  { intros r. unfold JobStore.updateResult, JobStore.require, JobStore.get.
    eff_unfold. by rewrite Hnone. }
  assert (Hseg : JobManager.singleShotFinish now jobId result (JobManager.world m)
                 = (Throw (JobNotFound jobId), JobManager.world m)).
  { assert (Hcatch : forall e, JobManager.singleShotCatch now jobId e
                                   (store (JobManager.world m))
                                 = (Throw (JobNotFound jobId), store (JobManager.world m))).
    { intros e. unfold JobManager.singleShotCatch, bind.
      by rewrite (updateStatus_missing _ _ _ _ _ Hnone). }
    assert (Htry : forall (k : Eff JobStore.t unit),
               (JobStore.updateResult jobId (SingleShotResult result) ;;; k)%eff
                 (store (JobManager.world m))
               = (Throw (JobNotFound jobId), store (JobManager.world m))).
    { intros k. unfold bind. by rewrite Hresult. }
    unfold JobManager.singleShotFinish, JobManager.guarded, try_catch.
    unfold bind at 1. rewrite onStore_eval, Htry.
    cbn [fst snd]. unfold bind at 1. rewrite onStore_eval.
    cbn [store set_store]. rewrite Hcatch. cbn [fst snd].
    by destruct (JobManager.world m). }
  split; [exact Hseg|]. cbv zeta.
  rewrite (resume_single_shot_eq _ _ _ _ _ _ Hexec).
  unfold JobManager.suspend, JobManager.onWorld, zoom. rewrite Hseg.
  by destruct m.
Qed.

(** X14 on job-1, cancelled and deleted while its worker runs. *)
Lemma finish_of_deleted_job_witness :
  JobStore.jobs
    (store (JobManager.world
       (JobManager.resume 3000 0%nat (JobManager.SingleShotDone Examples.workerOk)
          Examples.manager1_deleted).2)) !! "job-1" = None /\
  JobManager.runningJobs
    (JobManager.resume 3000 0%nat (JobManager.SingleShotDone Examples.workerOk)
       Examples.manager1_deleted).2 = ∅.
Proof.
  destruct (finish_of_deleted_job 3000 0%nat "job-1" Examples.options1 Examples.workerOk
              Examples.manager1_deleted eq_refl eq_refl) as (_ & Hw & Hr & _).
  split; [by rewrite Hw | by rewrite Hr].
Defined.

(** ** The loop executor *)

Section LoopFacts.

Import LoopExecutor.

Variable options : ExecuteLoopOptions.
Variable hook : option (IterationResult -> World -> World).
Variable worker : Z -> UserStory -> World -> ExecuteResult StoryData * World.

(** The loop one round unfolded. *)
Lemma loop_S fuel s :
  loop options hook worker (S fuel) s
  = match loopHead options s with
    | (Done r, s') => (r, s')
    | (AwaitWorker story, s') =>
        let '(result, w') := worker (iteration s'.1) story s'.2 in
        match afterWorker options hook story result (s'.1, w') with
        | (Some r, s'') => (r, s'')
        | (None, s'') => loop options hook worker fuel s''
        end
    end.
Proof. reflexivity. Qed.

Lemma loopHead_cases s :
  (iteration s.1 < maxIterations options /\
   let l := set_iteration (iteration s.1 + 1) s.1 in
   (PRD.getNextStory (prd s.1) = None /\
    loopHead options s = (Done (allCompleted options l), (l, s.2))
    \/ exists story, PRD.getNextStory (prd s.1) = Some story /\
                     loopHead options s = (AwaitWorker story, (l, s.2))))
  \/ (maxIterations options <= iteration s.1 /\
      loopHead options s = (Done (notCompleted options s.1), s)).
Proof.
  unfold loopHead. case_bool_decide; [left|right; split; [lia|done]].
  split; [done|]. cbn [prd set_iteration].
  destruct (PRD.getNextStory (prd s.1)) as [story|]; [right; by exists story|by left].
Qed.

(** What the body of the loop does to the local variables, however it ends. *)
Lemma iterationBody_locals story result l w :
  let s' := (iterationBody options hook story result (l, w)).2 in
  iteration s'.1 = iteration l /\
  iterations s'.1 = iterations l ++ [iterResult l story result] /\
  progressPath s'.1 = progressPath l /\
  prd s'.1 = prd l.
Proof.
  destruct l as [spec path i its].
  unfold iterationBody, callHook, iterResult.
  unfold onLocals, onWorld, onFs, ProgressTracker.append, Fs.appendFile,
    PRD.save, Fs.writeFile.
  eff_unfold. cbn.
  destruct (if er_success result then er_data result else None) as [data|]; cbn.
  - destruct (sd_passes data); cbn; [done|].
    destruct path; cbn;
      destruct (lo_cancelToken options); cbn;
      repeat match goal with
             | |- context [CancellationToken.isCancelled ?t ?w] =>
                 destruct (CancellationToken.isCancelled t w)
             end; done.
  - destruct (decide _); cbn; [done|].
    destruct (lo_cancelToken options); cbn;
      repeat match goal with
             | |- context [CancellationToken.isCancelled ?t ?w] =>
                 destruct (CancellationToken.isCancelled t w)
             end; done.
Qed.

(** [afterWorker] returns with the history one entry longer, and a result it
    returns is a failure that carries that history. *)
Lemma afterWorker_cases story result l w :
  let out := afterWorker options hook story result (l, w) in
  iteration out.2.1 = iteration l /\
  iterations out.2.1 = iterations l ++ [iterResult l story result] /\
  prd out.2.1 = prd l /\
  forall r, out.1 = Some r ->
    lr_success r = false /\ lr_completed r = false /\
    lr_iterations r = iterations l ++ [iterResult l story result].
Proof.
  pose proof (iterationBody_locals story result l w) as (Hi & Hits & _ & Hprd).
  unfold afterWorker.
  destruct (iterationBody options hook story result (l, w)) as [[[]|e] s'];
    cbn [fst snd] in *; (split; [exact Hi|split; [exact Hits|split; [exact Hprd|]]]);
    intros r Hr; [discriminate| |]; injection Hr as <-; by rewrite <- Hits.
Qed.

(** The final state of a result that [afterWorker] returns has the stories
    the round started with, or none. *)
Lemma afterWorker_tasks story result l w r s' :
  afterWorker options hook story result (l, w) = (Some r, s') ->
  ts_tasks (lr_finalState r) = prd_userStories (prd l)
  \/ ts_tasks (lr_finalState r) = [].
Proof.
  pose proof (iterationBody_locals story result l w) as (_ & _ & _ & Hprd).
  unfold afterWorker.
  destruct (iterationBody options hook story result (l, w)) as [[[]|e] s1];
    cbn [fst snd] in *; intros Heq; [discriminate| |].
  - injection Heq as <- _. left. cbn. unfold PRD.getUserStories. by rewrite Hprd.
  - injection Heq as <- _. by right.
Qed.

Lemma numbered_snoc its it :
  numbered its -> ir_iteration it = Z.of_nat (length its) + 1 -> numbered (its ++ [it]).
Proof.
  intros Hn Hit i x Hx.
  destruct (decide (i < length its)%nat) as [Hlt|Hge].
  - rewrite lookup_app_l in Hx by done. by apply Hn.
  - rewrite lookup_app_r in Hx by lia.
    destruct (i - length its)%nat as [|k] eqn:Hk; [|done].
    injection Hx as <-. rewrite Hit. f_equal. lia.
Qed.

(** The history of the result: numbered from one, and at most [fuel] entries
    longer than at the start. *)
Lemma loop_history fuel s :
  numbered (iterations s.1) ->
  iteration s.1 = Z.of_nat (length (iterations s.1)) ->
  let r := (loop options hook worker fuel s).1 in
  numbered (lr_iterations r) /\
  (length (lr_iterations r) <= length (iterations s.1) + fuel)%nat.
Proof.
  revert s. induction fuel as [|fuel IH]; intros [l w] Hn Hi; cbn [fst snd] in *.
  - cbn. split; [done|lia].
  - rewrite loop_S.
    destruct (loopHead_cases (l, w)) as [(_ & [(_ & ->)|(story & _ & ->)])|(_ & ->)];
      cbn [fst snd]; [split; [done|cbn; lia]| |split; [done|cbn; lia]].
    destruct (worker _ story w) as [result w1].
    set (l1 := set_iteration (iteration l + 1) l).
    pose proof (afterWorker_cases story result l1 w1) as (Hi' & Hits' & _ & Hr).
    assert (Hn' : numbered (iterations l ++ [iterResult l1 story result])).
    { apply numbered_snoc; [done|].
      change (iteration l + 1 = Z.of_nat (length (iterations l)) + 1). lia. }
    destruct (afterWorker options hook story result (l1, w1)) as [[r|] [l2 w2]];
      cbn [fst snd] in *.
    + destruct (Hr r eq_refl) as (_ & _ & ->).
      split; [exact Hn'|]. rewrite length_app. cbn. lia.
    + pose proof (IH (l2, w2)) as IH'. cbn [fst snd] in IH'.
      rewrite Hi', Hits', length_app in IH'. cbn [length] in IH'.
      change (iterations l1) with (iterations l) in IH'.
      change (iteration l1) with (iteration l + 1) in IH'.
      destruct IH' as (IH1 & IH2); [done|lia|].
      split; [exact IH1|lia].
Qed.

End LoopFacts.

(** X15. Whatever the worker and the files do, the iteration history that
    [execute] returns is numbered 1, 2, 3, ... without gaps, and has at most
    [maxIterations] entries. *)
Theorem iteration_history_is_numbered
    (options : ExecuteLoopOptions) (hook : option (IterationResult -> World -> World))
    (worker : Z -> UserStory -> World -> ExecuteResult StoryData * World) (w : World) :
  let r := (LoopExecutor.execute options hook worker w).1 in
  LoopExecutor.numbered (lr_iterations r) /\
  Z.of_nat (length (lr_iterations r)) <= Z.max 0 (LoopExecutor.maxIterations options).
Proof.
  unfold LoopExecutor.execute.
  destruct (LoopExecutor.begin options w) as [[l|] w'] eqn:Hbegin.
  - assert (Hl : LoopExecutor.iterations l = [] /\ LoopExecutor.iteration l = 0).
    { unfold LoopExecutor.begin in Hbegin.
      destruct (onFs _ w) as [[spec|e] w0]; [|done].
      destruct (LoopExecutor.configuredProgressFile options);
        injection Hbegin as <- _; done. }
    destruct Hl as (Hits & Hi).
    pose proof (loop_history options hook worker
                  (Z.to_nat (LoopExecutor.maxIterations options)) (l, w')) as H.
    cbn [fst snd] in H. rewrite Hits, Hi in H.
    destruct H as (Hn & Hlen); [by intros i it|done|].
    destruct (LoopExecutor.loop _ _ _ _ _) as [r s]. cbn [fst snd] in *.
    split; [exact Hn|]. cbn in Hlen. lia.
  - cbn. split; [by intros i it|lia].
Qed.

(** ** The backlog *)

Section Backlog.

Import PRD.

Lemma isComplete_elem spec :
  isComplete spec = true <-> forall s, s ∈ prd_userStories spec -> us_passes s = true.
Proof.
  unfold isComplete. rewrite forallb_forall. split; intros H s Hs; apply H.
  - by apply list_elem_of_In.
  - by apply list_elem_of_In.
Qed.

Lemma getNextStory_None spec : getNextStory spec = None <-> isComplete spec = true.
Proof.
  rewrite isComplete_elem, getNextStory_select.
  pose proof (select_least (prd_userStories spec)) as H.
  destruct (select (prd_userStories spec)) as [s|]; [|done].
  destruct H as (i & Hi & Hs & _). split; [done|].
  intros Hall. apply list_elem_of_lookup_2 in Hi. specialize (Hall s Hi). congruence.
Qed.

Lemma filter_passes_length (l : list UserStory) :
  length (filter (fun s => us_passes s = true) l) = length l
  <-> forall s, s ∈ l -> us_passes s = true.
Proof.
  induction l as [|x l IH]; [split; [by intros _ s Hs; inversion Hs|done]|].
  rewrite filter_cons.
  pose proof (length_filter (fun s => us_passes s = true) l) as Hle.
  destruct (decide (us_passes x = true)) as [Hx|Hx]; cbn [length].
  - split.
    + intros Hlen s Hs. apply elem_of_cons in Hs as [->|Hs]; [done|].
      apply IH; [lia|done].
    + intros Hall. f_equal. apply IH. intros s Hs. apply Hall. by right.
  - split; [lia|]. intros Hall. destruct Hx. apply Hall. by left.
Qed.

Lemma completedCount_total spec :
  completedCount spec = totalCount spec <-> isComplete spec = true.
Proof.
  rewrite isComplete_elem, <- filter_passes_length.
  unfold completedCount, totalCount. lia.
Qed.

End Backlog.

(** X16. The three views of a finished backlog agree: [isComplete] is true
    exactly when [getNextStory] has no story to give, and exactly when the
    completed count of [getProgress] equals the total; a story that
    [getNextStory] gives is a story of the backlog that does not pass. *)
Theorem backlog_complete_iff_no_next_story (spec : PRDSpec) :
  (PRD.isComplete spec = true <-> PRD.getNextStory spec = None) /\
  (PRD.isComplete spec = true <-> PRD.completedCount spec = PRD.totalCount spec) /\
  (forall story, PRD.getNextStory spec = Some story ->
     story ∈ prd_userStories spec /\ us_passes story = false) /\
  0 <= PRD.completedCount spec <= PRD.totalCount spec.
Proof.
  split; [symmetry; apply getNextStory_None|].
  split; [symmetry; apply completedCount_total|]. split.
  - intros story Hnext. rewrite getNextStory_select in Hnext.
    pose proof (select_least (prd_userStories spec)) as H. rewrite Hnext in H.
    destruct H as (i & Hi & Hs & _). split; [|done].
    by apply list_elem_of_lookup_2 in Hi.
  - unfold PRD.completedCount, PRD.totalCount.
    pose proof (length_filter (fun s => us_passes s = true) (prd_userStories spec)).
    lia.
Qed.

Section LoopOutcome.

Import LoopExecutor.

Variable options : ExecuteLoopOptions.
Variable hook : option (IterationResult -> World -> World).
Variable worker : Z -> UserStory -> World -> ExecuteResult StoryData * World.

(** A result is either a failure on both flags or the report of a backlog
    with no story left. *)
Lemma loop_outcome fuel s :
  let r := (loop options hook worker fuel s).1 in
  (lr_success r = false /\ lr_completed r = false)
  \/ (exists spec, PRD.getNextStory spec = None /\
        lr_success r = true /\ lr_completed r = true /\
        lr_finalState r = finalState options spec).
Proof.
  revert s. induction fuel as [|fuel IH]; intros [l w]; [by left|].
  rewrite loop_S.
  destruct (loopHead_cases options (l, w))
    as [(_ & [(Hnone & ->)|(story & _ & ->)])|(_ & ->)]; cbn [fst snd] in *.
  - right. by exists (prd l).
  - destruct (worker _ story w) as [result w1].
    set (l1 := set_iteration (iteration l + 1) l).
    pose proof (afterWorker_cases options hook story result l1 w1) as (_ & _ & _ & Hr).
    destruct (afterWorker options hook story result (l1, w1)) as [[r|] s2];
      cbn [fst snd] in *.
    + left. by destruct (Hr r eq_refl) as (? & ? & _).
    + apply IH.
  - by left.
Qed.

End LoopOutcome.

(** X17. [execute] reports success and completion together, and a successful
    result means what it says: every story of its final state passes and
    [tasksCompleted] equals [tasksTotal], the number of stories. *)
Theorem success_means_backlog_complete
    (options : ExecuteLoopOptions) (hook : option (IterationResult -> World -> World))
    (worker : Z -> UserStory -> World -> ExecuteResult StoryData * World) (w : World) :
  let r := (LoopExecutor.execute options hook worker w).1 in
  lr_completed r = lr_success r /\
  (lr_success r = true ->
     (forall s, s ∈ ts_tasks (lr_finalState r) -> us_passes s = true) /\
     ts_tasksCompleted (lr_finalState r) = ts_tasksTotal (lr_finalState r) /\
     ts_tasksTotal (lr_finalState r) = Z.of_nat (length (ts_tasks (lr_finalState r)))).
Proof.
  unfold LoopExecutor.execute.
  destruct (LoopExecutor.begin options w) as [[l|] w']; [|by split].
  pose proof (loop_outcome options hook worker
                (Z.to_nat (LoopExecutor.maxIterations options)) (l, w')) as H.
  destruct (LoopExecutor.loop _ _ _ _ _) as [r s]. cbn [fst snd] in *.
  destruct H as [(Hs & Hc)|(spec & Hnone & Hs & Hc & Hfinal)].
  - split; [congruence|]. intros Hs'. congruence.
  - split; [congruence|]. intros _. rewrite Hfinal.
    apply getNextStory_None in Hnone.
    cbn [LoopExecutor.finalState ts_tasks ts_tasksCompleted ts_tasksTotal].
    split; [by apply isComplete_elem|]. split; [by apply completedCount_total|done].
Qed.

(** X17 on a backlog that is complete when it is loaded. *)
Lemma success_means_backlog_complete_witness :
  ts_tasksCompleted
    (lr_finalState
       (LoopExecutor.execute Examples.loopOptions None Examples.alwaysFailing
          Examples.worldDone).1)
  = ts_tasksTotal
      (lr_finalState
         (LoopExecutor.execute Examples.loopOptions None Examples.alwaysFailing
            Examples.worldDone).1).
Proof.
  destruct (success_means_backlog_complete Examples.loopOptions None
              Examples.alwaysFailing Examples.worldDone) as (_ & H).
  destruct (H eq_refl) as (_ & Hcount & _). exact Hcount.
Defined.

(** X18. When the task file does not exist, [execute] returns a failure with
    an empty history and a final state of zero tasks; it has tried to read the
    task file and nothing else: no file is created, the progress log is not
    initialized, and neither the worker nor the iteration hook runs. *)
Theorem execute_without_task_file
    (options : ExecuteLoopOptions) (hook : option (IterationResult -> World -> World))
    (worker : Z -> UserStory -> World -> ExecuteResult StoryData * World) (w : World) :
  Fs.files (fs w) !! lo_taskFile options = None ->
  LoopExecutor.execute options hook worker w
  = (mkLoopResult false false []
       (mkTaskState (nullish (lo_mode options) mode_code) 0 0 []),
     set_fs (Fs.mk (Fs.files (fs w))
                   (Fs.trace (fs w) ++ [Fs.ReadFile (lo_taskFile options)])) w).
Proof.
  intros Hnone.
  unfold LoopExecutor.execute, LoopExecutor.begin, onFs, zoom, PRD.load, Fs.readFile.
  unfold bind. by rewrite Hnone.
Qed.

(** X18 on a world without files. *)
Lemma execute_without_task_file_witness :
  (LoopExecutor.execute Examples.loopOptions None Examples.alwaysFailing
     (mkWorld Fs.empty (JobStore.create Examples.cwd None None None None) [])).1
  = mkLoopResult false false [] (mkTaskState mode_code 0 0 []).
Proof.
  by rewrite (execute_without_task_file Examples.loopOptions None Examples.alwaysFailing
                (mkWorld Fs.empty (JobStore.create Examples.cwd None None None None) []) eq_refl).
Defined.

Section Strategies.

Import LoopExecutor.

Variable options : ExecuteLoopOptions.
Variable hook : option (IterationResult -> World -> World).
Variable worker : Z -> UserStory -> World -> ExecuteResult StoryData * World.
Hypothesis not_fail_fast : lo_errorStrategy options <> Some fail_fast.

Let plain : ExecuteLoopOptions := withErrorStrategy None options.

Lemma iterationBody_plain story result s :
  iterationBody options hook story result s = iterationBody plain hook story result s.
Proof.
  unfold iterationBody. cbn [plain withErrorStrategy lo_taskFile lo_errorStrategy
                              lo_cancelToken].
  rewrite (decide_False (P := lo_errorStrategy options = Some fail_fast))
    by exact not_fail_fast.
  reflexivity.
Qed.

Lemma afterWorker_plain story result s :
  afterWorker options hook story result s = afterWorker plain hook story result s.
Proof. unfold afterWorker. by rewrite iterationBody_plain. Qed.

Lemma loop_plain fuel s :
  loop options hook worker fuel s = loop plain hook worker fuel s.
Proof.
  revert s. induction fuel as [|fuel IH]; intros s; [done|].
  rewrite !loop_S.
  change (loopHead plain s) with (loopHead options s).
  destruct (loopHead options s) as [[story|r] s1]; [|done].
  destruct (worker _ story s1.2) as [result w1].
  rewrite afterWorker_plain.
  destruct (afterWorker plain hook story result (s1.1, w1)) as [[r|] s2]; [done|].
  apply IH.
Qed.

End Strategies.

(** X19. Only the fail-fast strategy changes what the loop does: with the
    retry, graceful or custom strategy, [execute] returns the same result and
    leaves the same files as with no strategy at all; a failed story is simply
    the next story again. *)
Theorem other_strategies_are_ignored
    (options : ExecuteLoopOptions) (hook : option (IterationResult -> World -> World))
    (worker : Z -> UserStory -> World -> ExecuteResult StoryData * World) (w : World) :
  lo_errorStrategy options <> Some fail_fast ->
  LoopExecutor.execute options hook worker w
  = LoopExecutor.execute (LoopExecutor.withErrorStrategy None options) hook worker w.
Proof.
  intros Hmode. unfold LoopExecutor.execute.
  change (LoopExecutor.begin (LoopExecutor.withErrorStrategy None options) w)
    with (LoopExecutor.begin options w).
  destruct (LoopExecutor.begin options w) as [[l|] w']; [|done].
  change (LoopExecutor.maxIterations (LoopExecutor.withErrorStrategy None options))
    with (LoopExecutor.maxIterations options).
  by rewrite (loop_plain options hook worker Hmode).
Qed.

(** X19 on the retry strategy and a worker that always fails. *)
Lemma other_strategies_are_ignored_witness :
  LoopExecutor.execute
    (LoopExecutor.withErrorStrategy (Some retry) Examples.loopOptions1) None
    Examples.alwaysFailing Examples.world0
  = LoopExecutor.execute Examples.loopOptions1 None Examples.alwaysFailing Examples.world0.
Proof.
  apply (other_strategies_are_ignored
           (LoopExecutor.withErrorStrategy (Some retry) Examples.loopOptions1) None
           Examples.alwaysFailing Examples.world0).
  discriminate.
Defined.

Section FixedBacklog.

Import LoopExecutor.

Variable options : ExecuteLoopOptions.
Variable hook : option (IterationResult -> World -> World).
Variable worker : Z -> UserStory -> World -> ExecuteResult StoryData * World.

(** No round of the loop changes the backlog, so a result that reports
    success was returned at the head of the first round. *)
Lemma loop_success fuel s :
  let r := (loop options hook worker fuel s).1 in
  (ts_tasks (lr_finalState r) = prd_userStories (prd s.1)
   \/ ts_tasks (lr_finalState r) = []) /\
  (lr_success r = true ->
     PRD.getNextStory (prd s.1) = None /\
     lr_iterations r = iterations s.1 /\
     lr_finalState r = finalState options (prd s.1)).
Proof.
  revert s. induction fuel as [|fuel IH]; intros [l w];
    [split; [by left|done]|].
  rewrite loop_S.
  destruct (loopHead_cases options (l, w))
    as [(_ & [(Hnone & ->)|(story & Hnext & ->)])|(_ & ->)]; cbn [fst snd] in *.
  - split; [by left|]. by intros _.
  - destruct (worker _ story w) as [result w1].
    set (l1 := set_iteration (iteration l + 1) l).
    pose proof (afterWorker_cases options hook story result l1 w1)
      as (_ & _ & Hprd & Hr).
    pose proof (afterWorker_tasks options hook story result l1 w1) as Htasks.
    destruct (afterWorker options hook story result (l1, w1)) as [[r|] [l2 w2]];
      cbn [fst snd] in *.
    + split; [exact (Htasks r (l2, w2) eq_refl)|].
      destruct (Hr r eq_refl) as (Hs & _). congruence.
    + destruct (IH (l2, w2)) as (IHtasks & IHsucc). cbn [fst snd] in *.
      rewrite Hprd in IHtasks, IHsucc. split; [exact IHtasks|].
      intros Hs. destruct (IHsucc Hs) as (Hnone & _).
      change (prd l1) with (prd l) in Hnone. congruence.
  - split; [by left|done].
Qed.

End FixedBacklog.

(** X20. The loop never completes a story: the stories of the final state
    are the stories that were loaded (or none, after an error), and [execute]
    reports success exactly when the backlog it loads is complete already and
    [maxIterations] is positive; the history of a successful result is
    empty. *)
Theorem execute_succeeds_only_on_complete_backlog
    (options : ExecuteLoopOptions) (hook : option (IterationResult -> World -> World))
    (worker : Z -> UserStory -> World -> ExecuteResult StoryData * World) (w : World) :
  let r := (LoopExecutor.execute options hook worker w).1 in
  (lr_success r = true ->
     exists spec,
       Fs.files (fs w) !! lo_taskFile options = Some (Fs.PrdFile spec) /\
       PRD.isComplete spec = true /\
       0 < LoopExecutor.maxIterations options /\
       lr_iterations r = [] /\
       ts_tasks (lr_finalState r) = prd_userStories spec) /\
  (forall spec,
     Fs.files (fs w) !! lo_taskFile options = Some (Fs.PrdFile spec) ->
     (PRD.isComplete spec = true -> 0 < LoopExecutor.maxIterations options ->
      lr_success r = true /\ lr_iterations r = []) /\
     (PRD.isComplete spec = false -> lr_success r = false) /\
     (ts_tasks (lr_finalState r) = prd_userStories spec
      \/ ts_tasks (lr_finalState r) = [])).
Proof.
  cbv zeta.
  assert (Hbegin : forall l w', LoopExecutor.begin options w = (Some l, w') ->
            Fs.files (fs w) !! lo_taskFile options
            = Some (Fs.PrdFile (LoopExecutor.prd l)) /\
            LoopExecutor.iteration l = 0 /\ LoopExecutor.iterations l = []).
  { intros l w'. unfold LoopExecutor.begin, onFs, zoom, PRD.load, Fs.readFile.
    unfold bind.
    destruct (Fs.files (fs w) !! lo_taskFile options) as [[spec| |]|]; cbn; try done.
    destruct (LoopExecutor.configuredProgressFile options); by intros [= <- _]. }
  unfold LoopExecutor.execute.
  destruct (LoopExecutor.begin options w) as [[l|] w'] eqn:Hb.
  - destruct (Hbegin l w' eq_refl) as (Hfile & Hi & Hits).
    pose proof (loop_success options hook worker
                  (Z.to_nat (LoopExecutor.maxIterations options)) (l, w')) as H.
    cbn [fst snd] in H. rewrite Hits in H.
    assert (Hconv : PRD.isComplete (LoopExecutor.prd l) = true ->
              0 < LoopExecutor.maxIterations options ->
              lr_success
                (LoopExecutor.loop options hook worker
                   (Z.to_nat (LoopExecutor.maxIterations options)) (l, w')).1 = true /\
              lr_iterations
                (LoopExecutor.loop options hook worker
                   (Z.to_nat (LoopExecutor.maxIterations options)) (l, w')).1 = []).
    { intros Hdone Hpos.
      destruct (Z.to_nat (LoopExecutor.maxIterations options)) as [|n] eqn:Hn; [lia|].
      rewrite loop_S.
      destruct (loopHead_cases options (l, w'))
        as [(_ & [(_ & ->)|(story & Hnext & _)])|(Hge & _)]; cbn [fst snd] in *.
      - split; [reflexivity|exact Hits].
      - apply getNextStory_None in Hdone. congruence.
      - rewrite Hi in Hge. lia. }
    assert (Hmax : lr_success
                     (LoopExecutor.loop options hook worker
                        (Z.to_nat (LoopExecutor.maxIterations options)) (l, w')).1 = true ->
                   0 < LoopExecutor.maxIterations options).
    { destruct (Z.to_nat (LoopExecutor.maxIterations options)) eqn:Hn; [done|lia]. }
    destruct (LoopExecutor.loop options hook worker
                (Z.to_nat (LoopExecutor.maxIterations options)) (l, w')) as [r s].
    cbn [fst snd] in *.
    destruct H as (Htasks & Hsucc). split.
    + intros Hs. destruct (Hsucc Hs) as (Hnone & Hempty & Hfinal).
      exists (LoopExecutor.prd l). split; [exact Hfile|].
      split; [by apply getNextStory_None|]. split; [by apply Hmax|].
      split; [exact Hempty|]. by rewrite Hfinal.
    + intros spec Hspec. rewrite Hfile in Hspec. injection Hspec as <-.
      split; [exact Hconv|]. split; [|exact Htasks].
      intros Hnot. destruct (lr_success r) eqn:Hs; [|done].
      destruct (Hsucc eq_refl) as (Hnone & _).
      apply getNextStory_None in Hnone. congruence.
  - split; [done|]. intros spec Hspec.
    unfold LoopExecutor.begin, onFs, zoom, PRD.load, Fs.readFile in Hb.
    unfold bind in Hb. rewrite Hspec in Hb. cbn in Hb.
    by destruct (LoopExecutor.configuredProgressFile options).
Qed.

(** X20 on a backlog that is complete when it is loaded, and on one with a
    story left whose worker meets the criteria. *)
Lemma execute_succeeds_only_on_complete_backlog_witness :
  lr_success (LoopExecutor.execute Examples.loopOptions None Examples.alwaysFailing
                Examples.worldDone).1 = true /\
  lr_success (LoopExecutor.execute Examples.loopOptions None
                (fun _ _ w => (Examples.passing, w)) Examples.worldHalf).1 = false.
Proof.
  destruct (execute_succeeds_only_on_complete_backlog Examples.loopOptions None
              Examples.alwaysFailing Examples.worldDone) as (_ & Hdone).
  destruct (execute_succeeds_only_on_complete_backlog Examples.loopOptions None
              (fun _ _ w => (Examples.passing, w)) Examples.worldHalf) as (_ & Hhalf).
  destruct (Hdone Examples.prdDone eq_refl) as (Hyes & _ & _).
  destruct (Hhalf Examples.prdHalf eq_refl) as (_ & Hno & _).
  split; [apply Hyes; reflexivity | apply Hno; reflexivity].
Defined.

Section UpdateStory.

Import PRD.

Lemma updateFirst_no_match id u l :
  Forall (fun s => us_id s <> id) l -> updateFirst id u l = l.
Proof.
  induction 1 as [|s l Hs _ IH]; [done|].
  cbn [updateFirst]. rewrite decide_False by done. by rewrite IH.
Qed.

Lemma updateFirst_first_match id u pre s post :
  Forall (fun s => us_id s <> id) pre -> us_id s = id ->
  updateFirst id u (pre ++ s :: post) = pre ++ assign s u :: post.
Proof.
  intros Hpre Hs. induction Hpre as [|x pre Hx _ IH].
  - cbn [app updateFirst]. by rewrite decide_True.
  - cbn [app updateFirst]. rewrite decide_False by done. by rewrite IH.
Qed.

End UpdateStory.

(** X21. [updateStory] changes one story at most: for an id that no story
    has, the PRD stays as it is; otherwise the first story with that id gets
    the updates, and every other story, also a later one with the same id,
    stays as it is. *)
Theorem updateStory_changes_first_match
    (id : string) (u : PRD.PartialUserStory) (spec : PRDSpec) :
  (Forall (fun s => us_id s <> id) (prd_userStories spec) ->
   PRD.updateStory id u spec = spec) /\
  (forall pre s post,
     prd_userStories spec = pre ++ s :: post ->
     Forall (fun s => us_id s <> id) pre -> us_id s = id ->
     prd_userStories (PRD.updateStory id u spec) = pre ++ PRD.assign s u :: post) /\
  length (prd_userStories (PRD.updateStory id u spec)) = length (prd_userStories spec).
Proof.
  split; [|split].
  - intros Hnone. unfold PRD.updateStory. rewrite updateFirst_no_match by done.
    by destruct spec.
  - intros pre s post Hspec Hpre Hs. cbn. rewrite Hspec.
    by apply updateFirst_first_match.
  - cbn. induction (prd_userStories spec) as [|x l IH]; [done|].
    cbn [PRD.updateFirst]. destruct (decide (us_id x = id)); cbn; [done|].
    by rewrite IH.
Qed.

(** X21 on the backlog of the PRD test. *)
Lemma updateStory_changes_first_match_witness :
  PRD.updateStory "US-009"
    (PRD.mkPartialUserStory None None None None None None (Some true)) Examples.prdAB
  = Examples.prdAB.
Proof.
  apply (updateStory_changes_first_match "US-009"
           (PRD.mkPartialUserStory None None None None None None (Some true))
           Examples.prdAB).
  repeat constructor; discriminate.
Defined.

(** ** Cancelling a loop job *)

Section LoopCancel.

Import JobManager.

Lemma onIterationHook_keeps now jobId it w job :
  JobStore.jobs (store w) !! jobId = Some job -> job_id job = jobId ->
  let w' := onIterationHook now jobId it w in
  tokens w' = tokens w /\
  exists job', JobStore.jobs (store w') !! jobId = Some job' /\
               job_id job' = jobId /\ job_status job' = job_status job.
Proof.
  intros Hjob Hid. unfold onIterationHook. rewrite onStore_eval.
  cbn [snd tokens store set_store]. split; [done|].
  unfold onIteration. unfold bind at 1. unfold JobStore.get at 1. rewrite Hjob.
  destruct (job_iterations job) as [its|].
  - unfold bind at 1. rewrite save_eval.
    set (job1 := set_iterations _ job). set (st1 := (JobStore.save job1 (store w)).2).
    assert (H1 : JobStore.jobs st1 !! jobId = Some job1).
    { unfold st1. rewrite save_jobs. change (job_id job1) with (job_id job).
      rewrite Hid. apply lookup_insert_eq. }
    rewrite (updateProgress_found _ _ _ _ _ H1), save_eval. cbn [snd].
    eexists. split.
    + rewrite save_jobs. cbn [job_id set_progress]. change (job_id job1) with (job_id job).
      rewrite Hid. apply lookup_insert_eq.
    + split; [exact Hid|reflexivity].
  - exists job. by split.
Qed.

Variable options : ExecuteLoopOptions.
Variable hook : IterationResult -> World -> World.
Variable token : TokenRef.
Hypothesis has_token : lo_cancelToken options = Some token.

(** With the token set, the loop body ends the loop: it breaks or throws.
    The store and the tokens are as the iteration hook left them. *)
Lemma afterWorker_cancelled story result l w :
  let it := LoopExecutor.iterResult l story result in
  CancellationToken.isCancelled token (hook it w) = true ->
  exists r s',
    LoopExecutor.afterWorker options (Some hook) story result (l, w) = (Some r, s') /\
    lr_success r = false /\ lr_completed r = false /\
    store s'.2 = store (hook it w) /\ tokens s'.2 = tokens (hook it w).
Proof.
  intros it Hset. unfold CancellationToken.isCancelled in Hset.
  destruct l as [spec path i its].
  unfold LoopExecutor.afterWorker, LoopExecutor.iterationBody, LoopExecutor.callHook.
  unfold LoopExecutor.onLocals, LoopExecutor.onWorld, onFs, ProgressTracker.append,
    Fs.appendFile, PRD.save, Fs.writeFile.
  eff_unfold. cbn. rewrite has_token.
  fold it.
  destruct (if er_success result then er_data result else None) as [data|]; cbn.
  - destruct (sd_passes data); cbn; [eauto 10|].
    destruct path; cbn;
      unfold CancellationToken.isCancelled; cbn; rewrite Hset; cbn; eauto 10.
  - destruct (decide _); cbn; [eauto 10|].
    unfold CancellationToken.isCancelled; cbn; rewrite Hset; cbn; eauto 10.
Qed.

(** [loopFinish] on a cancelled job stores the result and leaves the job
    cancelled. *)
Lemma loopFinish_cancelled now jobId result w job :
  JobStore.jobs (store w) !! jobId = Some job -> job_id job = jobId ->
  job_status job = Cancelled ->
  exists w' job',
    loopFinish now jobId result w = (Return None, w') /\
    JobStore.jobs (store w') !! jobId = Some job' /\
    job_status job' = Cancelled /\
    job_result job' = Some (LoopJobResult result) /\
    job_completedAt job' = job_completedAt job.
Proof.
  intros Hjob Hid Hcancelled. set (st := store w) in *.
  set (job1 := set_result (Some (LoopJobResult result)) job).
  set (st1 := (JobStore.save job1 st).2).
  assert (H1 : JobStore.jobs st1 !! jobId = Some job1).
  { unfold st1. rewrite save_jobs. subst job1. simpl. rewrite Hid.
    apply lookup_insert_eq. }
  set (partial := mkPartialJobProgress None None None
         (Some (ts_tasksCompleted (lr_finalState result)))
         (Some (ts_tasksTotal (lr_finalState result))) None
         (Some (if lr_completed result then "All tasks completed" else "Loop finished"))).
  set (job2 := set_progress
                 (Some (JobStore.mergeProgress now (job_progress job1) partial)) job1).
  set (st2 := (JobStore.save job2 st1).2).
  assert (H2 : JobStore.jobs st2 !! jobId = Some job2).
  { unfold st2. rewrite save_jobs. subst job2 job1. simpl. rewrite Hid.
    apply lookup_insert_eq. }
  exists (set_store st2 w), job2.
  split; [|split; [exact H2|split; [exact Hcancelled|by split]]].
  unfold loopFinish, onStore, zoom. unfold bind at 1. unfold bind at 1.
  fold st.
  rewrite (updateResult_found _ _ _ _ Hjob). fold job1. rewrite save_eval. fold st1.
  unfold bind at 1. rewrite (updateProgress_found _ _ _ _ _ H1). fold partial. fold job2.
  rewrite save_eval. fold st2.
  unfold bind, JobStore.get. rewrite H2. simpl.
  rewrite decide_True by (by rewrite Hcancelled). reflexivity.
Qed.

End LoopCancel.

(** X22. A loop job was cancelled while the worker of an iteration runs. When
    that worker returns, whatever it returns, the loop asks for no further
    story: the execution ends, its entries leave [runningJobs] and
    [cancellationTokens], and the job stays cancelled, with a loop result
    that is not successful and the [completedAt] of the cancellation. *)
Theorem cancelled_loop_stops_after_iteration
    (now : Z) (exec : nat) (jobId : string) (o : ExecuteLoopOptions)
    (l : LoopExecutor.Locals) (story : UserStory) (result : ExecuteResult StoryData)
    (token : TokenRef) (job : Job) (m : JobManager.t) :
  JobManager.executions m !! exec = Some (JobManager.LoopAwaiting jobId o l story) ->
  lo_cancelToken o = Some token ->
  CancellationToken.isCancelled token (JobManager.world m) = true ->
  JobStore.jobs (store (JobManager.world m)) !! jobId = Some job ->
  job_id job = jobId -> job_status job = Cancelled ->
  let m' := (JobManager.resume now exec (JobManager.StoryDone result) m).2 in
  JobManager.executions m' !! exec = None /\
  JobManager.runningJobs m' = delete jobId (JobManager.runningJobs m) /\
  JobManager.cancellationTokens m' = delete jobId (JobManager.cancellationTokens m) /\
  exists job' r,
    JobStore.jobs (store (JobManager.world m')) !! jobId = Some job' /\
    job_status job' = Cancelled /\
    job_completedAt job' = job_completedAt job /\
    job_result job' = Some (LoopJobResult r) /\
    lr_success r = false /\ lr_completed r = false.
Proof.
  intros Hexec Htoken Hset Hjob Hid Hcancelled m'.
  set (w := JobManager.world m) in *.
  set (it := LoopExecutor.iterResult l story result).
  destruct (onIterationHook_keeps now jobId it w job Hjob Hid)
    as (Htokens & job1 & Hjob1 & Hid1 & Hstatus1).
  assert (Hset1 : CancellationToken.isCancelled token
                    (JobManager.onIterationHook now jobId it w) = true).
  { unfold CancellationToken.isCancelled in *. by rewrite Htokens. }
  destruct (afterWorker_cancelled o (JobManager.onIterationHook now jobId) token Htoken
              story result l w Hset1) as (r & s' & Hafter & Hs & Hc & Hstore & _).
  change (LoopExecutor.iterResult l story result) with it in Hstore.
  cbv zeta in Hjob1. rewrite <- Hstore in Hjob1.
  destruct (loopFinish_cancelled now jobId r s'.2 job1 Hjob1 Hid1)
    as (w' & job' & Hfinish & Hjob' & Hstatus' & Hresult' & Hcompleted');
    [congruence|].
  assert (Hcompleted1 : job_completedAt job1 = job_completedAt job).
  { clear -Hjob Hid Hjob1 Hstore. rewrite Hstore in Hjob1.
    unfold JobManager.onIterationHook in Hjob1. rewrite onStore_eval in Hjob1.
    cbn [snd store set_store] in Hjob1.
    unfold JobManager.onIteration in Hjob1. unfold bind at 1 in Hjob1.
    unfold JobStore.get at 1 in Hjob1. fold w in Hjob1. rewrite Hjob in Hjob1.
    destruct (job_iterations job) as [its|].
    - unfold bind at 1 in Hjob1. rewrite save_eval in Hjob1.
      set (job0 := set_iterations _ job) in Hjob1.
      set (st1 := (JobStore.save job0 (store w)).2) in Hjob1.
      assert (H1 : JobStore.jobs st1 !! jobId = Some job0).
      { unfold st1. rewrite save_jobs. change (job_id job0) with (job_id job).
        rewrite Hid. apply lookup_insert_eq. }
      rewrite (updateProgress_found _ _ _ _ _ H1), save_eval in Hjob1.
      cbn [snd] in Hjob1. rewrite save_jobs in Hjob1.
      cbn [job_id set_progress] in Hjob1. change (job_id job0) with (job_id job) in Hjob1.
      rewrite Hid, lookup_insert_eq in Hjob1. by injection Hjob1 as <-.
    - cbn in Hjob1. congruence. }
  assert (Hseg : JobManager.loopResume now jobId o l story result w = (Return None, w')).
  { unfold JobManager.loopResume, JobManager.guarded, try_catch.
    unfold bind at 1. unfold get_state at 1. rewrite Hafter.
    unfold bind at 1. unfold put_state at 1. by rewrite Hfinish. }
  assert (Hresume : JobManager.resume now exec (JobManager.StoryDone result) m
                    = JobManager.suspend exec (JobManager.LoopAwaiting jobId o l story)
                        (JobManager.loopResume now jobId o l story result) m).
  { unfold JobManager.resume, bind, get_state. by rewrite Hexec. }
  unfold m'. rewrite Hresume, (suspend_settles _ _ _ _ _ Hseg).
  split; [apply lookup_delete_eq|]. split; [reflexivity|]. split; [reflexivity|].
  exists job', r. split; [exact Hjob'|]. split; [exact Hstatus'|].
  split; [congruence|]. by split.
Qed.

(** X22 on the loop job of two stories, cancelled during its first
    iteration. *)
Lemma cancelled_loop_stops_after_iteration_witness :
  let m' := (JobManager.resume 2000 0%nat (JobManager.StoryDone Examples.passing)
               Examples.loopManager1_cancelled).2 in
  JobManager.executions m' !! 0%nat = None /\
  JobManager.runningJobs m' = ∅ /\
  job_status <$> JobStore.jobs (store (JobManager.world m')) !! "loop-1" = Some Cancelled.
Proof.
  destruct (cancelled_loop_stops_after_iteration 2000 0%nat "loop-1"
              (JobManager.withCancelToken Examples.loopOptions1 0%nat)
              (LoopExecutor.mkLocals Examples.prdAB (Some "progress.txt") 1 [])
              Examples.storyB Examples.passing 0%nat
              (JobStore.withStatus 1500 Cancelled None Examples.loopJob1)
              Examples.loopManager1_cancelled)
    as (Hexec & Hrun & _ & job' & r & Hjob & Hstatus & _);
    [reflexivity | reflexivity | reflexivity | reflexivity | reflexivity | reflexivity | ].
  split; [exact Hexec|]. split; [by rewrite Hrun|].
  cbv zeta. rewrite Hjob. cbn [fmap option_fmap option_map]. by rewrite Hstatus.
Defined.

(** ** Waiting for a job *)

(** X23. [waitForCompletion] of a job that is completed, failed or cancelled
    returns at its first poll, with that poll's answer and without sleeping;
    of an id that is not in the store it throws the job-not-found error. For
    a job that the rest of the program leaves pending or running, it is
    still waiting after any number of polls. *)
Theorem waitForCompletion_returns_when_finished
    (now : nat -> Z) (during : nat -> JobManager.t -> JobManager.t)
    (round : nat) (jobId : string) (m : JobManager.t) :
  let m0 := (JobManager.ensureInitialized (now round) m).2 in
  (forall job fuel,
     JobStore.jobs (store (JobManager.world m0)) !! jobId = Some job ->
     isTerminal (job_status job) = true ->
     JobManager.waitForCompletion (S fuel) now during round jobId m
     = (Return (Some (mkJobPollResult (job_id job) (job_status job) (job_progress job)
                        true (job_result job) (job_error job)
                        match job_completedAt job, job_startedAt job with
                        | Some completedAt, Some startedAt =>
                            Some (completedAt - startedAt)
                        | _, _ => None
                        end)), m0)) /\
  (forall fuel,
     JobStore.jobs (store (JobManager.world m0)) !! jobId = None ->
     JobManager.waitForCompletion (S fuel) now during round jobId m
     = (Throw (JobNotFound jobId), m0)) /\
  (let unfinished m :=
     JobManager.initialized m = true /\
     exists job, JobStore.jobs (store (JobManager.world m)) !! jobId = Some job /\
                 isTerminal (job_status job) = false in
   (forall k m1, unfinished m1 -> unfinished (during k m1)) ->
   unfinished m ->
   forall fuel,
     (JobManager.waitForCompletion fuel now during round jobId m).1 = Return None).
Proof.
  intros m0. split; [|split].
  - intros job fuel Hjob Hterm. cbn [JobManager.waitForCompletion].
    unfold bind at 1. rewrite poll_eval. fold m0. rewrite Hjob. cbv zeta.
    cbn [poll_finished]. by rewrite Hterm.
  - intros fuel Hnone. cbn [JobManager.waitForCompletion].
    unfold bind at 1. rewrite poll_eval. fold m0. by rewrite Hnone.
  - intros unfinished Hduring Hm fuel. clear m0. revert round m Hm.
    induction fuel as [|fuel IH]; intros round m Hm; [done|].
    cbn [JobManager.waitForCompletion].
    unfold bind at 1. rewrite poll_eval.
    destruct Hm as (Hinit & job & Hjob & Hterm).
    rewrite (ensureInitialized_initialized (now round) m Hinit). cbn [snd].
    rewrite Hjob. cbv zeta. cbn [poll_finished]. rewrite Hterm.
    unfold bind at 1. unfold modify at 1.
    apply IH, Hduring. split; [done|]. by exists job.
Qed.

(** X23 on job-1: finished, it is returned at once; left running, the call
    waits. *)
Lemma waitForCompletion_returns_when_finished_witness :
  (exists r,
     (JobManager.waitForCompletion 1 (fun _ => 4000) (fun _ m => m) 0 "job-1"
        Examples.manager1_settled).1 = Return (Some r) /\
     poll_finished r = true) /\
  (JobManager.waitForCompletion 5 (fun _ => 4000) (fun _ m => m) 0 "job-1"
     Examples.manager1_running).1 = Return None.
Proof.
  destruct (waitForCompletion_returns_when_finished (fun _ => 4000) (fun _ m => m)
              0 "job-1" Examples.manager1_settled) as (Hdone & _ & _).
  destruct (waitForCompletion_returns_when_finished (fun _ => 4000) (fun _ m => m)
              0 "job-1" Examples.manager1_running) as (_ & _ & Hwait).
  split.
  - eexists. split.
    + rewrite (Hdone
        (set_status Completed
           (set_completedAt (Some 3000)
              (set_progress
                 (Some (mkJobProgress 0 None None 1 1 3000 (Some "Task completed")))
                 (set_result (Some (SingleShotResult Examples.workerOk))
                    (set_startedAt (Some 1000) Examples.job1))))) 0%nat eq_refl eq_refl).
      reflexivity.
    + reflexivity.
  - apply Hwait.
    + intros _ m1 Hm1. exact Hm1.
    + split; [reflexivity|]. eexists. split; reflexivity.
Defined.

(** ** The end of a loop job *)

Section LoopFinish.

Import JobManager.

(** [loopFinish] on a job that is not cancelled: the result, the counts of
    its final state and the status that its [success] flag says. *)
Lemma loopFinish_found now jobId result w job :
  JobStore.jobs (store w) !! jobId = Some job -> job_id job = jobId ->
  job_status job <> Cancelled ->
  exists st',
    loopFinish now jobId result w = (Return None, set_store st' w) /\
    JobStore.jobs st' !! jobId
    = Some (JobStore.withStatus now (if lr_success result then Completed else Failed) None
              (set_progress
                 (Some (JobStore.mergeProgress now (job_progress job)
                          (mkPartialJobProgress None None None
                             (Some (ts_tasksCompleted (lr_finalState result)))
                             (Some (ts_tasksTotal (lr_finalState result))) None
                             (Some (if lr_completed result
                                    then "All tasks completed" else "Loop finished")))))
                 (set_result (Some (LoopJobResult result)) job))).
Proof.
  intros Hjob Hid Hstatus. set (st := store w) in *.
  set (job1 := set_result (Some (LoopJobResult result)) job).
  set (st1 := (JobStore.save job1 st).2).
  assert (H1 : JobStore.jobs st1 !! jobId = Some job1).
  { unfold st1. rewrite save_jobs. subst job1. simpl. rewrite Hid.
    apply lookup_insert_eq. }
  set (partial := mkPartialJobProgress None None None _ _ None _).
  set (job2 := set_progress
                 (Some (JobStore.mergeProgress now (job_progress job) partial)) job1).
  set (st2 := (JobStore.save job2 st1).2).
  assert (H2 : JobStore.jobs st2 !! jobId = Some job2).
  { unfold st2. rewrite save_jobs. subst job2 job1. simpl. rewrite Hid.
    apply lookup_insert_eq. }
  set (final := if lr_success result then Completed else Failed).
  set (job3 := JobStore.withStatus now final None job2).
  exists (JobStore.save job3 st2).2. split.
  - unfold loopFinish, onStore, zoom. unfold bind at 1. unfold bind at 1.
    fold st.
    rewrite (updateResult_found _ _ _ _ Hjob). fold job1. rewrite save_eval. fold st1.
    unfold bind at 1. rewrite (updateProgress_found _ _ _ _ _ H1).
    change (job_progress job1) with (job_progress job). fold partial. fold job2.
    rewrite save_eval. fold st2.
    unfold bind at 1. unfold JobStore.get at 1. rewrite H2.
    rewrite decide_False by (cbn; congruence).
    rewrite (updateStatus_found _ _ _ _ _ _ H2). fold final. fold job3.
    rewrite save_eval. reflexivity.
  - rewrite save_jobs.
    destruct (withStatus_fields now final None job2) as (Hid3 & _).
    unfold job3. rewrite Hid3. subst job2 job1. simpl. rewrite Hid.
    apply lookup_insert_eq.
Qed.

End LoopFinish.

(** X24. A loop job whose task file does not exist ends at once as failed:
    the worker is never called, the execution leaves [runningJobs] and
    [cancellationTokens], and the job carries a result without iterations and
    with zero tasks, the message "Loop finished", and no error message: the
    read error is not recorded anywhere. *)
Theorem loop_job_without_task_file
    (now : Z) (exec : nat) (jobId : string) (o : ExecuteLoopOptions)
    (job : Job) (m : JobManager.t) :
  JobManager.executions m !! exec = Some (JobManager.LoopStarted jobId o) ->
  JobStore.jobs (store (JobManager.world m)) !! jobId = Some job ->
  job_id job = jobId -> job_status job = Running ->
  Fs.files (fs (JobManager.world m)) !! lo_taskFile o = None ->
  let m' := (JobManager.resume now exec JobManager.Wake m).2 in
  JobManager.executions m' !! exec = None /\
  JobManager.runningJobs m' = delete jobId (JobManager.runningJobs m) /\
  JobManager.cancellationTokens m' = delete jobId (JobManager.cancellationTokens m) /\
  Fs.files (fs (JobManager.world m')) = Fs.files (fs (JobManager.world m)) /\
  exists job',
    JobStore.jobs (store (JobManager.world m')) !! jobId = Some job' /\
    job_status job' = Failed /\
    job_error job' = job_error job /\
    job_completedAt job' = Some now /\
    job_result job'
    = Some (LoopJobResult
              (mkLoopResult false false []
                 (mkTaskState (nullish (lo_mode o) mode_code) 0 0 []))) /\
    (tasksTotal <$> job_progress job') = Some 0 /\
    (job_progress job' ≫= message) = Some "Loop finished".
Proof.
  intros Hexec Hjob Hid Hstatus Hfile m'.
  set (w := JobManager.world m) in *.
  set (job1 := set_progress
                 (Some (JobStore.mergeProgress now (job_progress job)
                          (mkPartialJobProgress None None None None None None
                             (Some "Starting loop execution...")))) job).
  set (w1 := set_store (JobStore.save job1 (store w)).2 w).
  set (w2 := set_fs (Fs.mk (Fs.files (fs w))
                           (Fs.trace (fs w) ++ [Fs.ReadFile (lo_taskFile o)])) w1).
  assert (Hjob1 : JobStore.jobs (store w2) !! jobId = Some job1).
  { change (store w2) with (JobStore.save job1 (store w)).2.
    rewrite save_jobs. change (job_id job1) with (job_id job). rewrite Hid.
    apply lookup_insert_eq. }
  destruct (loopFinish_found now jobId (LoopExecutor.errored o []) w2 job1 Hjob1 Hid)
    as (st' & Hfinish & Hjob'); [cbn; congruence|].
  assert (Hbegin : LoopExecutor.begin o w1 = (None, w2)).
  { unfold LoopExecutor.begin, onFs, zoom, PRD.load, Fs.readFile. unfold bind.
    change (Fs.files (fs w1)) with (Fs.files (fs w)). by rewrite Hfile. }
  assert (Hseg : JobManager.loopRun now jobId o w = (Return None, set_store st' w2)).
  { unfold JobManager.loopRun, JobManager.guarded, try_catch.
    unfold bind at 1. rewrite onStore_eval, (updateProgress_found _ _ _ _ _ Hjob), save_eval.
    cbn [fst snd]. fold job1. fold w1.
    unfold bind at 1. unfold get_state at 1. rewrite Hbegin.
    unfold bind at 1. unfold put_state at 1. by rewrite Hfinish. }
  assert (Hresume : JobManager.resume now exec JobManager.Wake m
                    = JobManager.suspend exec (JobManager.LoopStarted jobId o)
                        (JobManager.loopRun now jobId o) m).
  { unfold JobManager.resume, bind, get_state. by rewrite Hexec. }
  unfold m'. rewrite Hresume, (suspend_settles _ _ _ _ _ Hseg).
  split; [apply lookup_delete_eq|]. split; [reflexivity|]. split; [reflexivity|].
  split; [reflexivity|].
  eexists. split; [exact Hjob'|]. by repeat split.
Qed.

(** X24 on a loop job started in a directory without files. *)
Lemma loop_job_without_task_file_witness :
  job_status <$>
    JobStore.jobs
      (store (JobManager.world
         (JobManager.resume 1001 0%nat JobManager.Wake Examples.loopManagerNoFile).2))
    !! "loop-1"
  = Some Failed.
Proof.
  destruct (loop_job_without_task_file 1001 0%nat "loop-1"
              (JobManager.withCancelToken Examples.loopOptions1 0%nat)
              (JobStore.withStatus 1000 Running None
                 (JobManager.newLoopJob 1000 "loop-1"
                    (JobManager.withCancelToken Examples.loopOptions1 0%nat)))
              Examples.loopManagerNoFile)
    as (_ & _ & _ & _ & job' & Hjob & Hstatus & _);
    [reflexivity | reflexivity | reflexivity | reflexivity | reflexivity | ].
  cbv zeta in Hjob. rewrite Hjob. cbn [fmap option_fmap option_map]. by rewrite Hstatus.
Defined.

Section LoopStep.

Import JobManager.

Variable options : ExecuteLoopOptions.
Variable hook : IterationResult -> World -> World.

(** The loop body leaves the store as the iteration hook left it. *)
Lemma afterWorker_store story result l w :
  store (LoopExecutor.afterWorker options (Some hook) story result (l, w)).2.2
  = store (hook (LoopExecutor.iterResult l story result) w).
Proof.
  destruct l as [spec path i its].
  unfold LoopExecutor.afterWorker, LoopExecutor.iterationBody, LoopExecutor.callHook.
  unfold LoopExecutor.onLocals, LoopExecutor.onWorld, onFs, ProgressTracker.append,
    Fs.appendFile, PRD.save, Fs.writeFile.
  eff_unfold. cbn.
  destruct (if er_success result then er_data result else None) as [data|]; cbn.
  - destruct (sd_passes data); cbn; [reflexivity|].
    destruct path; cbn;
      destruct (lo_cancelToken options); cbn;
      repeat match goal with
             | |- context [CancellationToken.isCancelled ?t ?w] =>
                 destruct (CancellationToken.isCancelled t w)
             end; reflexivity.
  - destruct (decide _); cbn; [reflexivity|].
    destruct (lo_cancelToken options); cbn;
      repeat match goal with
             | |- context [CancellationToken.isCancelled ?t ?w] =>
                 destruct (CancellationToken.isCancelled t w)
             end; reflexivity.
Qed.

End LoopStep.

(** X25. When the worker of an iteration of a running loop job returns, the
    execution either goes on to the worker call of the next story, and the
    job stays running, or it ends. When it ends, the job holds the loop
    result, is completed or failed as the [success] flag of that result says,
    has [completedAt] set, and its progress counts are those of the final
    state of the result. *)
Theorem loop_job_step
    (now : Z) (exec : nat) (jobId : string) (o : ExecuteLoopOptions)
    (l : LoopExecutor.Locals) (story : UserStory) (result : ExecuteResult StoryData)
    (job : Job) (m : JobManager.t) :
  JobManager.executions m !! exec = Some (JobManager.LoopAwaiting jobId o l story) ->
  JobStore.jobs (store (JobManager.world m)) !! jobId = Some job ->
  job_id job = jobId -> job_status job = Running ->
  let m' := (JobManager.resume now exec (JobManager.StoryDone result) m).2 in
  (exists l' story' job',
     JobManager.executions m' !! exec
     = Some (JobManager.LoopAwaiting jobId o l' story') /\
     JobManager.runningJobs m' = JobManager.runningJobs m /\
     JobStore.jobs (store (JobManager.world m')) !! jobId = Some job' /\
     job_status job' = Running)
  \/
  (JobManager.executions m' !! exec = None /\
   JobManager.runningJobs m' = delete jobId (JobManager.runningJobs m) /\
   exists r job' p',
     JobStore.jobs (store (JobManager.world m')) !! jobId = Some job' /\
     job_result job' = Some (LoopJobResult r) /\
     job_status job' = (if lr_success r then Completed else Failed) /\
     job_completedAt job' = Some now /\
     job_progress job' = Some p' /\
     tasksCompleted p' = ts_tasksCompleted (lr_finalState r) /\
     tasksTotal p' = ts_tasksTotal (lr_finalState r)).
Proof.
  intros Hexec Hjob Hid Hstatus m'.
  set (w := JobManager.world m) in *.
  set (it := LoopExecutor.iterResult l story result).
  destruct (onIterationHook_keeps now jobId it w job Hjob Hid)
    as (_ & job1 & Hjob1 & Hid1 & Hstatus1).
  cbv zeta in Hjob1.
  pose proof (afterWorker_store o (JobManager.onIterationHook now jobId)
                story result l w) as Hstore.
  fold it in Hstore.
  assert (Hresume : JobManager.resume now exec (JobManager.StoryDone result) m
                    = JobManager.suspend exec (JobManager.LoopAwaiting jobId o l story)
                        (JobManager.loopResume now jobId o l story result) m).
  { unfold JobManager.resume, bind, get_state. by rewrite Hexec. }
  (* the end of the job, from a world that holds [job1] *)
  assert (Hend : forall r w2,
             store w2 = store (JobManager.onIterationHook now jobId it w) ->
             (forall out, JobManager.loopFinish now jobId r w2 = (Return None, out) ->
                JobManager.loopResume now jobId o l story result w = (Return None, out)) ->
             JobManager.executions m' !! exec = None /\
             JobManager.runningJobs m' = delete jobId (JobManager.runningJobs m) /\
             exists r job' p',
               JobStore.jobs (store (JobManager.world m')) !! jobId = Some job' /\
               job_result job' = Some (LoopJobResult r) /\
               job_status job' = (if lr_success r then Completed else Failed) /\
               job_completedAt job' = Some now /\
               job_progress job' = Some p' /\
               tasksCompleted p' = ts_tasksCompleted (lr_finalState r) /\
               tasksTotal p' = ts_tasksTotal (lr_finalState r)).
  { intros r w2 Hw2 Hseg. rewrite <- Hw2 in Hjob1.
    destruct (loopFinish_found now jobId r w2 job1 Hjob1 Hid1) as (st' & Hfinish & Hjob');
      [congruence|].
    apply Hseg in Hfinish.
    unfold m'. rewrite Hresume, (suspend_settles _ _ _ _ _ Hfinish).
    split; [apply lookup_delete_eq|]. split; [reflexivity|].
    exists r. eexists. eexists. split; [exact Hjob'|].
    destruct (lr_success r); by repeat split. }
  destruct (LoopExecutor.afterWorker o (Some (JobManager.onIterationHook now jobId))
              story result (l, w)) as [[r|] [l2 w2]] eqn:Hafter; cbn [fst snd] in *.
  - right. apply (Hend r w2 Hstore). intros out Hfinish.
    unfold JobManager.loopResume, JobManager.guarded, try_catch.
    unfold bind at 1. unfold get_state at 1. rewrite Hafter.
    unfold bind at 1. unfold put_state at 1. cbn [snd]. by rewrite Hfinish.
  - destruct (loopHead_cases o (l2, w2))
      as [(_ & [(_ & Hhead)|(story' & _ & Hhead)])|(_ & Hhead)]; cbn [fst snd] in Hhead.
    + right.
      apply (Hend (LoopExecutor.allCompleted o
                     (LoopExecutor.set_iteration (LoopExecutor.iteration l2 + 1) l2))
               w2 Hstore).
      intros out Hfinish.
      unfold JobManager.loopResume, JobManager.guarded, try_catch.
      unfold bind at 1. unfold get_state at 1. rewrite Hafter.
      unfold bind at 1. unfold put_state at 1. cbn [fst snd].
      unfold JobManager.loopAdvance. unfold bind at 1. unfold get_state at 1.
      rewrite Hhead. cbn [fst snd]. unfold bind at 1. unfold put_state at 1.
      by rewrite Hfinish.
    + left. clear Hend.
      assert (Hseg : JobManager.loopResume now jobId o l story result w
                     = (Return (Some (JobManager.LoopAwaiting jobId o
                                        (LoopExecutor.set_iteration
                                           (LoopExecutor.iteration l2 + 1) l2) story')),
                        w2)).
      { unfold JobManager.loopResume, JobManager.guarded, try_catch.
        unfold bind at 1. unfold get_state at 1. rewrite Hafter.
        unfold bind at 1. unfold put_state at 1. cbn [fst snd].
        unfold JobManager.loopAdvance. unfold bind at 1. unfold get_state at 1.
        rewrite Hhead. reflexivity. }
      unfold m'. rewrite Hresume, (suspend_returns _ _ _ _ _ _ Hseg).
      eexists _, story', job1.
      split; [apply lookup_insert_eq|]. split; [reflexivity|].
      split; [|congruence].
      change (JobStore.jobs (store w2) !! jobId = Some job1). by rewrite Hstore.
    + right. apply (Hend (LoopExecutor.notCompleted o l2) w2 Hstore).
      intros out Hfinish.
      unfold JobManager.loopResume, JobManager.guarded, try_catch.
      unfold bind at 1. unfold get_state at 1. rewrite Hafter.
      unfold bind at 1. unfold put_state at 1. cbn [fst snd].
      unfold JobManager.loopAdvance. unfold bind at 1. unfold get_state at 1.
      rewrite Hhead. cbn [fst snd]. unfold bind at 1. unfold put_state at 1.
      by rewrite Hfinish.
Qed.

(** X25 on the loop job of two stories: the first worker call returns
    without meeting the criteria, and the execution stands at the next worker
    call. *)
Lemma loop_job_step_witness :
  let m' := (JobManager.resume 2000 0%nat (JobManager.StoryDone Examples.notPassing)
               Examples.loopManager1).2 in
  is_Some (JobManager.executions m' !! 0%nat) /\
  job_status <$> JobStore.jobs (store (JobManager.world m')) !! "loop-1" = Some Running.
Proof.
  destruct (loop_job_step 2000 0%nat "loop-1"
              (JobManager.withCancelToken Examples.loopOptions1 0%nat)
              (LoopExecutor.mkLocals Examples.prdAB (Some "progress.txt") 1 [])
              Examples.storyB Examples.notPassing Examples.loopJob1 Examples.loopManager1
              eq_refl eq_refl eq_refl eq_refl)
    as [(l' & story' & job' & Hexec & _ & Hjob & Hstatus)|(Hexec & _)].
  - cbv zeta. rewrite Hexec, Hjob. cbn [fmap option_fmap option_map].
    rewrite Hstatus. split; [by eexists|reflexivity].
  - discriminate Hexec.
Defined.
